(** * i18n: namespace registry and key resolver

    A shallow embedding of the registration / resolution engine of the
    i18n library (utils.ts, errors.ts, events.ts, base.ts) and the
    properties of its specification.

    Conventions of the embedding:
    - JS strings are [string], held as UTF-8 bytes; [null | string] is
      [option string].
    - A JS [Map] that is iterated ([_keyValue.keys()], [t.values()]) is an
      association list in insertion order; a [Map] or [Set] that is only
      looked up is a [gmap] / [gset].
    - Registry objects are identified by the namespace they were created
      for: [register] creates at most one per namespace and never drops it.
    - The error sink ([errorHandle]) and the published notifications are
      recorded in logs carried by the shared state. *)

From Stdlib Require Import String Ascii.
From stdpp Require Import gmap strings list.

Local Open Scope string_scope.
Local Open Scope list_scope.

(** ** types.ts *)
Record TConfig : Type := mkConfig {
  locale : string;
  defaultLocale : string;
  isSupportedLocale : string -> bool
}.

(** [TStrToken]: a part of the text ([str]) or the name of a placeholder
    ([ph]). *)
Inductive TStrTokenKind : Type := str | ph.

Record TStrToken : Type := mkToken {
  kind : TStrTokenKind;
  value : string
}.

(** ** utils.ts *)
Module Utils.

Definition dot : ascii := "."%char.
Definition dotS : string := String dot EmptyString.

(** [typeof value === 'string' && value.length > 0] on a string. *)
Definition isNonemptyString (value : string) : bool :=
  match value with
  | EmptyString => false
  | String _ _ => true
  end.

(** [namespace ? `${namespace}.${key}` : key]; [null] and the empty string
    are the falsy namespaces. *)
Definition concatNamespaceWithKey (namespace : option string) (key : string) : string :=
  match namespace with
  | Some ns => if isNonemptyString ns then ns +:+ dotS +:+ key else key
  | None => key
  end.

(** [s.split('.')] *)
Fixpoint split (s : string) : list string :=
  match s with
  | EmptyString => [EmptyString]
  | String c r =>
      if Ascii.eqb c dot then EmptyString :: split r
      else match split r with
           | h :: t => String c h :: t
           | [] => [String c EmptyString]
           end
  end.

(** [path.join('.')] *)
Fixpoint join (path : list string) : string :=
  match path with
  | [] => EmptyString
  | x :: rest =>
      match rest with
      | [] => x
      | _ :: _ => x +:+ dotS +:+ join rest
      end
  end.

(** The loop [for (let i = index + 1; i < path.length; ++i)] pushes
    [[path.slice(0, i).join('.'), path.slice(i).join('.')]]. *)
Definition collectNamespaceKeyPairs (path : list string) (index : nat)
  : list (string * string) :=
  map (fun i => (join (take i path), join (drop i path)))
      (seq (index + 1) (length path - (index + 1))).

Definition splitKeyByNamespace (fullKey : string) : list (string * string) :=
  collectNamespaceKeyPairs (split fullKey) 0.

(** The loop [for (let i = 0; i < path.length; ++i)] pushes
    [path.slice(0, i + 1).join('.')]. *)
Definition splitKeyIntoParts (fullKey : string) : list string :=
  let path := split fullKey in
  map (fun i => join (take (i + 1) path)) (seq 0 (length path)).

(** The three alternatives of [/(\.\.)|^\.|\.$/]. *)
Fixpoint hasDoubleDot (s : string) : bool :=
  match s with
  | String a r =>
      match r with
      | String b _ => (Ascii.eqb a dot && Ascii.eqb b dot) || hasDoubleDot r
      | EmptyString => false
      end
  | EmptyString => false
  end.

Definition startsWithDot (s : string) : bool :=
  match s with
  | String a _ => Ascii.eqb a dot
  | EmptyString => false
  end.

Fixpoint endsWithDot (s : string) : bool :=
  match s with
  | String a r =>
      match r with
      | EmptyString => Ascii.eqb a dot
      | String _ _ => endsWithDot r
      end
  | EmptyString => false
  end.

Definition testNamespacePathError (name : string) : bool :=
  hasDoubleDot name || startsWithDot name || endsWithDot name.

Definition testNamespacePath (name : string) : bool :=
  if isNonemptyString name then negb (testNamespacePathError name) else false.

(** [s.indexOf('.')], with [None] for [-1]. *)
Fixpoint indexOfDot (s : string) : option nat :=
  match s with
  | EmptyString => None
  | String c r => if Ascii.eqb c dot then Some 0 else S <$> indexOfDot r
  end.

(** [s.slice(0, i)] and [s.slice(i)] for [0 <= i]. *)
Fixpoint sliceTo (i : nat) (s : string) : string :=
  match i, s with
  | S j, String c r => String c (sliceTo j r)
  | _, _ => EmptyString
  end.

Fixpoint sliceFrom (i : nat) (s : string) : string :=
  match i, s with
  | S j, String _ r => sliceFrom j r
  | _, _ => s
  end.

(** [parseOptions(options)] with [options.defaultLocale] and
    [options.locales] optional. *)
Definition parseOptions (locale : string) (defaultLocale : option string)
    (locales : option (list string)) : TConfig :=
  let defaultLocale :=
    match defaultLocale with
    | Some d => if isNonemptyString d then d else locale
    | None => locale
    end in
  let isSupportedLocale :=
    match locales with
    | Some (l :: ls) =>
        let locales : gset string := list_to_set (l :: ls) ∪ {[locale]} ∪ {[defaultLocale]} in
        fun value => bool_decide (value ∈ locales)
    | _ => fun _ => true
    end in
  mkConfig locale defaultLocale isSupportedLocale.

(** [splitKeyWithNamespace(namespace, key)] *)
Definition splitKeyWithNamespace (namespace : option string) (key : string)
  : list (string * string) :=
  let path := split key in
  match namespace with
  | Some ns =>
      if isNonemptyString ns then
        let nsPath := split ns in
        collectNamespaceKeyPairs (nsPath ++ path) (length nsPath - 1)
      else collectNamespaceKeyPairs path 0
  | None => collectNamespaceKeyPairs path 0
  end.

(** [String.prototype.trim].  A JS string is held as its UTF-8 bytes, one
    [ascii] per byte (a lone surrogate as the three bytes of its code
    point), so that a character above U+007F is two or three bytes here
    and the ASCII characters, the dot and the braces among them, are the
    single bytes below 128.  What [trim] strips is WhiteSpace and
    LineTerminator: U+0009 to U+000D and U+0020 (one byte), U+00A0
    (C2 A0), and U+1680, U+2000 to U+200A, U+2028, U+2029, U+202F, U+205F,
    U+3000 and U+FEFF (three bytes). *)
Definition isWhiteSpace1 (c : ascii) : bool :=
  let n := nat_of_ascii c in
  (Nat.leb 9 n && Nat.leb n 13) || Nat.eqb n 32.

Definition isWhiteSpace2 (c1 c2 : ascii) : bool :=
  Nat.eqb (nat_of_ascii c1) 194 && Nat.eqb (nat_of_ascii c2) 160.

Definition isWhiteSpace3 (c1 c2 c3 : ascii) : bool :=
  let n1 := nat_of_ascii c1 in
  let n2 := nat_of_ascii c2 in
  let n3 := nat_of_ascii c3 in
  (Nat.eqb n1 225 && Nat.eqb n2 154 && Nat.eqb n3 128)
  || (Nat.eqb n1 226 && Nat.eqb n2 128
      && ((Nat.leb 128 n3 && Nat.leb n3 138)
          || Nat.eqb n3 168 || Nat.eqb n3 169 || Nat.eqb n3 175))
  || (Nat.eqb n1 226 && Nat.eqb n2 129 && Nat.eqb n3 159)
  || (Nat.eqb n1 227 && Nat.eqb n2 128 && Nat.eqb n3 128)
  || (Nat.eqb n1 239 && Nat.eqb n2 187 && Nat.eqb n3 191).

(** What follows the white space character that [s] starts with, if it
    starts with one. *)
Definition skipWhiteSpace (s : string) : option string :=
  match s with
  | String c1 r1 =>
      if isWhiteSpace1 c1 then Some r1
      else
        match r1 with
        | String c2 r2 =>
            if isWhiteSpace2 c1 c2 then Some r2
            else
              match r2 with
              | String c3 r3 => if isWhiteSpace3 c1 c2 c3 then Some r3 else None
              | EmptyString => None
              end
        | EmptyString => None
        end
  | EmptyString => None
  end.

(** The string without the white space characters it starts with. *)
Fixpoint trimStart (s : string) : string :=
  match s with
  | String c1 r1 =>
      if isWhiteSpace1 c1 then trimStart r1
      else
        match r1 with
        | String c2 r2 =>
            if isWhiteSpace2 c1 c2 then trimStart r2
            else
              match r2 with
              | String c3 r3 => if isWhiteSpace3 c1 c2 c3 then trimStart r3 else s
              | EmptyString => s
              end
        | EmptyString => s
        end
  | EmptyString => EmptyString
  end.

(** The string without the white space characters it ends with: it is cut
    at the first position from which only white space follows.  (No white
    space character starts with a continuation byte, so that position is
    the start of a character.) *)
Fixpoint trimEnd (s : string) : string :=
  match s with
  | String c r =>
      match trimStart s with
      | EmptyString => EmptyString
      | String _ _ => String c (trimEnd r)
      end
  | EmptyString => EmptyString
  end.

Definition trim (s : string) : string := trimEnd (trimStart s).

Definition openBrace : ascii := "{"%char.
Definition closeBrace : ascii := "}"%char.

Definition isBrace (c : ascii) : bool :=
  Ascii.eqb c openBrace || Ascii.eqb c closeBrace.

(** The longest prefix matched by [[^{}]*], and what follows it. *)
Fixpoint spanNonBrace (s : string) : string * string :=
  match s with
  | String c r =>
      if isBrace c then (EmptyString, s)
      else let '(run, rest) := spanNonBrace r in (String c run, rest)
  | EmptyString => (EmptyString, EmptyString)
  end.

(** A match of [/\{([^{}]+)\}/] at the start of [s]: the group and what
    follows the match. *)
Definition matchAt (s : string) : option (string * string) :=
  match s with
  | String c r =>
      if Ascii.eqb c openBrace then
        match spanNonBrace r with
        | (String g run, String d rest) =>
            if Ascii.eqb d closeBrace then Some (String g run, rest) else None
        | _ => None
        end
      else None
  | EmptyString => None
  end.

(** The loop of [templateToTokens] over [template.matchAll(re.curlyBracesPair)]:
    [s] is the text from the position where the next match is searched,
    [pending] is [template.slice(lastIndex, position)], and [fuel] bounds
    the number of positions tried (the length of [s] is enough). *)
Fixpoint scanTokens (fuel : nat) (pending s : string) : list TStrToken :=
  match s with
  | EmptyString => [mkToken str pending]
  | String c r =>
      match fuel with
      | 0 => [mkToken str (pending +:+ s)]
      | S fuel' =>
          match matchAt s with
          | Some (g, rest) =>
              let value := trim g in
              if isNonemptyString value then
                mkToken str pending :: mkToken ph value :: scanTokens fuel' EmptyString rest
              else
                scanTokens fuel'
                  (pending +:+ String openBrace (g +:+ String closeBrace EmptyString)) rest
          | None => scanTokens fuel' (pending +:+ String c EmptyString) r
          end
      end
  end.

Definition templateToTokens (template : string) : list TStrToken :=
  scanTokens (String.length template) EmptyString template.

End Utils.

Import Utils.

(** ** errors.ts *)
Module errorCodes.

Inductive TErrorCode : Type :=
  | UnregisteredLocaleError
  | NamespaceError
  | KeyError
  | ValueError
  | IntersectionNsError
  | IntersectionError
  | UnregisteredKeyError
  | CircularDependencyError.

End errorCodes.

Record TErrorDetail : Type := mkError {
  code : errorCodes.TErrorCode;
  namespace : option string;
  key : string;
  message : string
}.

Module errorMessages.

Definition UnregisteredLocaleError (locale : string) : TErrorDetail :=
  mkError errorCodes.UnregisteredLocaleError None locale
    ("The locale '" +:+ locale +:+ "' is not registered.").

Definition NamespaceError (namespace : option string) : TErrorDetail :=
  let ns := match namespace with Some n => n | None => "null(type)" end in
  mkError errorCodes.NamespaceError namespace EmptyString
    ("The namespace '" +:+ ns +:+ "' must be a non-empty string.").

Definition KeyError (namespace : option string) (key : string) : TErrorDetail :=
  mkError errorCodes.KeyError namespace key
    ("The full key '" +:+ concatNamespaceWithKey namespace key
       +:+ "' must have at least two segments separated by a dot.").

Definition IntersectionNsError (namespace otherNamespace partKey : string) : TErrorDetail :=
  mkError errorCodes.IntersectionNsError (Some namespace) EmptyString
    ("The namespace '" +:+ namespace +:+ "' intersects with the key '" +:+ partKey
       +:+ "' in the namespace '" +:+ otherNamespace +:+ "'.").

Definition IntersectionError (namespace : option string) (key otherNamespace : string)
  : TErrorDetail :=
  let ns := match namespace with Some n => n | None => "(null)" end in
  mkError errorCodes.IntersectionError namespace key
    ("The namespace '" +:+ ns +:+ "' with the key '" +:+ key
       +:+ "' intersects with the namespace '" +:+ otherNamespace +:+ "'.").

Definition CircularDependencyError (namespace : option string)
    (key otherNamespace otherKey : string) : TErrorDetail :=
  mkError errorCodes.CircularDependencyError namespace key
    ("Circular dependency detected for key '" +:+ concatNamespaceWithKey namespace key
       +:+ "' with namespace '" +:+ otherNamespace +:+ "' and key '" +:+ otherKey +:+ "'.").

Definition UnregisteredKeyError (namespace : option string) (key : string) : TErrorDetail :=
  mkError errorCodes.UnregisteredKeyError namespace key
    ("The key '" +:+ concatNamespaceWithKey namespace key +:+ "' is not registered.").

End errorMessages.

(** ** JS [Map] in insertion order *)
Module JsMap.
Section JsMap.
Context {A : Type}.

Fixpoint get (k : string) (m : list (string * A)) : option A :=
  match m with
  | [] => None
  | (k', v) :: rest => if decide (k = k') then Some v else get k rest
  end.

(** [m.set(k, v)]: an existing key keeps its position, a new key is
    appended. *)
Fixpoint set (k : string) (v : A) (m : list (string * A)) : list (string * A) :=
  match m with
  | [] => [(k, v)]
  | (k', v') :: rest =>
      if decide (k = k') then (k, v) :: rest else (k', v') :: set k v rest
  end.

Definition has (k : string) (m : list (string * A)) : bool :=
  match get k m with Some _ => true | None => false end.

Definition keys (m : list (string * A)) : list string := map fst m.

Definition values (m : list (string * A)) : list A := map snd m.

End JsMap.
End JsMap.

(** ** events.ts

    Only the listeners that the registries themselves install (the
    closures of [_setExternalKey]) are part of the state.  Listeners
    supplied by callers are external code; what is delivered to them is
    recorded in the log of published notifications. *)
Module Events.

(** The closure [(_name, value) => { if (value === partKey) shared.changeKey(namespace, key) }];
    [lid] stands for the identity of the function object. *)
Record TListenerKey : Type := mkListener {
  lid : nat;
  lsNamespace : string;
  lsKey : string;
  lsPartKey : string
}.

Definition sameListener (a b : TListenerKey) : bool := Nat.eqb (lid a) (lid b).

(** [Emitter._listeners]; [_listenersOnce] stays [null] since no listener
    of the state is one-shot. *)
Definition Emitter : Type := list TListenerKey.

Definition Emitter_includes (listener : TListenerKey) (e : Emitter) : bool :=
  existsb (sameListener listener) e.

(** [Emitter.on(listener, false)] *)
Definition Emitter_on (listener : TListenerKey) (e : Emitter) : Emitter :=
  if Emitter_includes listener e then e else e ++ [listener].

(** [Emitter.off(listener)]: the first identical listener is spliced out. *)
Fixpoint Emitter_off (listener : TListenerKey) (e : Emitter) : Emitter :=
  match e with
  | [] => []
  | l :: rest => if sameListener l listener then rest else l :: Emitter_off listener rest
  end.

(** [EventEmitter.onKey(namespace, listener, false)] *)
Definition onKey (namespace : string) (listener : TListenerKey)
    (ev : gmap string Emitter) : gmap string Emitter :=
  match ev !! namespace with
  | Some e => <[namespace := Emitter_on listener e]> ev
  | None => <[namespace := Emitter_on listener []]> ev
  end.

(** [EventEmitter.offKey(namespace, listener)] *)
Definition offKey (namespace : string) (listener : TListenerKey)
    (ev : gmap string Emitter) : gmap string Emitter :=
  match ev !! namespace with
  | Some e => <[namespace := Emitter_off listener e]> ev
  | None => ev
  end.

(** A notification handed to the emitter of a scope: [emitLocale(locale)],
    or [emit('key', value)] on the scope [null] or on a namespace. *)
Inductive TEvent : Type :=
  | EvLocale (locale : string)
  | EvKey (scope : option string) (value : string).

End Events.

Import Events.

(** ** events.ts, the class [Emitter] in full

    Listeners are function objects compared with [===]; [L] is the type of
    their identities.  What a listener does when it is called is outside
    the emitter: [emit] gives the listeners to call, in order, and the
    emitter it leaves. *)
Module EmitterClass.
Section EmitterClass.
Context {L : Type} `{EqDecision L}.

Record Emitter : Type := mkEmitter {
  _listeners : list L;
  _listenersOnce : option (list L)
}.

(** [new Emitter()] *)
Definition empty : Emitter := mkEmitter [] None.

(** [array.includes(listener)] *)
Definition includes (listener : L) (l : list L) : bool := bool_decide (listener ∈ l).

(** The loop that splices out the first identical listener. *)
Fixpoint spliceFirst (listener : L) (l : list L) : list L :=
  match l with
  | [] => []
  | x :: rest => if decide (x = listener) then rest else x :: spliceFirst listener rest
  end.

Definition _emitterAddOnce (listener : L) (e : Emitter) : Emitter :=
  match _listenersOnce e with
  | None => mkEmitter (_listeners e) (Some [listener])
  | Some once =>
      if includes listener once then e
      else mkEmitter (_listeners e) (Some (once ++ [listener]))
  end.

Definition _emitterRemoveOnce (listener : L) (e : Emitter) : Emitter :=
  match _listenersOnce e with
  | None => e
  | Some once =>
      match spliceFirst listener once with
      | [] => mkEmitter (_listeners e) None
      | x :: rest => mkEmitter (_listeners e) (Some (x :: rest))
      end
  end.

(** [_emitterCopyAndRemoveOnce()], called when [_listenersOnce] is not
    null: the copy of the listeners, and the emitter without the one-shot
    listeners. *)
Definition _emitterCopyAndRemoveOnce (once : list L) (e : Emitter) : list L * Emitter :=
  (_listeners e,
   mkEmitter (List.filter (fun l => negb (includes l once)) (_listeners e)) None).

Definition on (listener : L) (once : bool) (e : Emitter) : Emitter :=
  if negb (includes listener (_listeners e)) then
    let e := mkEmitter (_listeners e ++ [listener]) (_listenersOnce e) in
    if once then _emitterAddOnce listener e else e
  else if once then _emitterAddOnce listener e
  else _emitterRemoveOnce listener e.

Definition off (listener : L) (e : Emitter) : Emitter :=
  if includes listener (_listeners e) then
    _emitterRemoveOnce listener
      (mkEmitter (spliceFirst listener (_listeners e)) (_listenersOnce e))
  else e.

(** [emit(name, value)]: the listeners that are called, in this order, and
    the emitter after the call. *)
Definition emit (e : Emitter) : list L * Emitter :=
  match _listenersOnce e with
  | Some once => _emitterCopyAndRemoveOnce once e
  | None => (_listeners e, e)
  end.

(** The calls made on an emitter. *)
Inductive TCall : Type :=
  | CallOn (listener : L) (once : bool)
  | CallOff (listener : L)
  | CallEmit.

Definition call (e : Emitter) (c : TCall) : Emitter :=
  match c with
  | CallOn listener once => on listener once e
  | CallOff listener => off listener e
  | CallEmit => snd (emit e)
  end.

(** The emitter after a sequence of calls on a new one. *)
Definition run (calls : list TCall) : Emitter := foldl call empty calls.

(** What every sequence of calls maintains: no listener is registered
    twice, and the one-shot list is either null or a non-empty list,
    without repetition, of registered listeners. *)
Definition consistent (e : Emitter) : Prop :=
  NoDup (_listeners e)
  /\ forall once, _listenersOnce e = Some once ->
                  once <> [] /\ NoDup once /\ forall l, l ∈ once -> l ∈ _listeners e.

End EmitterClass.

Arguments Emitter : clear implicits.
Arguments TCall : clear implicits.

End EmitterClass.

(** ** base.ts *)

(** What the engine needs from the value type and from the concrete
    subclass of [SharedSingleton]: the truthiness of a stored value
    ([if (value)]) and the abstract method [getDefaultValue()]. *)
Class TValueOps (TValue : Type) : Type := {
  truthy : TValue -> bool;
  getDefaultValue : TValue
}.

Module Base.
Section Base.
Context {TValue : Type} `{Ops : TValueOps TValue}.

(** [{ t: Map<TLocale, TValue> } | { t: null, k: string }] *)
Inductive TKeyEntry : Type :=
  | Direct (t : list (string * TValue))
  | Borrow (k : string).

(** An entry of [_externalListeners]: [{ ls, ns }]. *)
Record TExternalListener : Type := mkExternal {
  ls : TListenerKey;
  ns : string
}.

(** The mutable fields of an [I18nRegistry]; its readonly [_namespace] is
    the namespace it is registered under. *)
Record I18nRegistry : Type := mkRegistry {
  _keyValue : list (string * TKeyEntry);
  _externalListeners : gmap string TExternalListener
}.

(** An entry of [_namespaces]: [{ registry, i18n }]; of the facade only
    its presence is kept. *)
Record TNamespace : Type := mkNamespace {
  registry : option I18nRegistry;
  i18n : bool
}.

Record SharedSingleton : Type := mkShared {
  _events : gmap string Emitter;
  _namespaces : gmap string TNamespace;
  _cache : gmap string TValue;
  _errorKeys : gset string;
  _defaultLocale : string;
  _isSupportedLocale : string -> bool;
  _locale : string;
  _nextListener : nat;
  _errors : list TErrorDetail;
  _published : list TEvent
}.

(** [TVisitedI18n]; [visited] is keyed by the registry, that is by its
    namespace. *)
Record TVisitedI18n : Type := mkVisited {
  ctxNamespace : option string;
  ctxKey : string;
  visited : gmap string (list string);
  error : bool
}.

(** [{ value, registry }] *)
Definition TFound : Type := TValue * string.

Definition create (config : TConfig) : SharedSingleton :=
  mkShared ∅ ∅ ∅ ∅ (defaultLocale config) (isSupportedLocale config) (locale config) 0 [] [].

Definition with_events (ev : gmap string Emitter) (s : SharedSingleton) : SharedSingleton :=
  mkShared ev (_namespaces s) (_cache s) (_errorKeys s) (_defaultLocale s)
    (_isSupportedLocale s) (_locale s) (_nextListener s) (_errors s) (_published s).

Definition with_namespaces (m : gmap string TNamespace) (s : SharedSingleton) : SharedSingleton :=
  mkShared (_events s) m (_cache s) (_errorKeys s) (_defaultLocale s)
    (_isSupportedLocale s) (_locale s) (_nextListener s) (_errors s) (_published s).

Definition with_cache (c : gmap string TValue) (s : SharedSingleton) : SharedSingleton :=
  mkShared (_events s) (_namespaces s) c (_errorKeys s) (_defaultLocale s)
    (_isSupportedLocale s) (_locale s) (_nextListener s) (_errors s) (_published s).

Definition with_errorKeys (e : gset string) (s : SharedSingleton) : SharedSingleton :=
  mkShared (_events s) (_namespaces s) (_cache s) e (_defaultLocale s)
    (_isSupportedLocale s) (_locale s) (_nextListener s) (_errors s) (_published s).

Definition with_locale (l : string) (s : SharedSingleton) : SharedSingleton :=
  mkShared (_events s) (_namespaces s) (_cache s) (_errorKeys s) (_defaultLocale s)
    (_isSupportedLocale s) l (_nextListener s) (_errors s) (_published s).

Definition with_nextListener (n : nat) (s : SharedSingleton) : SharedSingleton :=
  mkShared (_events s) (_namespaces s) (_cache s) (_errorKeys s) (_defaultLocale s)
    (_isSupportedLocale s) (_locale s) n (_errors s) (_published s).

(** [errorHandle(error)]: the sink records the error. *)
Definition errorHandle (e : TErrorDetail) (s : SharedSingleton) : SharedSingleton :=
  mkShared (_events s) (_namespaces s) (_cache s) (_errorKeys s) (_defaultLocale s)
    (_isSupportedLocale s) (_locale s) (_nextListener s) (_errors s ++ [e]) (_published s).

(** An [emit] on the emitter of a scope. *)
Definition publish (e : TEvent) (s : SharedSingleton) : SharedSingleton :=
  mkShared (_events s) (_namespaces s) (_cache s) (_errorKeys s) (_defaultLocale s)
    (_isSupportedLocale s) (_locale s) (_nextListener s) (_errors s) (_published s ++ [e]).

(** [this._namespaces.get(ns)?.registry] *)
Definition getRegistry (s : SharedSingleton) (ns : string) : option I18nRegistry :=
  match _namespaces s !! ns with
  | Some e => registry e
  | None => None
  end.

(** The registry object of namespace [ns] after a mutation of its fields. *)
Definition putRegistry (ns : string) (r : I18nRegistry) (s : SharedSingleton)
  : SharedSingleton :=
  match _namespaces s !! ns with
  | Some e => with_namespaces (<[ns := mkNamespace (Some r) (i18n e)]> (_namespaces s)) s
  | None => s
  end.

(** *** SharedSingleton.changeLocale *)
Definition changeLocale (s : SharedSingleton) (locale : string) : SharedSingleton * string :=
  if negb (_isSupportedLocale s locale) then
    let s := errorHandle (errorMessages.UnregisteredLocaleError locale) s in
    (s, _locale s)
  else if negb (bool_decide (_locale s = locale)) then
    let s := with_cache ∅ (with_locale locale s) in
    let s := publish (EvLocale (_locale s)) s in
    (s, _locale s)
  else (s, _locale s).

(** *** Emitter.emit, EventEmitter.emitKey, SharedSingleton.changeKey

    [call listener value] runs the body of a listener.  [changeKey] and
    the listeners call each other, and nothing but the call stack bounds
    the nesting: [fuel] is the number of nested calls of [changeKey] the
    stack has room for, and [None] is the RangeError of a call that finds
    no room, raised as the call is entered, before it changes anything.
    [Emitter.emit] calls every listener inside [try { } catch], reports
    what it catches to the console and goes on with the next listener
    (the report is taken not to fail), so that a notification that is
    entered always returns. *)
Fixpoint Emitter_emit
    (call : TListenerKey -> string -> SharedSingleton -> option SharedSingleton)
    (listeners : list TListenerKey) (value : string) (s : SharedSingleton)
  : SharedSingleton :=
  match listeners with
  | [] => s
  | listener :: rest =>
      match call listener value s with
      | Some s' => Emitter_emit call rest value s'
      | None => Emitter_emit call rest value s
      end
  end.

Fixpoint emitKey_scopes
    (call : TListenerKey -> string -> SharedSingleton -> option SharedSingleton)
    (affectedNamespaces : list (string * string)) (s : SharedSingleton)
  : SharedSingleton :=
  match affectedNamespaces with
  | [] => s
  | (ns, localKey) :: rest =>
      let listeners := default [] (_events s !! ns) in
      emitKey_scopes call rest
        (Emitter_emit call listeners localKey (publish (EvKey (Some ns) localKey) s))
  end.

Definition emitKey
    (call : TListenerKey -> string -> SharedSingleton -> option SharedSingleton)
    (namespace : option string) (key : string) (s : SharedSingleton)
  : SharedSingleton :=
  let fullKey := concatNamespaceWithKey namespace key in
  let affectedNamespaces := splitKeyByNamespace fullKey in
  emitKey_scopes call affectedNamespaces (publish (EvKey None fullKey) s).

Fixpoint changeKey (fuel : nat) (namespace key : string) (s : SharedSingleton)
  : option SharedSingleton :=
  match fuel with
  | 0 => None
  | S fuel' =>
      let call (l : TListenerKey) (value : string) (s : SharedSingleton) :=
        if decide (value = lsPartKey l)
        then changeKey fuel' (lsNamespace l) (lsKey l) s
        else Some s in
      let s := with_errorKeys
                 (_errorKeys s ∖ {[concatNamespaceWithKey (Some namespace) key]}) s in
      Some (emitKey call (Some namespace) key s)
  end.

(** *** I18nRegistry[privateI18nRegistryGetKeyIfIntersection] *)
Definition getKeyIfIntersection (this : I18nRegistry) (localKey : string) : option string :=
  List.find (fun key => bool_decide (localKey ∈ splitKeyIntoParts key))
            (JsMap.keys (_keyValue this)).

(** *** SharedSingleton.register

    The loop over [name2Key]; the result is the registry and key of the
    first intersection. *)
Fixpoint register_scan (s : SharedSingleton) (name2Key : list (string * string))
  : option (string * string) :=
  match name2Key with
  | [] => None
  | (ns, localKey) :: rest =>
      match getRegistry s ns with
      | None => register_scan s rest
      | Some registry =>
          match getKeyIfIntersection registry localKey with
          | Some key => if isNonemptyString key then Some (ns, key) else register_scan s rest
          | None => register_scan s rest
          end
      end
  end.

(** The result is the namespace of the registry, [None] for [null]. *)
Definition register (s : SharedSingleton) (fullNamespace : string)
  : SharedSingleton * option string :=
  let ns := _namespaces s !! fullNamespace in
  match ns ≫= registry with
  | Some _ => (s, Some fullNamespace)
  | None =>
      if negb (testNamespacePath fullNamespace) then
        (errorHandle (errorMessages.NamespaceError (Some fullNamespace)) s, None)
      else
        match register_scan s (splitKeyByNamespace fullNamespace) with
        | Some (otherNamespace, key) =>
            (errorHandle
               (errorMessages.IntersectionNsError fullNamespace otherNamespace key) s, None)
        | None =>
            let s := with_errorKeys (_errorKeys s ∖ {[fullNamespace]}) s in
            let registry := mkRegistry [] ∅ in
            let entry := match ns with
                         | Some e => mkNamespace (Some registry) (i18n e)
                         | None => mkNamespace (Some registry) false
                         end in
            (with_namespaces (<[fullNamespace := entry]> (_namespaces s)) s,
             Some fullNamespace)
        end
  end.

(** *** SharedSingleton.checkFullKey *)
Definition checkFullKey (namespace : option string) (key : string) (remove : bool)
    (s : SharedSingleton) : SharedSingleton * bool :=
  let fullKey := concatNamespaceWithKey namespace key in
  match getRegistry s fullKey with
  | Some _ => (errorHandle (errorMessages.IntersectionError namespace key fullKey) s, false)
  | None =>
      if remove then
        (with_errorKeys (_errorKeys s ∖ {[fullKey]})
           (with_cache (delete fullKey (_cache s)) s), true)
      else (s, true)
  end.

(** *** I18nRegistry[privateI18nRegistryGetValue]

    [a ?? b] on values that are never nullish. *)
Definition coalesce {A : Type} (a b : option A) : option A :=
  match a with
  | Some x => Some x
  | None => b
  end.

(** [found.t.get(locale) ??
     (locale !== defaultLocale ? found.t.get(defaultLocale) : null) ??
     found.t.values().next().value] *)
Definition selectValue (t : list (string * TValue)) (locale defaultLocale : string)
  : option TValue :=
  coalesce
    (coalesce (JsMap.get locale t)
              (if negb (bool_decide (locale = defaultLocale))
               then JsMap.get defaultLocale t else None))
    (head (JsMap.values t)).

(** The result of a search: the state (its error log may have grown), the
    visit context and the value found, if any. *)
Definition TSearch : Type := SharedSingleton * TVisitedI18n * option TFound.

(** [rec] is [SharedSingleton.findValue]; [this] is the registry of
    namespace [thisNs]. *)
Definition I18nRegistry_getValue
    (rec : SharedSingleton -> string -> string -> TVisitedI18n -> option TSearch)
    (s : SharedSingleton) (thisNs : string) (this : I18nRegistry)
    (locale localKey : string) (visitedI18n : TVisitedI18n) : option TSearch :=
  match JsMap.get localKey (_keyValue this) with
  | Some (Direct t) =>
      match selectValue t locale (_defaultLocale s) with
      | Some value =>
          if truthy value then Some (s, visitedI18n, Some (value, thisNs))
          else Some (s, visitedI18n, None)
      | None => Some (s, visitedI18n, None)
      end
  | Some (Borrow k) => rec s locale k visitedI18n
  | None => Some (s, visitedI18n, None)
  end.

(** *** SharedSingleton.findValue

    The bookkeeping of [visitedI18n.visited] for one candidate: [None]
    when [localKey] was already visited in this registry, else the context
    with [localKey] recorded. *)
Definition visit (ns localKey : string) (visitedI18n : TVisitedI18n)
  : option TVisitedI18n :=
  match visited visitedI18n !! ns with
  | None =>
      Some (mkVisited (ctxNamespace visitedI18n) (ctxKey visitedI18n)
              (<[ns := [localKey]]> (visited visitedI18n)) (error visitedI18n))
  | Some keys =>
      if bool_decide (localKey ∈ keys) then None
      else Some (mkVisited (ctxNamespace visitedI18n) (ctxKey visitedI18n)
                   (<[ns := keys ++ [localKey]]> (visited visitedI18n))
                   (error visitedI18n))
  end.

Definition set_error (visitedI18n : TVisitedI18n) : TVisitedI18n :=
  mkVisited (ctxNamespace visitedI18n) (ctxKey visitedI18n) (visited visitedI18n) true.

(** The loop [for (const [ns, localKey] of name2Key)]; [getValue] is the
    call [registry[privateI18nRegistryGetValue](locale, localKey, visitedI18n)]. *)
Fixpoint findValue_loop
    (getValue : SharedSingleton -> string -> I18nRegistry -> string -> TVisitedI18n
                -> option TSearch)
    (name2Key : list (string * string)) (s : SharedSingleton)
    (visitedI18n : TVisitedI18n) : option TSearch :=
  match name2Key with
  | [] => Some (s, visitedI18n, None)
  | (ns, localKey) :: rest =>
      match getRegistry s ns with
      | None => findValue_loop getValue rest s visitedI18n
      | Some registry =>
          match visit ns localKey visitedI18n with
          | None =>
              let visitedI18n := set_error visitedI18n in
              let s := errorHandle
                         (errorMessages.CircularDependencyError
                            (ctxNamespace visitedI18n) (ctxKey visitedI18n) ns localKey) s in
              findValue_loop getValue rest s visitedI18n
          | Some visitedI18n =>
              match getValue s ns registry localKey visitedI18n with
              | None => None
              | Some (s, visitedI18n, Some value) => Some (s, visitedI18n, Some value)
              | Some (s, visitedI18n, None) => findValue_loop getValue rest s visitedI18n
              end
          end
      end
  end.

(** [fuel] bounds the nesting of [findValue] through borrowed keys; [None]
    is a search that does not end within it. *)
Fixpoint findValue_fuel (fuel : nat) (s : SharedSingleton) (locale fullKey : string)
    (visitedI18n : TVisitedI18n) : option TSearch :=
  match fuel with
  | 0 => None
  | S fuel' =>
      findValue_loop
        (fun s ns registry localKey visitedI18n =>
           I18nRegistry_getValue (findValue_fuel fuel') s ns registry locale localKey
             visitedI18n)
        (splitKeyByNamespace fullKey) s visitedI18n
  end.

(** The borrowed keys of the whole tree, as (registry, local key) pairs. *)
Definition borrowedKeys (this : I18nRegistry) : list string :=
  omap (fun kv => match snd kv with
                  | Borrow _ => Some (fst kv)
                  | Direct _ => None
                  end) (_keyValue this).

Definition borrowedPairs (s : SharedSingleton) : list (string * string) :=
  map_to_list (_namespaces s) ≫=
    (fun e => match registry (snd e) with
              | Some r => pair (fst e) <$> borrowedKeys r
              | None => []
              end).

(** [findValue] as a total function: the nesting of [findValue] never
    exceeds the number of borrowed keys (lemma [findValue_fuel_enough]),
    so the last case is never taken. *)
Definition findValue (s : SharedSingleton) (locale fullKey : string)
    (visitedI18n : TVisitedI18n) : TSearch :=
  match findValue_fuel (S (length (borrowedPairs s))) s locale fullKey visitedI18n with
  | Some r => r
  | None => (s, visitedI18n, None)
  end.

(** *** SharedSingleton._handleKey, SharedSingleton.getValue *)
Definition _handleKey (s : SharedSingleton) (fullKey : string)
    (namespace : option string) (key : string) : SharedSingleton * TValue :=
  if bool_decide (fullKey ∈ _errorKeys s) then (s, getDefaultValue)
  else
    let ctx := mkVisited namespace key ∅ false in
    let '(s, ctx, value) := findValue s (_locale s) fullKey ctx in
    match value with
    | Some (v, _) => (with_cache (<[fullKey := v]> (_cache s)) s, v)
    | None =>
        let s := if negb (error ctx)
                 then errorHandle (errorMessages.UnregisteredKeyError namespace key) s
                 else s in
        (with_errorKeys ({[fullKey]} ∪ _errorKeys s) s, getDefaultValue)
    end.

Definition getValue (s : SharedSingleton) (namespace : option string) (key : string)
  : SharedSingleton * TValue :=
  let fullKey := concatNamespaceWithKey namespace key in
  match _cache s !! fullKey with
  | Some v => (s, v)
  | None => _handleKey s fullKey namespace key
  end.

(** *** I18nRegistry._setValue

    [this] is the namespace of the receiving registry.  The result is
    [None] when there is no such registry, or when the stack has no room
    for the call of [changeKey] at all ([fuel = 0]), whose RangeError
    then reaches the caller. *)
Definition _setValue (fuel : nat) (s : SharedSingleton) (this : string)
    (key : string) (value : TValue) (locale : string) : option (SharedSingleton * bool) :=
  match getRegistry s this with
  | None => None
  | Some reg =>
      if negb (testNamespacePath key) then
        Some (errorHandle (errorMessages.KeyError (Some this) key) s, false)
      else
        let '(s, ok) := checkFullKey (Some this) key true s in
        if negb ok then Some (s, false)
        else
          let keyValue :=
            match JsMap.get key (_keyValue reg) with
            | Some (Direct t) =>
                JsMap.set key (Direct (JsMap.set locale value t)) (_keyValue reg)
            | _ => JsMap.set key (Direct [(locale, value)]) (_keyValue reg)
            end in
          let '(events, externalListeners) :=
            match _externalListeners reg !! key with
            | Some listener =>
                (offKey (ns listener) (ls listener) (_events s),
                 delete key (_externalListeners reg))
            | None => (_events s, _externalListeners reg)
            end in
          let s := with_events events
                     (putRegistry this (mkRegistry keyValue externalListeners) s) in
          match changeKey fuel this key s with
          | Some s => Some (s, true)
          | None => None
          end
  end.

(** *** I18nRegistry._setExternalKey *)
Definition _setExternalKey (fuel : nat) (s : SharedSingleton) (this : string)
    (key externalFullKey ns partKey : string) : option SharedSingleton :=
  match getRegistry s this with
  | None => None
  | Some reg =>
      let keyValue := JsMap.set key (Borrow externalFullKey) (_keyValue reg) in
      let events :=
        match _externalListeners reg !! key with
        | Some listener => offKey (Base.ns listener) (ls listener) (_events s)
        | None => _events s
        end in
      let ls := mkListener (_nextListener s) this key partKey in
      let externalListeners := <[key := mkExternal ls ns]> (_externalListeners reg) in
      let events := onKey ns ls events in
      let s := with_nextListener (S (_nextListener s))
                 (with_events events
                    (putRegistry this (mkRegistry keyValue externalListeners) s)) in
      changeKey fuel this key s
  end.

(** *** I18nRegistry.use *)
Definition use (fuel : nat) (s : SharedSingleton) (this : string)
    (key externalFullKey : string) : option (SharedSingleton * bool) :=
  match getRegistry s this with
  | None => None
  | Some reg =>
      let keyError := errorMessages.KeyError None externalFullKey in
      if match JsMap.get key (_keyValue reg) with
         | Some (Borrow k) => bool_decide (k = externalFullKey)
         | _ => false
         end
      then Some (s, true)
      else if negb (testNamespacePath key) then
        Some (errorHandle (errorMessages.KeyError (Some this) key) s, false)
      else if negb (testNamespacePath externalFullKey) then
        Some (errorHandle keyError s, false)
      else
        match indexOfDot externalFullKey with
        | None => Some (errorHandle keyError s, false)
        | Some index =>
            if Nat.ltb index 1 then Some (errorHandle keyError s, false)
            else
              let ns := sliceTo index externalFullKey in
              let partKey := sliceFrom (index + 1) externalFullKey in
              if negb (isNonemptyString ns) || negb (isNonemptyString partKey) then
                Some (errorHandle keyError s, false)
              else if bool_decide (concatNamespaceWithKey (Some this) key = externalFullKey)
              then
                Some (errorHandle
                        (errorMessages.CircularDependencyError None externalFullKey this key)
                        s, false)
              else
                let ctx := mkVisited None key {[this := [key]]} false in
                let '(s, ctx, _) := findValue s (_locale s) externalFullKey ctx in
                if error ctx then Some (s, false)
                else
                  let '(s, ok) := checkFullKey None externalFullKey false s in
                  if negb ok then Some (s, false)
                  else
                    let '(s, ok) := checkFullKey (Some this) key true s in
                    if negb ok then Some (s, false)
                    else
                      match _setExternalKey fuel s this key externalFullKey ns partKey with
                      | Some s => Some (s, true)
                      | None => None
                      end
        end
  end.

(** *** I18nRegistry.hasKey, SharedSingleton.hasFullKey *)
Definition hasKey (this : I18nRegistry) (localKey : string) : bool :=
  JsMap.has localKey (_keyValue this).

Definition hasFullKey (s : SharedSingleton) (fullKey : string) : bool :=
  existsb (fun p => match getRegistry s (fst p) with
                    | Some registry => hasKey registry (snd p)
                    | None => false
                    end)
          (splitKeyByNamespace fullKey).

End Base.

Arguments TKeyEntry : clear implicits.
Arguments I18nRegistry : clear implicits.
Arguments TNamespace : clear implicits.
Arguments SharedSingleton : clear implicits.
Arguments TFound : clear implicits.
Arguments TSearch : clear implicits.
Arguments create : clear implicits.

End Base.

(** ** impl.ts

    The string-valued instantiation: [TValue = string], a stored string is
    truthy when it is not empty, and the default is the string given at
    construction (['__DEV_ERROR__'] in the tests of the library). *)
Module Impl.

#[global] Instance stringOps : TValueOps string := {|
  truthy := isNonemptyString;
  getDefaultValue := "__DEV_ERROR__"
|}.

(** [I18n.createInstance({ locale, defaultLocale, locales, ... })] *)
Definition createInstance (locale : string) (defaultLocale : option string)
    (locales : option (list string)) : Base.SharedSingleton string :=
  Base.create string (parseOptions locale defaultLocale locales).

(** [registry.set(key, value, locale)] *)
Definition set (fuel : nat) (s : Base.SharedSingleton string) (this key value locale : string)
  : option (Base.SharedSingleton string * bool) :=
  Base._setValue fuel s this key value locale.

End Impl.

(** ** ex.ts, the class [ExTokensRecord]

    [_segments] is a JS array written by index; an index at the end of
    the array extends it, and an index beyond the end leaves holes, which
    [join] reads as empty strings.  [variables] is the property read
    [variables[name]], with [None] for [null] and [undefined]. *)
Module Ex.

(** An item given to the constructor: [string | TStrToken]. *)
Inductive TItem : Type :=
  | ItemString (text : string)
  | ItemToken (token : TStrToken).

Record TPosition : Type := mkPosition { name : string; index : nat }.

Record ExTokensRecord : Type := mkTokens {
  _segments : list string;
  _positions : list TPosition
}.

(** [array[i] = x] *)
Definition assign (i : nat) (x : string) (array : list string) : list string :=
  if Nat.ltb i (length array) then <[i := x]> array
  else array ++ replicate (i - length array) EmptyString ++ [x].

(** The body of the constructor's loop at index [i]. *)
Definition constructItem (i : nat) (item : TItem) (this : ExTokensRecord)
  : ExTokensRecord :=
  match item with
  | ItemString text => mkTokens (assign i text (_segments this)) (_positions this)
  | ItemToken token =>
      match kind token with
      | str => mkTokens (assign i (value token) (_segments this)) (_positions this)
      | ph =>
          mkTokens (assign i EmptyString (_segments this))
            (_positions this ++ [mkPosition (value token) i])
      end
  end.

(** The loop [for (let i = 0; i < tokens.length; ++i)] from index [i]. *)
Fixpoint construct (i : nat) (tokens : list TItem) (this : ExTokensRecord)
  : ExTokensRecord :=
  match tokens with
  | [] => this
  | item :: rest => construct (S i) rest (constructItem i item this)
  end.

(** [new ExTokensRecord(tokens)] *)
Definition new (tokens : list TItem) : ExTokensRecord :=
  construct 0 tokens (mkTokens [] []).

(** [array.join('')] *)
Fixpoint joinAll (array : list string) : string :=
  match array with
  | [] => EmptyString
  | x :: rest => x +:+ joinAll rest
  end.

(** [get(variables)]: the string returned and the record with its
    segments overwritten. *)
Definition get (variables : string -> option string) (this : ExTokensRecord)
  : string * ExTokensRecord :=
  let segments :=
    foldl (fun segments item =>
             assign (index item) (default (name item) (variables (name item))) segments)
          (_segments this) (_positions this) in
  (joinAll segments, mkTokens segments (_positions this)).

(** [new ExTokensRecord(templateToTokens(template))], as in [setTemplate]. *)
Definition ofTemplate (template : string) : ExTokensRecord :=
  new (ItemToken <$> Utils.templateToTokens template).

End Ex.

(** ** Vocabulary of the proofs *)
Module Spec.
Import Base.

(** The string of the given UTF-8 bytes. *)
Definition bytes (l : list nat) : string := string_of_list_ascii (map ascii_of_nat l).

(** No character of the string is a brace. *)
Fixpoint braceFree (s : string) : bool :=
  match s with
  | String c r => negb (isBrace c) && braceFree r
  | EmptyString => true
  end.

(** The shape of a token list: text tokens and placeholders alternate,
    the list starts and ends with a text token, and a placeholder's name
    is non-empty, trimmed and free of braces. *)
Inductive tokenized : list TStrToken -> Prop :=
  | tokenized_last text : tokenized [mkToken str text]
  | tokenized_ph text name rest :
      isNonemptyString name = true -> braceFree name = true -> trim name = name ->
      tokenized rest ->
      tokenized (mkToken str text :: mkToken ph name :: rest).

(** [text] put in front of the first token. *)
Definition prepend (text : string) (tokens : list TStrToken) : list TStrToken :=
  match tokens with
  | t :: rest => mkToken (kind t) (text +:+ value t) :: rest
  | [] => []
  end.

(** What an item contributes to the result of [get]: its text, or the
    variable of its name, or the name when there is no such variable. *)
Definition render (variables : string -> option string) (item : Ex.TItem) : string :=
  match item with
  | Ex.ItemString text => text
  | Ex.ItemToken token =>
      match kind token with
      | str => value token
      | ph => default (value token) (variables (value token))
      end
  end.

(** The placeholder name of an item, if it is a placeholder. *)
Definition placeholder (item : Ex.TItem) : option string :=
  match item with
  | Ex.ItemToken token => match kind token with ph => Some (value token) | str => None end
  | Ex.ItemString _ => None
  end.

(** The positions that the constructor records for the items from index [i]. *)
Fixpoint positionsFrom (i : nat) (tokens : list Ex.TItem) : list Ex.TPosition :=
  match tokens with
  | [] => []
  | item :: rest =>
      match placeholder item with
      | Some name => Ex.mkPosition name i :: positionsFrom (S i) rest
      | None => positionsFrom (S i) rest
      end
  end.

Section Spec.
Context {TValue : Type} `{Ops : TValueOps TValue}.

(** The state [s] after the error sink received [errs] more errors. *)
Definition addErrors (errs : list TErrorDetail) (s : SharedSingleton TValue)
  : SharedSingleton TValue :=
  mkShared (_events s) (_namespaces s) (_cache s) (_errorKeys s) (_defaultLocale s)
    (_isSupportedLocale s) (_locale s) (_nextListener s) (_errors s ++ errs) (_published s).

(** [visitedI18n.visited.get(registry)?.includes(localKey)] *)
Definition isVisited (visitedI18n : TVisitedI18n) (p : string * string) : bool :=
  match visited visitedI18n !! fst p with
  | Some keys => bool_decide (snd p ∈ keys)
  | None => false
  end.

(** The number of borrowed (registry, key) pairs not yet visited: the
    measure that decreases at every nested call of [findValue]. *)
Definition unvisited (s : SharedSingleton TValue) (visitedI18n : TVisitedI18n) : nat :=
  length (List.filter (fun p => negb (isVisited visitedI18n p)) (borrowedPairs s)).

(** The visit context only grows. *)
Definition grows (c c' : TVisitedI18n) : Prop :=
  forall p, isVisited c p = true -> isVisited c' p = true.

(** The call [registry[privateI18nRegistryGetValue](locale, localKey, visitedI18n)]
    made by [findValue] at nesting depth [fuel]. *)
Definition candidateValue (fuel : nat) (locale : string)
  : SharedSingleton TValue -> string -> I18nRegistry TValue -> string -> TVisitedI18n
    -> option (TSearch TValue) :=
  fun s ns registry localKey visitedI18n =>
    I18nRegistry_getValue (findValue_fuel fuel) s ns registry locale localKey visitedI18n.

(** What a search leaves behind: more errors in the sink, all of them
    circular-dependency reports, a visit context that has grown, and the
    error flag raised exactly when an error was reported. *)
Definition searched (s : SharedSingleton TValue) (c : TVisitedI18n)
    (r : TSearch TValue) : Prop :=
  exists errs,
    fst (fst r) = addErrors errs s
    /\ grows c (snd (fst r))
    /\ ((errs = [] /\ error (snd (fst r)) = error c)
        \/ (errs <> [] /\ error (snd (fst r)) = true))
    /\ Forall (fun e => code e = errorCodes.CircularDependencyError) errs.

(** [s'] differs from [s] at most in the set of unresolved keys and in
    the log of notifications. *)
Definition notifiedOnly (s s' : SharedSingleton TValue) : Prop :=
  _events s' = _events s /\ _namespaces s' = _namespaces s /\ _cache s' = _cache s
  /\ _defaultLocale s' = _defaultLocale s /\ _isSupportedLocale s' = _isSupportedLocale s
  /\ _locale s' = _locale s /\ _nextListener s' = _nextListener s
  /\ _errors s' = _errors s.

(** Everything of the resolver except the error sink is the same in [s']
    as in [s]: the namespace tree with every registry's key table and
    borrow subscriptions, the emitters, the cache, the unresolved keys,
    the locales and the notifications published so far. *)
Definition sameResolverState (s s' : SharedSingleton TValue) : Prop :=
  _namespaces s' = _namespaces s /\ _events s' = _events s /\ _cache s' = _cache s
  /\ _errorKeys s' = _errorKeys s /\ _locale s' = _locale s
  /\ _defaultLocale s' = _defaultLocale s /\ _isSupportedLocale s' = _isSupportedLocale s
  /\ _nextListener s' = _nextListener s /\ _published s' = _published s.

(** [s'] has no unresolved key that [s] does not have, and the
    notifications published in [s'] extend those of [s]. *)
Definition unmarks (s s' : SharedSingleton TValue) : Prop :=
  _errorKeys s' ⊆ _errorKeys s /\ exists evs, _published s' = _published s ++ evs.

(** A notification settles when no listener is cut short by the end of
    the stack: [settled fuel namespace key s] is the state that
    [changeKey] leaves when it, and every notification it triggers, nests
    no deeper than [fuel], and [None] when some chain of listeners is
    longer than that. *)
Fixpoint settleListeners
    (call : TListenerKey -> string -> SharedSingleton TValue
            -> option (SharedSingleton TValue))
    (listeners : list TListenerKey) (value : string) (s : SharedSingleton TValue)
  : option (SharedSingleton TValue) :=
  match listeners with
  | [] => Some s
  | listener :: rest =>
      match call listener value s with
      | Some s' => settleListeners call rest value s'
      | None => None
      end
  end.

Fixpoint settleScopes
    (call : TListenerKey -> string -> SharedSingleton TValue
            -> option (SharedSingleton TValue))
    (affectedNamespaces : list (string * string)) (s : SharedSingleton TValue)
  : option (SharedSingleton TValue) :=
  match affectedNamespaces with
  | [] => Some s
  | (ns, localKey) :: rest =>
      match settleListeners call (default [] (_events s !! ns)) localKey
              (publish (EvKey (Some ns) localKey) s) with
      | Some s' => settleScopes call rest s'
      | None => None
      end
  end.

Fixpoint settled (fuel : nat) (namespace key : string) (s : SharedSingleton TValue)
  : option (SharedSingleton TValue) :=
  match fuel with
  | 0 => None
  | S fuel' =>
      let call (l : TListenerKey) (value : string) (s : SharedSingleton TValue) :=
        if decide (value = lsPartKey l)
        then settled fuel' (lsNamespace l) (lsKey l) s
        else Some s in
      let fullKey := concatNamespaceWithKey (Some namespace) key in
      settleScopes call (splitKeyByNamespace fullKey)
        (publish (EvKey None fullKey)
           (with_errorKeys (_errorKeys s ∖ {[fullKey]}) s))
  end.

(** The value of a search result is truthy and is stored, under some
    locale, in a direct entry of the registry the result names. *)
Definition stored (s : SharedSingleton TValue) (found : TFound TValue) : Prop :=
  truthy (fst found) = true
  /\ exists reg k t l,
       getRegistry s (snd found) = Some reg
       /\ JsMap.get k (_keyValue reg) = Some (Direct t)
       /\ (l, fst found) ∈ t.

(** What the operations maintain besides the shape of the namespace tree:
    cached values are truthy, no cached key is marked unresolved, and no
    direct entry is an empty map of locales. *)
Definition coherent (s : SharedSingleton TValue) : Prop :=
  (forall k v, _cache s !! k = Some v -> truthy v = true /\ k ∉ _errorKeys s)
  /\ (forall n reg k t,
        getRegistry s n = Some reg -> JsMap.get k (_keyValue reg) = Some (Direct t) ->
        t <> []).

(** The bookkeeping of borrow subscriptions, over the registries [regs],
    the emitters [ev] and the next listener identity [next]: an entry of
    [_externalListeners] belongs to a borrowed key, names the top
    namespace and the remaining part of the borrowed full key, and its
    listener is subscribed on that namespace; every borrowed key has such
    an entry; every subscribed listener is the one recorded for its key,
    with an identity below [next]; and no emitter holds an identity
    twice. *)
Definition subscribedAt (regs : string -> option (I18nRegistry TValue))
    (ev : gmap string Emitter) (next : nat) : Prop :=
  (forall n reg k x,
      regs n = Some reg -> _externalListeners reg !! k = Some x ->
      lsNamespace (ls x) = n /\ lsKey (ls x) = k
      /\ JsMap.get k (_keyValue reg)
         = Some (Borrow (ns x +:+ dotS +:+ lsPartKey (ls x)))
      /\ ls x ∈ default [] (ev !! ns x))
  /\ (forall n reg k e,
        regs n = Some reg -> JsMap.get k (_keyValue reg) = Some (Borrow e) ->
        is_Some (_externalListeners reg !! k))
  /\ (forall nsT l,
        l ∈ default [] (ev !! nsT) ->
        lid l < next
        /\ exists reg, regs (lsNamespace l) = Some reg
                       /\ _externalListeners reg !! lsKey l = Some (mkExternal l nsT))
  /\ (forall nsT, NoDup (lid <$> default [] (ev !! nsT))).

Definition subscribed (s : SharedSingleton TValue) : Prop :=
  subscribedAt (getRegistry s) (_events s) (_nextListener s).

(** The invariants I1 / I2 of the namespace tree: registered namespaces
    and stored keys are well-formed paths, and no key of a registry has
    the full path of a registered namespace. *)
Definition wellFormed (s : SharedSingleton TValue) : Prop :=
  (forall n reg, getRegistry s n = Some reg -> testNamespacePath n = true)
  /\ (forall n reg k e,
        getRegistry s n = Some reg -> JsMap.get k (_keyValue reg) = Some e ->
        testNamespacePath k = true /\ getRegistry s (n +:+ dotS +:+ k) = None).

(** The states that the public operations produce from a fresh instance,
    whatever room the stack has for the notifications of [set] and
    [use]: with room for one notification or more these calls return,
    also when the notifications they start never settle. *)
Inductive reachable : SharedSingleton TValue -> Prop :=
  | reach_create config : reachable (create TValue config)
  | reach_register s fullNamespace :
      reachable s -> reachable (fst (register s fullNamespace))
  | reach_changeLocale s locale :
      reachable s -> reachable (fst (changeLocale s locale))
  | reach_getValue s namespace key :
      reachable s -> reachable (fst (getValue s namespace key))
  | reach_setValue fuel s this key value locale s' ok :
      reachable s -> _setValue fuel s this key value locale = Some (s', ok) ->
      reachable s'
  | reach_use fuel s this key externalFullKey s' ok :
      reachable s -> use fuel s this key externalFullKey = Some (s', ok) ->
      reachable s'.

End Spec.
End Spec.


(** ** States used as examples *)
Module Scenarios.
Import Base.

(** The fallible calls of a scenario in sequence; the flags are dropped. *)
Definition andThen (r : option (SharedSingleton string * bool))
    (f : SharedSingleton string -> option (SharedSingleton string * bool))
  : option (SharedSingleton string * bool) :=
  match r with
  | Some (s, _) => f s
  | None => None
  end.

Definition result (r : option (SharedSingleton string * bool)) (s0 : SharedSingleton string)
  : SharedSingleton string :=
  match r with
  | Some (s, _) => s
  | None => s0
  end.

(** [I18n.createInstance({ locale: 'ru_ru' })]: every locale is accepted
    and the default locale is ['ru_ru']. *)
Definition root : SharedSingleton string :=
  Impl.createInstance "ru_ru" None None.

(** [register('ns1'); register('ns2'); register('ns3')] *)
Definition threeNamespaces : SharedSingleton string :=
  fst (register (fst (register (fst (register root "ns1")) "ns2")) "ns3").

(** Two registries that borrow from each other, as a state written down
    directly: [a.x -> b.y] and [b.y -> a.x]. *)
Definition cyclic : SharedSingleton string :=
  with_namespaces
    (<["a" := mkNamespace (Some (mkRegistry [("x", Borrow "b.y")] ∅)) false]>
       (<["b" := mkNamespace (Some (mkRegistry [("y", Borrow "a.x")] ∅)) false]> ∅))
    root.

(** [register('a'); register('a.b'); a.set('b.c', 'X', 'ru_ru');
     a.b.set('c', 'Y', 'ru_ru')]: the full key [a.b.c] has a value in both
    registries. *)
Definition shadowed : SharedSingleton string :=
  let s := fst (register (fst (register root "a")) "a.b") in
  result (andThen (Impl.set 1 s "a" "b.c" "X" "ru_ru")
          (fun s => Impl.set 1 s "a.b" "c" "Y" "ru_ru")) s.

(** [register('a.b'); a.b.set('c', 'C', 'ru_ru')]. *)
Definition owning : SharedSingleton string :=
  let s := fst (register root "a.b") in
  result (Impl.set 1 s "a.b" "c" "C" "ru_ru") s.

(** [register('a.b'); register('a.b.c')]. *)
Definition nested : SharedSingleton string :=
  fst (register (fst (register root "a.b")) "a.b.c").

(** [register('ns1'); register('ns2')] *)
Definition twoNamespaces : SharedSingleton string :=
  fst (register (fst (register root "ns1")) "ns2").

(** [register('control'); register('settings');
     control.use('button.back_off', 'settings.autoSave.back_disabled')],
    from the test 'I18n use()'. *)
Definition halfCycle : SharedSingleton string :=
  let s := fst (register (fst (register root "control")) "settings") in
  result (use 1 s "control" "button.back_off" "settings.autoSave.back_disabled") s.

(** [I18n.createInstance({ locale: 'ru_ru', locales: ['en_us'] })], the
    instance of the test 'I18n more examples'. *)
Definition restricted : SharedSingleton string :=
  Impl.createInstance "ru_ru" None (Some ["en_us"]).

(** [createInstance({ locale: 'fr', defaultLocale: 'en' }); register('app');
     app.set('title', 'Hello', 'en'); app.set('title', '', 'fr')]. *)
Definition falsy : SharedSingleton string :=
  let s := fst (register (Impl.createInstance "fr" (Some "en") None) "app") in
  result (andThen (Impl.set 1 s "app" "title" "Hello" "en")
          (fun s => Impl.set 1 s "app" "title" EmptyString "fr")) s.

(** [register('a'); register('a.b'); register('z');
     a.set('b.c', 'X', 'ru_ru'); z.use('k', 'a.b.c')]: the key [z.k]
    borrows [a.b.c], which the registry [a] answers with its key [b.c]. *)
Definition entangled : SharedSingleton string :=
  let s := fst (register (fst (register (fst (register root "a")) "a.b")) "z") in
  result (andThen (Impl.set 1 s "a" "b.c" "X" "ru_ru")
          (fun s => use 1 s "z" "k" "a.b.c")) s.

(** [entangled], and then [a.b.use('c', 'z.k')], which returns true: the
    key [a.b.c] borrows [z.k] and [z.k] borrows [a.b.c].  The stack is
    given room for two nested notifications; with more room only the log
    of notifications is longer. *)
Definition circular : SharedSingleton string :=
  result (use 2 entangled "a.b" "c" "z.k") entangled.

End Scenarios.

(** ** Path rules *)
Section PathRules.

Lemma split_nonempty s : split s <> [].
Proof.
  destruct s as [|c r]; simpl; [done|].
  destruct (Ascii.eqb c dot); [done|]. by destruct (split r).
Qed.

Lemma split_length_pos s : 1 <= length (split s).
Proof. pose proof (split_nonempty s). destruct (split s); simpl; [done|lia]. Qed.

Lemma split_concat a b : split (a +:+ dotS +:+ b) = split a ++ split b.
Proof.
  induction a as [|c a IH]; simpl.
  - done.
  - destruct (Ascii.eqb c dot); [by rewrite IH|].
    rewrite IH. pose proof (split_nonempty a). by destruct (split a).
Qed.

Lemma join_split s : join (split s) = s.
Proof.
  induction s as [|c r IH]; [done|]. simpl.
  destruct (Ascii.eqb c dot) eqn:E.
  - apply Ascii.eqb_eq in E as ->.
    pose proof (split_nonempty r). destruct (split r) as [|h t] eqn:Er; [done|].
    change (join (EmptyString :: h :: t)) with (dotS +:+ join (h :: t)).
    by rewrite IH.
  - pose proof (split_nonempty r). destruct (split r) as [|h t]; [done|].
    destruct t as [|h' t].
    + simpl in *. by rewrite IH.
    + change (join (String c h :: h' :: t)) with (String c (join (h :: h' :: t))).
      by rewrite IH.
Qed.

Lemma collect_length path index :
  length (collectNamespaceKeyPairs path index) = length path - (index + 1).
Proof. unfold collectNamespaceKeyPairs. by rewrite length_map, length_seq. Qed.

Lemma collect_lookup path index i :
  i < length path - (index + 1) ->
  collectNamespaceKeyPairs path index !! i
  = Some (join (take (index + 1 + i) path), join (drop (index + 1 + i) path)).
Proof.
  intros Hi. unfold collectNamespaceKeyPairs.
  change (map ?f ?l) with (f <$> l).
  rewrite list_lookup_fmap, lookup_seq_lt; [done|lia].
Qed.

Lemma splitKeyByNamespace_concat ns k :
  (ns, k) ∈ splitKeyByNamespace (ns +:+ dotS +:+ k).
Proof.
  unfold splitKeyByNamespace. rewrite split_concat.
  apply list_elem_of_lookup. exists (length (split ns) - 1).
  pose proof (split_length_pos ns). pose proof (split_length_pos k).
  rewrite collect_lookup by (rewrite length_app; lia).
  replace (0 + 1 + (length (split ns) - 1)) with (length (split ns)) by lia.
  by rewrite take_app_length, drop_app_length, !join_split.
Qed.

Lemma splitKeyIntoParts_self k : k ∈ splitKeyIntoParts k.
Proof.
  unfold splitKeyIntoParts. pose proof (split_length_pos k).
  apply list_elem_of_lookup. exists (length (split k) - 1).
  change (map ?f ?l) with (f <$> l).
  rewrite list_lookup_fmap, lookup_seq_lt by lia. simpl.
  replace (length (split k) - 1 + 1) with (length (split k)) by lia.
  by rewrite firstn_all, join_split.
Qed.

Lemma splitKeyIntoParts_empty k : k ∈ splitKeyIntoParts EmptyString -> k = EmptyString.
Proof. intros H. apply list_elem_of_singleton in H. done. Qed.

(** A path is accepted exactly when none of its segments is empty. *)
Lemma testNamespacePath_segments s :
  testNamespacePath s = forallb isNonemptyString (split s).
Proof.
  assert (H : testNamespacePath s = forallb isNonemptyString (split s)
              /\ negb (hasDoubleDot s || endsWithDot s)
                 = forallb isNonemptyString (tail (split s))).
  { induction s as [|c r [IH1 IH2]]; [done|].
    unfold testNamespacePath, testNamespacePathError in *.
    pose proof (split_nonempty r) as Hne.
    simpl. destruct (Ascii.eqb c dot) eqn:E; simpl.
    - split; [by rewrite orb_true_r|]. rewrite <- IH1.
      destruct r as [|b r']; [done|]. cbn [isNonemptyString startsWithDot].
      by destruct (Ascii.eqb b dot), (hasDoubleDot (String b r')),
           (endsWithDot (String b r')).
    - destruct (split r) as [|h t] eqn:Er; [done|]. simpl in IH2. simpl.
      rewrite <- IH2. destruct r as [|b r']; [done|].
      split; [by rewrite orb_false_r|done]. }
  apply H.
Qed.

Lemma testNamespacePath_concat a b :
  testNamespacePath (a +:+ dotS +:+ b) = testNamespacePath a && testNamespacePath b.
Proof. by rewrite !testNamespacePath_segments, split_concat, forallb_app. Qed.

Lemma testNamespacePath_nonempty s : testNamespacePath s = true -> isNonemptyString s = true.
Proof. unfold testNamespacePath. by destruct (isNonemptyString s). Qed.

End PathRules.
(** ** Termination of the search *)
Section Termination.
Import Base Spec.
Context {TValue : Type} `{Ops : TValueOps TValue}.
Implicit Types (s : SharedSingleton TValue) (c : TVisitedI18n).

Lemma addErrors_nil s : addErrors [] s = s.
Proof. destruct s; unfold addErrors; simpl. by rewrite app_nil_r. Qed.

Lemma addErrors_app e1 e2 s : addErrors e2 (addErrors e1 s) = addErrors (e1 ++ e2) s.
Proof. unfold addErrors; simpl. by rewrite app_assoc. Qed.

Lemma unvisited_addErrors e s c : unvisited (addErrors e s) c = unvisited s c.
Proof. reflexivity. Qed.

Lemma grows_refl c : grows c c.
Proof. by intros p. Qed.

Lemma grows_trans c1 c2 c3 : grows c1 c2 -> grows c2 c3 -> grows c1 c3.
Proof. intros H1 H2 p Hp. by apply H2, H1. Qed.

Lemma grows_set_error c : grows c (set_error c).
Proof. by intros p. Qed.

Lemma visit_Some n k c c' :
  visit n k c = Some c' ->
  isVisited c (n, k) = false /\ isVisited c' (n, k) = true /\ grows c c'.
Proof.
  unfold visit, isVisited, grows. simpl.
  destruct (visited c !! n) as [keys|] eqn:E.
  - case_bool_decide as Hin; [done|]. intros [= <-]. simpl.
    rewrite lookup_insert_eq. split; [done|]. split.
    + apply bool_decide_eq_true. set_solver.
    + intros [n' k']. unfold isVisited. simpl. destruct (decide (n = n')) as [<-|Hne].
      * rewrite lookup_insert_eq, E. intros Hk%bool_decide_eq_true.
        apply bool_decide_eq_true. set_solver.
      * by rewrite lookup_insert_ne.
  - intros [= <-]. simpl. rewrite lookup_insert_eq. split; [done|]. split.
    + apply bool_decide_eq_true. set_solver.
    + intros [n' k']. unfold isVisited. simpl. destruct (decide (n = n')) as [<-|Hne].
      * by rewrite E.
      * by rewrite lookup_insert_ne.
Qed.

Lemma filter_length_le {A} (f g : A -> bool) (l : list A) :
  (forall x, g x = true -> f x = true) ->
  length (List.filter g l) <= length (List.filter f l).
Proof.
  intros H. induction l as [|x l IH]; simpl; [lia|].
  destruct (g x) eqn:Eg.
  - rewrite (H x Eg). simpl. lia.
  - destruct (f x); simpl; lia.
Qed.

Lemma filter_length_lt {A} (f g : A -> bool) (l : list A) (x0 : A) :
  (forall x, g x = true -> f x = true) ->
  x0 ∈ l -> f x0 = true -> g x0 = false ->
  length (List.filter g l) < length (List.filter f l).
Proof.
  intros H Hin Hf Hg. induction l as [|x l IH]; [by apply elem_of_nil in Hin|].
  apply elem_of_cons in Hin as [<-|Hin]; simpl.
  - rewrite Hf, Hg. simpl. pose proof (filter_length_le f g l H). lia.
  - specialize (IH Hin). destruct (g x) eqn:Eg.
    + rewrite (H x Eg). simpl. lia.
    + destruct (f x); simpl; lia.
Qed.

Lemma unvisited_le s c c' : grows c c' -> unvisited s c' <= unvisited s c.
Proof.
  intros H. apply filter_length_le. intros p Hp.
  destruct (isVisited c p) eqn:E; [|done]. by rewrite (H p E) in Hp.
Qed.

Lemma unvisited_lt s c c' p :
  grows c c' -> p ∈ borrowedPairs s ->
  isVisited c p = false -> isVisited c' p = true ->
  unvisited s c' < unvisited s c.
Proof.
  intros H Hin H0 H1. apply (filter_length_lt _ _ _ p); [|done| |].
  - intros q Hq. destruct (isVisited c q) eqn:E; [|done]. by rewrite (H q E) in Hq.
  - by rewrite H0.
  - by rewrite H1.
Qed.

Lemma unvisited_bound s c : unvisited s c <= length (borrowedPairs s).
Proof.
  unfold unvisited. induction (borrowedPairs s) as [|x l IH]; simpl; [lia|].
  destruct (negb _); simpl; lia.
Qed.

Lemma JsMap_get_elem_of {A} k (m : list (string * A)) v :
  JsMap.get k m = Some v -> (k, v) ∈ m.
Proof.
  induction m as [|[k' v'] m IH]; simpl; [done|].
  case_decide as E.
  - intros [= ->]. subst. apply elem_of_cons. by left.
  - intros H. apply elem_of_cons. right. by apply IH.
Qed.

Lemma borrowedPairs_elem s n reg k e :
  getRegistry s n = Some reg ->
  JsMap.get k (_keyValue reg) = Some (Borrow e) ->
  (n, k) ∈ borrowedPairs s.
Proof.
  unfold getRegistry, borrowedPairs. intros Hr Hk.
  destruct (_namespaces s !! n) as [entry|] eqn:E; [|done].
  apply list_elem_of_bind. exists (n, entry). split.
  - simpl. rewrite Hr. apply list_elem_of_fmap. exists k. split; [done|].
    unfold borrowedKeys. apply list_elem_of_omap.
    exists (k, Borrow e). split; [by apply JsMap_get_elem_of|done].
  - by apply elem_of_map_to_list.
Qed.

Lemma visit_error n k c c' : visit n k c = Some c' -> error c' = error c.
Proof.
  unfold visit. destruct (visited c !! n) as [keys|].
  - case_bool_decide; [done|]. by intros [= <-].
  - by intros [= <-].
Qed.

Lemma searched_here s c c' x : grows c c' -> error c' = error c -> searched s c (s, c', x).
Proof.
  intros Hg He. exists []. simpl. rewrite addErrors_nil. repeat split; auto.
Qed.

Lemma searched_trans s c s1 c1 x r :
  searched s c (s1, c1, x) -> searched s1 c1 r -> searched s c r.
Proof.
  intros (e1 & Hs1 & Hg1 & Hf1 & Hc1) (e2 & Hs2 & Hg2 & Hf2 & Hc2). simpl in *.
  exists (e1 ++ e2). subst s1. rewrite addErrors_app in Hs2.
  split; [done|]. split; [by eapply grows_trans|]. split; [|by apply Forall_app].
  destruct Hf2 as [[-> He2]|[Hne He2]].
  - rewrite app_nil_r, He2. exact Hf1.
  - right. split; [|done]. by destruct e1.
Qed.

Lemma searched_error e s c :
  code e = errorCodes.CircularDependencyError ->
  searched s c (errorHandle e s, set_error c, @None (TFound TValue)).
Proof.
  intros He. exists [e]. simpl. split; [done|]. split; [apply grows_set_error|].
  split; [by right|]. by apply Forall_singleton.
Qed.

Lemma unvisited_searched s c s1 c1 x :
  searched s c (s1, c1, x) -> unvisited s1 c1 <= unvisited s c.
Proof.
  intros (e & Hs & Hg & _). simpl in *. subst s1. rewrite unvisited_addErrors.
  by apply unvisited_le.
Qed.

Lemma findValue_fuel_enough fuel : forall s locale fullKey c,
  unvisited s c < fuel ->
  exists r, findValue_fuel fuel s locale fullKey c = Some r /\ searched s c r.
Proof.
  induction fuel as [|fuel IH]; intros s locale fullKey c Hlt; [lia|].
  simpl. generalize (splitKeyByNamespace fullKey). intros l. revert s c Hlt.
  induction l as [|[n k] l IHl]; intros s c Hlt; simpl.
  { exists (s, c, None). split; [done|]. by apply searched_here; [apply grows_refl|]. }
  destruct (getRegistry s n) as [reg|] eqn:Hreg; [|by apply IHl].
  destruct (visit n k c) as [c1|] eqn:Hv.
  - pose proof (visit_error _ _ _ _ Hv) as He.
    apply visit_Some in Hv as (H0 & H1 & Hg).
    assert (Hhere : forall x, searched s c (s, c1, x)) by (intros; by apply searched_here).
    pose proof (unvisited_searched _ _ _ _ _ (Hhere None)) as Hle.
    assert (Hrest : exists r,
               findValue_loop
                 (fun s ns registry localKey visitedI18n =>
                    I18nRegistry_getValue (findValue_fuel fuel) s ns registry locale
                      localKey visitedI18n) l s c1
               = Some r /\ searched s c r).
    { destruct (IHl s c1) as (r & Heq & Hr); [lia|].
      exists r. split; [done|]. eapply searched_trans; [apply (Hhere None)|done]. }
    unfold I18nRegistry_getValue.
    destruct (JsMap.get k (_keyValue reg)) as [[t|e]|] eqn:Hk; [| |done].
    + destruct (selectValue t locale (_defaultLocale s)) as [v|]; [|done].
      destruct (truthy v); [|done].
      exists (s, c1, Some (v, n)). split; [done|]. apply Hhere.
    + assert (Hlt' : unvisited s c1 < fuel).
      { pose proof (unvisited_lt s c c1 (n, k) Hg
                      (borrowedPairs_elem s n reg k e Hreg Hk) H0 H1). lia. }
      destruct (IH s locale e c1 Hlt') as ([[s2 c2] x] & Heq & Hr). rewrite Heq.
      assert (Hr' : searched s c (s2, c2, x))
        by (eapply searched_trans; [apply (Hhere None)|done]).
      destruct x as [v|]; [by exists (s2, c2, Some v)|].
      destruct (IHl s2 c2) as (r & Heq' & Hr2).
      { pose proof (unvisited_searched _ _ _ _ _ Hr'). lia. }
      exists r. split; [exact Heq'|]. by eapply searched_trans.
  - match goal with |- context [errorHandle ?e s] => set (err := e) end.
    assert (Hr : searched s c (errorHandle err s, set_error c, None))
      by (by apply searched_error).
    destruct (IHl (errorHandle err s) (set_error c)) as (r & Heq' & Hr2).
    { pose proof (unvisited_searched _ _ _ _ _ Hr). lia. }
    exists r. split; [exact Heq'|]. by eapply searched_trans.
Qed.

Lemma findValue_loop_mono
    (g g' : SharedSingleton TValue -> string -> I18nRegistry TValue -> string
            -> TVisitedI18n -> option (TSearch TValue)) :
  (forall s n reg k c r, g s n reg k c = Some r -> g' s n reg k c = Some r) ->
  forall l s c r, findValue_loop g l s c = Some r -> findValue_loop g' l s c = Some r.
Proof.
  intros H l. induction l as [|[n k] l IH]; intros s c r; simpl; [done|].
  destruct (getRegistry s n) as [reg|]; [|apply IH].
  destruct (visit n k c) as [c1|]; [|apply IH].
  destruct (g s n reg k c1) as [[[s1 c2] [v|]]|] eqn:E; [| |done].
  - by rewrite (H _ _ _ _ _ _ E).
  - rewrite (H _ _ _ _ _ _ E). apply IH.
Qed.

Lemma findValue_fuel_mono fuel : forall fuel' s locale fullKey c r,
  fuel <= fuel' ->
  findValue_fuel fuel s locale fullKey c = Some r ->
  findValue_fuel fuel' s locale fullKey c = Some r.
Proof.
  induction fuel as [|fuel IH]; intros fuel' s locale fullKey c r Hle; [done|].
  destruct fuel' as [|fuel']; [lia|]. simpl.
  apply findValue_loop_mono. intros s1 n reg k c1 r1.
  unfold I18nRegistry_getValue.
  destruct (JsMap.get k (_keyValue reg)) as [[t|e]|]; [done| |done].
  apply IH. lia.
Qed.

Lemma findValue_fuel_findValue s locale fullKey c fuel :
  length (borrowedPairs s) < fuel ->
  findValue_fuel fuel s locale fullKey c = Some (findValue s locale fullKey c).
Proof.
  intros Hlt. unfold findValue.
  destruct (findValue_fuel_enough (S (length (borrowedPairs s))) s locale fullKey c)
    as (r & Heq & _).
  { pose proof (unvisited_bound s c). lia. }
  rewrite Heq. eapply findValue_fuel_mono; [|exact Heq]. lia.
Qed.

Lemma findValue_searched s locale fullKey c : searched s c (findValue s locale fullKey c).
Proof.
  unfold findValue.
  destruct (findValue_fuel_enough (S (length (borrowedPairs s))) s locale fullKey c)
    as (r & Heq & Hr).
  { pose proof (unvisited_bound s c). lia. }
  by rewrite Heq.
Qed.

End Termination.

(** ** Frames of the operations *)
Section Frames.
Import Base Spec.
Context {TValue : Type} `{Ops : TValueOps TValue}.
Implicit Types (s : SharedSingleton TValue) (c : TVisitedI18n).

Lemma notifiedOnly_refl s : notifiedOnly s s.
Proof. by repeat split. Qed.

Lemma notifiedOnly_trans s1 s2 s3 :
  notifiedOnly s1 s2 -> notifiedOnly s2 s3 -> notifiedOnly s1 s3.
Proof.
  unfold notifiedOnly. intros (?&?&?&?&?&?&?&?) (?&?&?&?&?&?&?&?).
  repeat split; congruence.
Qed.

Lemma notifiedOnly_publish e s : notifiedOnly s (publish e s).
Proof. by repeat split. Qed.

Lemma notifiedOnly_errorKeys k s : notifiedOnly s (with_errorKeys k s).
Proof. by repeat split. Qed.

Lemma Emitter_emit_frame call listeners value :
  (forall l v s s', call l v s = Some s' -> notifiedOnly s s') ->
  forall s, notifiedOnly s (Emitter_emit call listeners value s).
Proof.
  intros Hcall. induction listeners as [|l ls IH]; intros s; simpl.
  - apply notifiedOnly_refl.
  - destruct (call l value s) as [s1|] eqn:E; [|apply IH].
    eapply notifiedOnly_trans; [by eapply Hcall|apply IH].
Qed.

Lemma emitKey_scopes_frame call affected :
  (forall l v s s', call l v s = Some s' -> notifiedOnly s s') ->
  forall s, notifiedOnly s (emitKey_scopes call affected s).
Proof.
  intros Hcall. induction affected as [|[n k] rest IH]; intros s; simpl.
  - apply notifiedOnly_refl.
  - eapply notifiedOnly_trans; [apply (notifiedOnly_publish (EvKey (Some n) k))|].
    eapply notifiedOnly_trans; [by apply Emitter_emit_frame|apply IH].
Qed.

(** A change notification, with everything it triggers, touches only the
    set of unresolved keys and the log of notifications; in particular
    it never touches the cache. *)
Lemma changeKey_frame fuel : forall namespace key s s',
  changeKey fuel namespace key s = Some s' -> notifiedOnly s s'.
Proof.
  induction fuel as [|fuel IH]; intros namespace key s s'; [done|]. simpl.
  unfold emitKey. intros [= <-].
  eapply notifiedOnly_trans; [apply notifiedOnly_errorKeys|].
  eapply notifiedOnly_trans; [apply notifiedOnly_publish|].
  apply emitKey_scopes_frame.
  intros l v s1 s2. cbv beta. destruct (decide (v = lsPartKey l)); [apply IH|].
  intros [= <-]. apply notifiedOnly_refl.
Qed.

End Frames.

(** ** Failing operations *)
Section Failures.
Import Base Spec.
Context {TValue : Type} `{Ops : TValueOps TValue}.
Implicit Types (s : SharedSingleton TValue) (c : TVisitedI18n).

Lemma sameResolverState_addErrors errs s : sameResolverState s (addErrors errs s).
Proof. by repeat split. Qed.

Lemma register_fails s fullNamespace s' :
  register s fullNamespace = (s', None) ->
  exists e, s' = addErrors [e] s
            /\ (code e = errorCodes.NamespaceError
                \/ code e = errorCodes.IntersectionNsError).
Proof.
  unfold register. destruct (_ ≫= registry); [done|].
  destruct (testNamespacePath fullNamespace); simpl.
  - destruct (register_scan _ _) as [[n k]|]; [|done].
    intros [= <-]. eexists. split; [done|]. by right.
  - intros [= <-]. eexists. split; [done|]. by left.
Qed.

Lemma checkFullKey_fails namespace key remove s s' :
  checkFullKey namespace key remove s = (s', false) ->
  exists e, s' = addErrors [e] s /\ code e = errorCodes.IntersectionError
            /\ is_Some (getRegistry s (concatNamespaceWithKey namespace key)).
Proof.
  unfold checkFullKey. destruct (getRegistry s _) as [r|].
  - intros [= <-]. eexists. by repeat split.
  - by destruct remove.
Qed.

Lemma checkFullKey_passes namespace key remove s s' :
  checkFullKey namespace key remove s = (s', true) ->
  getRegistry s (concatNamespaceWithKey namespace key) = None
  /\ s' = (if remove
           then with_errorKeys (_errorKeys s ∖ {[concatNamespaceWithKey namespace key]})
                  (with_cache (delete (concatNamespaceWithKey namespace key) (_cache s)) s)
           else s).
Proof.
  unfold checkFullKey. destruct (getRegistry s _) as [r|]; [done|].
  destruct remove; by intros [= <-].
Qed.

Lemma setValue_fails fuel s this key value locale s' :
  _setValue fuel s this key value locale = Some (s', false) ->
  exists e, s' = addErrors [e] s
            /\ (code e = errorCodes.KeyError \/ code e = errorCodes.IntersectionError).
Proof.
  unfold _setValue. destruct (getRegistry s this) as [reg|]; [|done].
  destruct (testNamespacePath key); simpl.
  - destruct (checkFullKey (Some this) key true s) as [s1 [|]] eqn:Hc; simpl.
    + destruct (_externalListeners reg !! key); by destruct (changeKey _ _ _ _).
    + apply checkFullKey_fails in Hc as (e & -> & He & _).
      intros [= <-]. exists e. split; [done|]. by right.
  - intros [= <-]. eexists. split; [done|]. by left.
Qed.

Lemma use_fails fuel s this key externalFullKey s' :
  use fuel s this key externalFullKey = Some (s', false) ->
  exists errs, errs <> [] /\ s' = addErrors errs s.
Proof.
  unfold use. destruct (getRegistry s this) as [reg|]; [|done].
  assert (Hone : forall e, Some (errorHandle e s, false) = Some (s', false) ->
                           exists errs, errs <> [] /\ s' = addErrors errs s).
  { intros e [= <-]. by exists [e]. }
  destruct (match JsMap.get key (_keyValue reg) with
            | Some (Borrow k) => bool_decide (k = externalFullKey)
            | _ => false
            end); [done|].
  destruct (testNamespacePath key); simpl; [|apply Hone].
  destruct (testNamespacePath externalFullKey); simpl; [|apply Hone].
  destruct (indexOfDot externalFullKey) as [index|]; [|apply Hone].
  destruct (Nat.ltb index 1); [apply Hone|].
  destruct (negb _ || negb _); [apply Hone|].
  case_bool_decide; [apply Hone|].
  match goal with |- context [findValue s ?l ?k ?c0] =>
    pose proof (findValue_searched s l k c0) as Hs;
    destruct (findValue s l k c0) as [[s1 c1] x] end.
  destruct Hs as (errs & Hs1 & _ & Hflag & _). simpl in *. subst s1.
  destruct (error c1) eqn:He.
  - intros [= <-]. exists errs. split; [|done].
    destruct Hflag as [[_ Hf]|[Hne _]]; [congruence|done].
  - destruct (checkFullKey None externalFullKey false _) as [s2 [|]] eqn:Hc1; simpl.
    + apply checkFullKey_passes in Hc1 as [_ ->].
      destruct (checkFullKey (Some this) key true _) as [s3 [|]] eqn:Hc2; simpl.
      * by destruct (_setExternalKey _ _ _ _ _ _ _).
      * apply checkFullKey_fails in Hc2 as (e & -> & _). intros [= <-].
        exists (errs ++ [e]). rewrite addErrors_app. split; [by destruct errs|done].
    + apply checkFullKey_fails in Hc1 as (e & -> & _). intros [= <-].
      exists (errs ++ [e]). rewrite addErrors_app. split; [by destruct errs|done].
Qed.

(** A direct set that succeeds deletes from the cache the entry of its
    own full key and no other one, whatever listeners it notifies. *)
Lemma setValue_cache fuel s this key (value : TValue) locale s' :
  _setValue fuel s this key value locale = Some (s', true) ->
  _cache s' = delete (concatNamespaceWithKey (Some this) key) (_cache s).
Proof.
  unfold _setValue. destruct (getRegistry s this) as [reg|]; [|done].
  destruct (testNamespacePath key); simpl; [|done].
  destruct (checkFullKey (Some this) key true s) as [s1 [|]] eqn:Hc; simpl; [|done].
  apply checkFullKey_passes in Hc as [_ ->].
  destruct (_externalListeners reg !! key) as [l|];
    (destruct (changeKey _ _ _ _) as [s2|] eqn:Hck; [|done];
     intros [= <-]; apply changeKey_frame in Hck as (_ & _ & Hc & _);
     rewrite Hc; unfold putRegistry; cbn [_namespaces with_errorKeys with_cache];
     by destruct (_namespaces s !! this)).
Qed.

End Failures.

(** ** The invariants of the namespace tree *)
Section Invariants.
Import Base Spec.
Context {TValue : Type} `{Ops : TValueOps TValue}.
Implicit Types (s : SharedSingleton TValue) (c : TVisitedI18n).

Lemma JsMap_get_set {A} k k' (v : A) m :
  JsMap.get k' (JsMap.set k v m) = if decide (k' = k) then Some v else JsMap.get k' m.
Proof.
  induction m as [|[k0 v0] m IH]; simpl.
  - by destruct (decide (k' = k)).
  - destruct (decide (k = k0)) as [->|Hne]; simpl.
    + by destruct (decide (k' = k0)).
    + destruct (decide (k' = k0)) as [->|Hne'].
      * by destruct (decide (k0 = k)).
      * apply IH.
Qed.

Lemma JsMap_get_keys {A} k (m : list (string * A)) e :
  JsMap.get k m = Some e -> In k (JsMap.keys m).
Proof.
  induction m as [|[k0 v0] m IH]; simpl; [done|].
  destruct (decide (k = k0)) as [->|Hne]; [by left|]. intros H. right. by apply IH.
Qed.

Lemma getKeyIfIntersection_owned (reg : I18nRegistry TValue) k e :
  JsMap.get k (_keyValue reg) = Some e ->
  exists key, getKeyIfIntersection reg k = Some key /\ k ∈ splitKeyIntoParts key.
Proof.
  intros H. unfold getKeyIfIntersection.
  destruct (List.find _ _) as [key|] eqn:E.
  - apply find_some in E as [_ Hp]. exists key. split; [done|].
    by apply bool_decide_eq_true in Hp.
  - exfalso. pose proof (find_none _ _ E k (JsMap_get_keys _ _ _ H)) as Hn.
    simpl in Hn. apply bool_decide_eq_false in Hn. apply Hn, splitKeyIntoParts_self.
Qed.

Lemma register_scan_intersects s l n k reg e :
  (n, k) ∈ l -> getRegistry s n = Some reg ->
  JsMap.get k (_keyValue reg) = Some e -> isNonemptyString k = true ->
  is_Some (register_scan s l).
Proof.
  induction l as [|[n0 k0] l IH]; intros Hin Hr Hk Hne; [by apply elem_of_nil in Hin|].
  simpl. apply elem_of_cons in Hin as [[= <- <-]|Hin].
  - rewrite Hr. destruct (getKeyIfIntersection_owned reg k e Hk) as (key & -> & Hp).
    assert (Hkey : isNonemptyString key = true).
    { destruct key; [|done]. apply splitKeyIntoParts_empty in Hp. by subst. }
    by rewrite Hkey.
  - destruct (getRegistry s n0); [|by apply IH].
    destruct (getKeyIfIntersection _ _) as [key|]; [|by apply IH].
    destruct (isNonemptyString key); [done|by apply IH].
Qed.

Lemma concat_Some n k :
  isNonemptyString n = true -> concatNamespaceWithKey (Some n) k = n +:+ dotS +:+ k.
Proof. simpl. by intros ->. Qed.

Lemma wellFormed_namespaces s s' :
  _namespaces s' = _namespaces s -> wellFormed s -> wellFormed s'.
Proof. intros H W. unfold wellFormed, getRegistry in *. by rewrite H. Qed.

Lemma wellFormed_update s s' this reg reg' e' :
  wellFormed s -> getRegistry s this = Some reg ->
  registry e' = Some reg' ->
  _namespaces s' = <[this := e']> (_namespaces s) ->
  (forall k e, JsMap.get k (_keyValue reg') = Some e ->
               testNamespacePath k = true /\ getRegistry s (this +:+ dotS +:+ k) = None) ->
  wellFormed s'.
Proof.
  intros [W1 W2] Hthis He' Hns Hkeys.
  assert (Hget : forall n, getRegistry s' n
                           = if decide (n = this) then Some reg' else getRegistry s n).
  { intros n. unfold getRegistry. rewrite Hns.
    destruct (decide (n = this)) as [->|Hne].
    - by rewrite lookup_insert_eq.
    - by rewrite lookup_insert_ne. }
  split.
  - intros n r. rewrite Hget. destruct (decide _) as [->|]; [|apply W1].
    intros _. by eapply W1.
  - intros n r k e. rewrite !Hget. destruct (decide (n = this)) as [->|Hn].
    + intros [= <-] Hk. destruct (Hkeys k e Hk) as [Hv Hnone]. split; [done|].
      destruct (decide _) as [Heq|]; [|done]. rewrite Heq in Hnone. congruence.
    + intros Hr Hk. destruct (W2 n r k e Hr Hk) as [Hv Hnone]. split; [done|].
      destruct (decide _) as [Heq|]; [|done]. rewrite Heq in Hnone. congruence.
Qed.

Lemma putRegistry_namespaces s this reg r :
  getRegistry s this = Some reg ->
  exists e', registry e' = Some r
             /\ _namespaces (putRegistry this r s) = <[this := e']> (_namespaces s).
Proof.
  unfold getRegistry, putRegistry. destruct (_namespaces s !! this) as [e|]; [|done].
  intros _. by eexists (mkNamespace (Some r) (i18n e)).
Qed.

Lemma wellFormed_create config : wellFormed (create TValue config).
Proof. split; intros n reg; unfold getRegistry; simpl; by rewrite lookup_empty. Qed.

Lemma wellFormed_register s fullNamespace :
  wellFormed s -> wellFormed (fst (register s fullNamespace)).
Proof.
  intros W. unfold register.
  destruct (_namespaces s !! fullNamespace ≫= registry) as [r|] eqn:Hr; [done|].
  destruct (testNamespacePath fullNamespace) eqn:Hv; simpl;
    [|by eapply wellFormed_namespaces].
  destruct (register_scan _ _) as [[n0 k0]|] eqn:Hscan; simpl;
    [by eapply wellFormed_namespaces|].
  destruct W as [W1 W2].
  set (entry := match _namespaces s !! fullNamespace with
                | Some e => mkNamespace (Some (mkRegistry [] ∅)) (i18n e)
                | None => mkNamespace (Some (mkRegistry [] ∅)) false
                end).
  assert (He : registry entry = Some (mkRegistry [] ∅))
    by (unfold entry; by destruct (_namespaces s !! fullNamespace)).
  assert (Hget : forall n,
             getRegistry (with_namespaces (<[fullNamespace := entry]> (_namespaces s))
                            (with_errorKeys (_errorKeys s ∖ {[fullNamespace]}) s)) n
             = if decide (n = fullNamespace) then Some (mkRegistry [] ∅)
               else getRegistry s n).
  { intros n. unfold getRegistry. simpl.
    destruct (decide (n = fullNamespace)) as [->|Hne].
    - by rewrite lookup_insert_eq.
    - by rewrite lookup_insert_ne. }
  split.
  - intros n r. rewrite Hget. destruct (decide _) as [->|]; [done|apply W1].
  - intros n r k e. rewrite !Hget. destruct (decide (n = fullNamespace)) as [->|Hn].
    + by intros [= <-].
    + intros Hreg Hk. destruct (W2 n r k e Hreg Hk) as [Hvk Hnone]. split; [done|].
      destruct (decide _) as [Heq|]; [|done]. exfalso.
      destruct (register_scan_intersects s (splitKeyByNamespace fullNamespace) n k r e)
        as [x Hx]; try done.
      * rewrite <- Heq. apply splitKeyByNamespace_concat.
      * by apply testNamespacePath_nonempty.
      * congruence.
Qed.

Lemma wellFormed_changeLocale s locale :
  wellFormed s -> wellFormed (fst (changeLocale s locale)).
Proof.
  unfold changeLocale. destruct (negb _); simpl; [by apply wellFormed_namespaces|].
  destruct (negb _); simpl; [by apply wellFormed_namespaces|done].
Qed.

Lemma getValue_namespaces s namespace key :
  _namespaces (fst (getValue s namespace key)) = _namespaces s.
Proof.
  unfold getValue. destruct (_cache s !! _); [done|]. unfold _handleKey.
  case_bool_decide; [done|].
  match goal with |- context [findValue s ?l ?k ?c0] =>
    pose proof (findValue_searched s l k c0) as Hs;
    destruct (findValue s l k c0) as [[s1 c1] x] end.
  destruct Hs as (errs & Hs1 & _). simpl in Hs1. subst s1.
  destruct x as [[v r]|]; [done|]. by destruct (negb (error c1)).
Qed.

Lemma wellFormed_setValue fuel s this key value locale s' ok :
  wellFormed s -> _setValue fuel s this key value locale = Some (s', ok) ->
  wellFormed s'.
Proof.
  intros W. unfold _setValue. destruct (getRegistry s this) as [reg|] eqn:Hthis; [|done].
  destruct (testNamespacePath key) eqn:Hv; simpl;
    [|intros [= <- _]; by eapply wellFormed_namespaces].
  destruct (checkFullKey (Some this) key true s) as [s1 [|]] eqn:Hc; simpl.
  - apply checkFullKey_passes in Hc as [Hnone ->].
    rewrite concat_Some in Hnone
      by (apply testNamespacePath_nonempty; by eapply (proj1 W)).
    set (kv := match JsMap.get key (_keyValue reg) with
               | Some (Direct t) => _
               | _ => _
               end).
    assert (Hkv : forall k e, JsMap.get k kv = Some e ->
                    testNamespacePath k = true
                    /\ getRegistry s (this +:+ dotS +:+ k) = None).
    { intros k e. unfold kv.
      destruct (JsMap.get key (_keyValue reg)) as [[t|x]|]; rewrite JsMap_get_set;
        (destruct (decide (k = key)) as [->|Hne]; [done|]);
        by apply (proj2 W). }
    clearbody kv.
    destruct (_externalListeners reg !! key) as [l|];
      (destruct (changeKey _ _ _ _) as [s2|] eqn:Hck; [|done];
       intros [= <- _]; apply changeKey_frame in Hck as (_ & Hns & _);
       match type of Hns with context [putRegistry this ?r ?s0] =>
         destruct (putRegistry_namespaces s0 this reg r Hthis) as (e' & He' & Hput) end;
       eapply (wellFormed_update s s2 this reg _ e'); [done|done|exact He'| |exact Hkv];
       rewrite Hns; exact Hput).
  - apply checkFullKey_fails in Hc as (e & -> & _). intros [= <- _].
    by eapply wellFormed_namespaces.
Qed.

Lemma wellFormed_setExternalKey fuel s this key externalFullKey ns partKey s' :
  wellFormed s -> testNamespacePath key = true ->
  getRegistry s (this +:+ dotS +:+ key) = None ->
  _setExternalKey fuel s this key externalFullKey ns partKey = Some s' ->
  wellFormed s'.
Proof.
  intros W Hv Hnone. unfold _setExternalKey.
  destruct (getRegistry s this) as [reg|] eqn:Hthis; [|done].
  intros Hck. apply changeKey_frame in Hck as (_ & Hns & _).
  match type of Hns with context [putRegistry this ?r ?s0] =>
    destruct (putRegistry_namespaces s0 this reg r Hthis) as (e' & He' & Hput) end.
  eapply (wellFormed_update s s' this reg _ e'); [done|done|exact He'| |].
  { rewrite Hns. exact Hput. }
  intros k e. simpl. rewrite JsMap_get_set.
  destruct (decide (k = key)) as [->|Hne]; [done|]. by apply (proj2 W).
Qed.

Lemma wellFormed_use fuel s this key externalFullKey s' ok :
  wellFormed s -> use fuel s this key externalFullKey = Some (s', ok) ->
  wellFormed s'.
Proof.
  intros W. unfold use. destruct (getRegistry s this) as [reg|] eqn:Hthis; [|done].
  assert (Hone : forall e b, Some (errorHandle e s, b) = Some (s', ok) -> wellFormed s').
  { intros e b [= <- _]. by eapply wellFormed_namespaces. }
  destruct (match JsMap.get key (_keyValue reg) with
            | Some (Borrow k) => bool_decide (k = externalFullKey)
            | _ => false
            end); [by intros [= <- _]|].
  destruct (testNamespacePath key) eqn:Hv; simpl; [|apply Hone].
  destruct (testNamespacePath externalFullKey); simpl; [|apply Hone].
  destruct (indexOfDot externalFullKey) as [index|]; [|apply Hone].
  destruct (Nat.ltb index 1); [apply Hone|].
  destruct (negb _ || negb _); [apply Hone|].
  case_bool_decide; [apply Hone|].
  match goal with |- context [findValue s ?l ?k ?c0] =>
    pose proof (findValue_searched s l k c0) as Hs;
    destruct (findValue s l k c0) as [[s1 c1] x] end.
  destruct Hs as (errs & Hs1 & _). simpl in Hs1. subst s1.
  assert (W1 : wellFormed (addErrors errs s)) by (by eapply wellFormed_namespaces).
  destruct (error c1); [by intros [= <- _]|].
  destruct (checkFullKey None externalFullKey false _) as [s2 [|]] eqn:Hc1; simpl.
  - apply checkFullKey_passes in Hc1 as [_ ->].
    destruct (checkFullKey (Some this) key true _) as [s3 [|]] eqn:Hc2; simpl.
    + apply checkFullKey_passes in Hc2 as [Hnone ->].
      rewrite concat_Some in Hnone
        by (apply testNamespacePath_nonempty; by eapply (proj1 W)).
      destruct (_setExternalKey _ _ _ _ _ _ _) as [s4|] eqn:Hset; [|done].
      intros [= <- _]. eapply wellFormed_setExternalKey; [| | |exact Hset]; done.
    + apply checkFullKey_fails in Hc2 as (e & -> & _). intros [= <- _].
      by eapply wellFormed_namespaces.
  - apply checkFullKey_fails in Hc1 as (e & -> & _). intros [= <- _].
    by eapply wellFormed_namespaces.
Qed.

Lemma reachable_wellFormed s : reachable s -> wellFormed s.
Proof.
  induction 1.
  - apply wellFormed_create.
  - by apply wellFormed_register.
  - by apply wellFormed_changeLocale.
  - eapply wellFormed_namespaces; [apply getValue_namespaces|done].
  - by eapply wellFormed_setValue.
  - by eapply wellFormed_use.
Qed.

End Invariants.

(** ** The search goes through the candidates in order *)
Section Candidates.
Import Base Spec.
Context {TValue : Type} `{Ops : TValueOps TValue}.
Implicit Types (s : SharedSingleton TValue) (c : TVisitedI18n).

Lemma findValue_loop_app g l1 l2 s c :
  findValue_loop g (l1 ++ l2) s c
  = match findValue_loop g l1 s c with
    | Some (s1, c1, None) => findValue_loop g l2 s1 c1
    | r => r
    end.
Proof.
  revert s c. induction l1 as [|[n k] l1 IH]; intros s c; simpl; [done|].
  destruct (getRegistry s n) as [reg|]; [|apply IH].
  destruct (visit n k c) as [c'|]; [|apply IH].
  destruct (g s n reg k c') as [[[s2 c2] [v|]]|]; [done|apply IH|done].
Qed.

Lemma findValue_loop_first g l : forall s c s2 c2 v,
  findValue_loop g l s c = Some (s2, c2, Some v) ->
  exists l1 cand l2 s1 c1,
    l = l1 ++ cand :: l2
    /\ findValue_loop g l1 s c = Some (s1, c1, None)
    /\ findValue_loop g [cand] s1 c1 = Some (s2, c2, Some v).
Proof.
  induction l as [|[n k] l IH]; intros s c s2 c2 v H; [done|].
  change ((n, k) :: l) with ([(n, k)] ++ l) in H.
  rewrite findValue_loop_app in H.
  destruct (findValue_loop g [(n, k)] s c) as [[[s' c'] [w|]]|] eqn:E1; [| |done].
  - injection H as -> -> ->. by exists [], (n, k), l, s, c.
  - destruct (IH _ _ _ _ _ H) as (l1 & cand & l2 & s1 & c1 & -> & Ha & Hb).
    exists ((n, k) :: l1), cand, l2, s1, c1. split; [done|]. split; [|done].
    change ((n, k) :: l1) with ([(n, k)] ++ l1).
    by rewrite findValue_loop_app, E1.
Qed.

(** C6: the candidates of a full key with n segments are its n-1
    (ancestor namespace, suffix key) splits, the i-th one having an
    ancestor of i+1 segments; [findValue] examines them in this order, and
    the first candidate registry that yields a value decides the result,
    whatever candidates follow it. *)
Theorem findValue_first_match_wins fuel s locale fullKey c :
  let path := split fullKey in
  let name2Key := splitKeyByNamespace fullKey in
  let examine := findValue_loop (candidateValue fuel locale) in
  length name2Key = length path - 1
  /\ (forall i, i < length path - 1 ->
        name2Key !! i = Some (join (take (S i) path), join (drop (S i) path)))
  /\ findValue_fuel (S fuel) s locale fullKey c = examine name2Key s c
  /\ (forall l1 cand l2 s1 c1 s2 c2 v,
        examine l1 s c = Some (s1, c1, None) ->
        examine [cand] s1 c1 = Some (s2, c2, Some v) ->
        examine (l1 ++ cand :: l2) s c = Some (s2, c2, Some v))
  /\ (forall s2 c2 v,
        findValue_fuel (S fuel) s locale fullKey c = Some (s2, c2, Some v) ->
        exists l1 cand l2 s1 c1,
          name2Key = l1 ++ cand :: l2
          /\ examine l1 s c = Some (s1, c1, None)
          /\ examine [cand] s1 c1 = Some (s2, c2, Some v)).
Proof.
  cbv zeta. split; [|split; [|split; [|split]]].
  - unfold splitKeyByNamespace. rewrite collect_length. lia.
  - intros i Hi. unfold splitKeyByNamespace.
    rewrite collect_lookup by lia. done.
  - done.
  - intros l1 cand l2 s1 c1 s2 c2 v H1 H2.
    rewrite findValue_loop_app, H1.
    change (cand :: l2) with ([cand] ++ l2). by rewrite findValue_loop_app, H2.
  - intros s2 c2 v H. by apply findValue_loop_first.
Qed.

End Candidates.

(** ** Locale fallback and the presence check *)
Section Locales.
Import Base Spec.
Context {TValue : Type} `{Ops : TValueOps TValue}.
Implicit Types (s : SharedSingleton TValue) (c : TVisitedI18n).

(** C10: a falsy value stored under the requested locale hides the key in
    this registry: the coalescing chain selects it, the presence check
    rejects it, and neither the default locale nor any other entry of the
    locale map is consulted. *)
Theorem falsy_value_is_not_found rec s thisNs (this : I18nRegistry TValue)
    locale localKey c t v :
  JsMap.get localKey (_keyValue this) = Some (Direct t) ->
  JsMap.get locale t = Some v ->
  truthy v = false ->
  selectValue t locale (_defaultLocale s) = Some v
  /\ I18nRegistry_getValue rec s thisNs this locale localKey c = Some (s, c, None).
Proof.
  intros Hk Hl Hv. unfold I18nRegistry_getValue, selectValue.
  by rewrite Hk, Hl; simpl; rewrite Hv.
Qed.

End Locales.

Section Fallback.
Import Base Spec.

Lemma head_values_elem {TValue : Type} (t : list (string * TValue)) v :
  head (JsMap.values t) = Some v -> exists l, (l, v) ∈ t.
Proof.
  destruct t as [|[l w] t]; simpl; [done|]. intros [= ->]. exists l. by left.
Qed.

(** C5: a Direct entry is resolved by the requested locale, else by the
    default locale when it differs from the requested one, else by the
    first remaining entry of the locale map, and the selected value is
    returned when it passes the presence check.  In the string-valued
    instance, a key whose only value is stored under 'en', with 'en' the
    default locale, resolves to that value under the locale 'fr'. *)
Theorem locale_fallback_order :
  (forall {TValue : Type} (t : list (string * TValue)) locale dl v,
      JsMap.get locale t = Some v -> selectValue t locale dl = Some v)
  /\ (forall {TValue : Type} (t : list (string * TValue)) locale dl v,
        JsMap.get locale t = None -> locale <> dl -> JsMap.get dl t = Some v ->
        selectValue t locale dl = Some v)
  /\ (forall {TValue : Type} (t : list (string * TValue)) locale dl,
        JsMap.get locale t = None -> locale = dl \/ JsMap.get dl t = None ->
        selectValue t locale dl = head (JsMap.values t)
        /\ forall v, selectValue t locale dl = Some v -> exists l, (l, v) ∈ t)
  /\ (forall {TValue : Type} `{Ops : TValueOps TValue} rec (s : SharedSingleton TValue)
             thisNs (this : I18nRegistry TValue) locale localKey c t v,
        JsMap.get localKey (_keyValue this) = Some (Direct t) ->
        selectValue t locale (_defaultLocale s) = Some v ->
        truthy v = true ->
        I18nRegistry_getValue rec s thisNs this locale localKey c
        = Some (s, c, Some (v, thisNs)))
  /\ (forall fuel (v : string),
        truthy v = true -> 1 <= fuel ->
        exists s,
          Impl.set fuel
            (fst (register (Impl.createInstance "fr" (Some "en") None) "app"))
            "app" "title" v "en" = Some (s, true)
          /\ _locale s = "fr" /\ _defaultLocale s = "en"
          /\ snd (getValue s (Some "app") "title") = v).
Proof.
  split; [|split; [|split; [|split]]].
  - intros TValue t locale dl v H. unfold selectValue. by rewrite H.
  - intros TValue t locale dl v H Hne Hd. unfold selectValue. rewrite H, Hd. simpl.
    by rewrite bool_decide_eq_false_2.
  - intros TValue t locale dl H Hor.
    assert (Hs : selectValue t locale dl = head (JsMap.values t)).
    { unfold selectValue. rewrite H. simpl.
      destruct Hor as [->|Hd]; [by rewrite bool_decide_eq_true_2|].
      rewrite Hd. by destruct (negb _). }
    split; [done|]. intros v. rewrite Hs. apply head_values_elem.
  - intros TValue Ops rec s thisNs this locale localKey c t v Hk Hs Hv.
    unfold I18nRegistry_getValue. by rewrite Hk, Hs, Hv.
  - intros fuel v Hv Hfuel. destruct fuel as [|fuel]; [lia|].
    destruct v as [|a v]; [done|].
    eexists. split; [vm_compute; reflexivity|].
    split; [reflexivity|]. split; [reflexivity|]. vm_compute. reflexivity.
Qed.

End Fallback.

(** ** The cache, the locale and failing calls *)
Section Resolver.
Import Base Spec.
Context {TValue : Type} `{Ops : TValueOps TValue}.
Implicit Types (s : SharedSingleton TValue) (c : TVisitedI18n).

Lemma visit_None n k c : visit n k c = None -> isVisited c (n, k) = true.
Proof.
  unfold visit, isVisited. simpl. destruct (visited c !! n) as [keys|]; [|done].
  by case_bool_decide.
Qed.

(** C3: with a fresh visit context the search ends within a nesting depth
    of one more than the number of borrowed keys, in every state, cyclic
    borrow links included, and its result does not depend on the fuel.
    What bounds it is the visit context alone: a candidate is either
    skipped because its (registry, local key) pair was visited, or the
    pair is recorded, and recording a borrowed pair lowers the number of
    borrowed pairs still unvisited. *)
Theorem findValue_terminates s locale fullKey namespace key fuel :
  length (borrowedPairs s) < fuel ->
  let ctx := mkVisited namespace key ∅ false in
  findValue_fuel fuel s locale fullKey ctx = Some (findValue s locale fullKey ctx)
  /\ searched s ctx (findValue s locale fullKey ctx)
  /\ (forall n k c, visit n k c = None -> isVisited c (n, k) = true)
  /\ (forall n k c c',
        visit n k c = Some c' ->
        isVisited c (n, k) = false /\ isVisited c' (n, k) = true /\ grows c c'
        /\ forall reg e,
             getRegistry s n = Some reg ->
             JsMap.get k (_keyValue reg) = Some (Borrow e) ->
             unvisited s c' < unvisited s c).
Proof.
  intros Hfuel ctx. split; [by apply findValue_fuel_findValue|].
  split; [apply findValue_searched|]. split; [apply visit_None|].
  intros n k c c' Hv. apply visit_Some in Hv as (H0 & H1 & Hg).
  repeat split; try done. intros reg e Hreg Hk.
  by eapply unvisited_lt; [|eapply borrowedPairs_elem|..].
Qed.

Lemma handleKey_cases s fullKey namespace key :
  _cache s !! fullKey = None ->
  let r := _handleKey s fullKey namespace key in
  _cache (fst r) !! fullKey = Some (snd r)
  \/ (_cache (fst r) !! fullKey = None /\ fullKey ∈ _errorKeys (fst r)
      /\ snd r = getDefaultValue).
Proof.
  intros Hc. unfold _handleKey. case_bool_decide as Herr; simpl; [by right|].
  match goal with |- context [findValue s ?l ?k ?c0] =>
    pose proof (findValue_searched s l k c0) as Hs;
    destruct (findValue s l k c0) as [[s1 c1] x] end.
  destruct Hs as (errs & Hs1 & _). simpl in Hs1. subst s1.
  destruct x as [[v r]|]; simpl.
  - left. by rewrite lookup_insert_eq.
  - right. destruct (negb (error c1)); simpl; (split; [done|]); split; set_solver.
Qed.

(** C8: a second [getValue] for the same namespace and key, with nothing
    in between, returns what the first one returned - the resolved value
    or the default - and leaves the state as the first call left it. *)
Theorem getValue_twice s namespace key :
  getValue (fst (getValue s namespace key)) namespace key = getValue s namespace key.
Proof.
  unfold getValue. generalize (concatNamespaceWithKey namespace key). intros fullKey.
  destruct (_cache s !! fullKey) as [v|] eqn:Hc; simpl; [by rewrite Hc|].
  pose proof (handleKey_cases s fullKey namespace key Hc) as H. simpl in H.
  destruct (_handleKey s fullKey namespace key) as [s1 v1]. simpl in *.
  destruct H as [->|(-> & Herr & ->)]; [done|].
  unfold _handleKey. by rewrite bool_decide_eq_true_2.
Qed.

(** C9: a rejected locale is reported as UnregisteredLocale and changes
    nothing else; an accepted locale that differs from the current one
    becomes the current locale, empties the cache and is published, the
    set of unresolved keys staying as it is; an accepted locale equal to
    the current one changes nothing; the result is always the current
    locale after the call. *)
Theorem changeLocale_effects s locale :
  (_isSupportedLocale s locale = false ->
     changeLocale s locale
     = (errorHandle (errorMessages.UnregisteredLocaleError locale) s, _locale s)
     /\ sameResolverState s (fst (changeLocale s locale)))
  /\ (_isSupportedLocale s locale = true -> locale <> _locale s ->
        let s' := fst (changeLocale s locale) in
        _locale s' = locale /\ _cache s' = ∅
        /\ _published s' = _published s ++ [EvLocale locale]
        /\ _errorKeys s' = _errorKeys s /\ _errors s' = _errors s
        /\ _namespaces s' = _namespaces s /\ _events s' = _events s)
  /\ (_isSupportedLocale s locale = true -> locale = _locale s ->
        fst (changeLocale s locale) = s)
  /\ snd (changeLocale s locale) = _locale (fst (changeLocale s locale)).
Proof.
  unfold changeLocale.
  destruct (_isSupportedLocale s locale); simpl; [case_bool_decide as Heq; simpl|];
    repeat split; try done; intros; by simplify_eq.
Qed.

(** C2: a [register] that returns null, a [_setValue] that returns false
    and a [use] that returns false have reported at least one error and
    have changed nothing but the error sink: the namespace tree, every
    key table and borrow subscription, the emitters, the cache, the set of
    unresolved keys and the locale are as before the call. *)
Theorem failed_call_changes_nothing :
  (forall s fullNamespace s',
      register s fullNamespace = (s', None) ->
      sameResolverState s s'
      /\ exists e, _errors s' = _errors s ++ [e]
                   /\ (code e = errorCodes.NamespaceError
                       \/ code e = errorCodes.IntersectionNsError))
  /\ (forall fuel s this key (value : TValue) locale s',
        _setValue fuel s this key value locale = Some (s', false) ->
        sameResolverState s s'
        /\ exists e, _errors s' = _errors s ++ [e]
                     /\ (code e = errorCodes.KeyError
                         \/ code e = errorCodes.IntersectionError))
  /\ (forall fuel s this key externalFullKey s',
        use fuel s this key externalFullKey = Some (s', false) ->
        sameResolverState s s'
        /\ exists errs, errs <> [] /\ _errors s' = _errors s ++ errs).
Proof.
  split; [|split].
  - intros s fullNamespace s' H. apply register_fails in H as (e & -> & He).
    split; [apply sameResolverState_addErrors|by exists e].
  - intros fuel s this key value locale s' H.
    apply setValue_fails in H as (e & -> & He).
    split; [apply sameResolverState_addErrors|by exists e].
  - intros fuel s this key externalFullKey s' H.
    apply use_fails in H as (errs & Hne & ->).
    split; [apply sameResolverState_addErrors|by exists errs].
Qed.

End Resolver.

(** ** Namespaces against keys *)
Section Intersections.
Import Base Spec.
Context {TValue : Type} `{Ops : TValueOps TValue}.
Implicit Types (s : SharedSingleton TValue) (c : TVisitedI18n).

Lemma sliceFrom_after_dot (str : string) i :
  indexOfDot str = Some i -> sliceFrom (i + 1) str = EmptyString -> endsWithDot str = true.
Proof.
  revert i. induction str as [|a r IH]; intros i; simpl; [done|].
  destruct (Ascii.eqb a dot) eqn:E.
  - intros [= <-]. simpl. by intros ->.
  - destruct (indexOfDot r) as [j|] eqn:Hj; [|done]. simpl. intros [= <-] Hs.
    specialize (IH j eq_refl Hs). by destruct r.
Qed.

Lemma indexOfDot_valid externalFullKey index :
  testNamespacePath externalFullKey = true ->
  indexOfDot externalFullKey = Some index ->
  Nat.ltb index 1 = false
  /\ isNonemptyString (sliceTo index externalFullKey) = true
  /\ isNonemptyString (sliceFrom (index + 1) externalFullKey) = true.
Proof.
  unfold testNamespacePath, testNamespacePathError.
  destruct externalFullKey as [|a r]; [done|]. cbn [isNonemptyString].
  intros Hv Hi.
  apply negb_true_iff, orb_false_iff in Hv as [Hv Hend].
  apply orb_false_iff in Hv as [_ Hstart]. simpl in Hstart, Hi. rewrite Hstart in Hi.
  destruct (indexOfDot r) as [j|] eqn:Hj; [|done]. injection Hi as <-.
  split; [done|]. split; [done|].
  destruct (sliceFrom (S j + 1) (String a r)) eqn:Hs; [|done].
  assert (Hidx : indexOfDot (String a r) = Some (S j)) by (simpl; by rewrite Hstart, Hj).
  by rewrite (sliceFrom_after_dot _ _ Hidx Hs) in Hend.
Qed.

Lemma getRegistry_bind s n : _namespaces s !! n ≫= registry = getRegistry s n.
Proof. unfold getRegistry. by destruct (_namespaces s !! n). Qed.

(** C7, as amended: in a reachable state, registering the full path of a
    key that a registry owns fails with NamespaceKeyIntersection and
    returns null; setting a key whose full path is a registered namespace
    fails with KeyNamespaceIntersection; borrowing such a key fails with
    KeyNamespaceIntersection when the target passes the checks that [use]
    makes first (valid syntax, a namespace part, not the key itself, no
    cycle found by the simulation).  The reachable states are those
    after any calls of [register], [changeLocale], [getValue], [set] and
    [use] that return, the calls whose notifications are cut short by
    the end of the stack among them. *)
Theorem intersection_is_rejected s :
  reachable s ->
  (forall ns reg k e,
      getRegistry s ns = Some reg -> JsMap.get k (_keyValue reg) = Some e ->
      exists other key,
        register s (ns +:+ dotS +:+ k)
        = (errorHandle
             (errorMessages.IntersectionNsError (ns +:+ dotS +:+ k) other key) s, None))
  /\ (forall fuel this reg k (value : TValue) locale,
        getRegistry s this = Some reg ->
        is_Some (getRegistry s (this +:+ dotS +:+ k)) ->
        _setValue fuel s this k value locale
        = Some (errorHandle
                  (errorMessages.IntersectionError (Some this) k (this +:+ dotS +:+ k)) s,
                false))
  /\ (forall fuel this reg k externalFullKey,
        getRegistry s this = Some reg ->
        is_Some (getRegistry s (this +:+ dotS +:+ k)) ->
        testNamespacePath externalFullKey = true ->
        is_Some (indexOfDot externalFullKey) ->
        externalFullKey <> this +:+ dotS +:+ k ->
        error (snd (fst (findValue s (_locale s) externalFullKey
                           (mkVisited None k {[this := [k]]} false)))) = false ->
        exists e, code e = errorCodes.IntersectionError
                  /\ use fuel s this k externalFullKey = Some (errorHandle e s, false)).
Proof.
  intros Hreach. pose proof (reachable_wellFormed s Hreach) as [W1 W2].
  split; [|split].
  - intros ns reg k e Hreg Hk. destruct (W2 ns reg k e Hreg Hk) as [Hvk Hnone].
    unfold register. rewrite getRegistry_bind, Hnone.
    rewrite testNamespacePath_concat, (W1 ns reg Hreg), Hvk. simpl.
    destruct (register_scan_intersects s (splitKeyByNamespace (ns +:+ dotS +:+ k))
                ns k reg e) as [[other key] ->]; try done.
    + apply splitKeyByNamespace_concat.
    + by apply testNamespacePath_nonempty.
    + by exists other, key.
  - intros fuel this reg k value locale Hthis [r Hr].
    pose proof (W1 _ _ Hr) as Hv. rewrite testNamespacePath_concat in Hv.
    apply andb_true_iff in Hv as [Hvt Hvk].
    unfold _setValue, checkFullKey. rewrite Hthis, Hvk. simpl negb. cbv iota.
    rewrite concat_Some by (by apply testNamespacePath_nonempty). by rewrite Hr.
  - intros fuel this reg k ext Hthis [r Hr] Hve [index Hi] Hne Herr.
    pose proof (W1 _ _ Hr) as Hv. rewrite testNamespacePath_concat in Hv.
    apply andb_true_iff in Hv as [Hvt Hvk].
    destruct (indexOfDot_valid ext index Hve Hi) as (Hlt & Hns & Hpart).
    unfold use. rewrite Hthis.
    destruct (JsMap.get k (_keyValue reg)) as [e|] eqn:Hk.
    { destruct (W2 this reg k e Hthis Hk) as [_ Hnone]. congruence. }
    rewrite Hvk, Hve, Hi, Hlt, Hns, Hpart. simpl negb. simpl orb. cbv iota.
    rewrite concat_Some by (by apply testNamespacePath_nonempty).
    rewrite bool_decide_eq_false_2 by done.
    match goal with |- context [findValue s ?l ?key ?c0] =>
      pose proof (findValue_searched s l key c0) as Hs;
      destruct (findValue s l key c0) as [[s1 c1] x] end.
    simpl in Herr. rewrite Herr.
    destruct Hs as (errs & Hs1 & _ & Hflag & _). simpl in *.
    destruct Hflag as [[-> _]|[_ Hflag]]; [|congruence].
    rewrite addErrors_nil in Hs1. subst s1.
    unfold checkFullKey at 1. simpl concatNamespaceWithKey.
    destruct (getRegistry s ext) as [r'|]; simpl.
    + eexists. split; [|reflexivity]. done.
    + unfold checkFullKey.
      rewrite concat_Some by (by apply testNamespacePath_nonempty).
      rewrite Hr. simpl. eexists. split; [|reflexivity]. done.
Qed.

End Intersections.

(** ** Scenarios of the specification, in the string-valued instance *)
Section ScenarioFacts.
Import Base Spec.

(** C4: after [ns1.use('v','ns2.v'); ns2.use('v','ns3.v');
    ns3.use('v','ns1.w'); ns1.set('w', X)] with a truthy [X], [ns1.v]
    resolves to [X]; [ns1.use('w','ns1.v')] then returns false, reports
    CircularDependency and changes nothing else, and [ns1.v] still
    resolves to [X], from the cache as well as by a new search. *)
Theorem three_namespace_cycle_is_rejected (fuel : nat) (X : string) :
  truthy X = true -> 4 <= fuel ->
  exists s1 s2 s3 s4 s5 s6 e,
    use fuel Scenarios.threeNamespaces "ns1" "v" "ns2.v" = Some (s1, true)
    /\ use fuel s1 "ns2" "v" "ns3.v" = Some (s2, true)
    /\ use fuel s2 "ns3" "v" "ns1.w" = Some (s3, true)
    /\ Impl.set fuel s3 "ns1" "w" X "en_us" = Some (s4, true)
    /\ getValue s4 (Some "ns1") "v" = (s5, X)
    /\ use fuel s5 "ns1" "w" "ns1.v" = Some (s6, false)
    /\ s6 = addErrors [e] s5
    /\ code e = errorCodes.CircularDependencyError
    /\ snd (getValue s6 (Some "ns1") "v") = X
    /\ snd (findValue s6 (_locale s6) "ns1.v" (mkVisited (Some "ns1") "v" ∅ false))
       = Some (X, "ns1").
Proof.
  intros HX Hfuel.
  destruct fuel as [|[|[|[|fuel]]]]; try lia.
  destruct X as [|a X]; [done|].
  do 7 eexists.
  split; [vm_compute; reflexivity|].
  split; [vm_compute; reflexivity|].
  split; [vm_compute; reflexivity|].
  split; [vm_compute; reflexivity|].
  split; [vm_compute; reflexivity|].
  split; [vm_compute; reflexivity|].
  split; [vm_compute; reflexivity|].
  split; [reflexivity|].
  split; vm_compute; reflexivity.
Qed.

Lemma three_namespace_cycle_is_rejected_witness :
  truthy "X" = true /\ 4 <= 4
  /\ exists s1 s2 s3 s4 s5 s6 e,
    use 4 Scenarios.threeNamespaces "ns1" "v" "ns2.v" = Some (s1, true)
    /\ use 4 s1 "ns2" "v" "ns3.v" = Some (s2, true)
    /\ use 4 s2 "ns3" "v" "ns1.w" = Some (s3, true)
    /\ Impl.set 4 s3 "ns1" "w" "X" "en_us" = Some (s4, true)
    /\ getValue s4 (Some "ns1") "v" = (s5, "X")
    /\ use 4 s5 "ns1" "w" "ns1.v" = Some (s6, false)
    /\ s6 = addErrors [e] s5
    /\ code e = errorCodes.CircularDependencyError
    /\ snd (getValue s6 (Some "ns1") "v") = "X"
    /\ snd (findValue s6 (_locale s6) "ns1.v" (mkVisited (Some "ns1") "v" ∅ false))
       = Some ("X", "ns1").
Proof.
  split; [reflexivity|]. split; [apply le_n|].
  apply (three_namespace_cycle_is_rejected 4 "X"); [reflexivity|apply le_n].
Defined.

(** C1, on the code: [ns2.v] borrows [ns1.var]; once [ns2.v] has been
    read, a direct set of [ns1.var] is propagated to [ns2] as a key-changed
    notification, yet the cache entry of [ns2.v] stays, and [getValue]
    keeps returning the old value while [ns1.var] itself resolves to the
    new one. *)
Theorem borrowed_target_change_leaves_cache_stale (fuel : nat) :
  2 <= fuel ->
  exists s1 s2 s3 s4,
    Impl.set fuel Scenarios.twoNamespaces "ns1" "var" "A" "ru_ru" = Some (s1, true)
    /\ use fuel s1 "ns2" "v" "ns1.var" = Some (s2, true)
    /\ getValue s2 (Some "ns2") "v" = (s3, "A")
    /\ Impl.set fuel s3 "ns1" "var" "B" "ru_ru" = Some (s4, true)
    /\ _published s4
       = _published s3 ++ [EvKey None "ns1.var"; EvKey (Some "ns1") "var";
                           EvKey None "ns2.v"; EvKey (Some "ns2") "v"]
    /\ _cache s4 !! "ns2.v" = Some "A"
    /\ getValue s4 (Some "ns2") "v" = (s4, "A")
    /\ snd (getValue s4 (Some "ns1") "var") = "B".
Proof.
  intros Hfuel. destruct fuel as [|[|fuel]]; try lia.
  do 4 eexists.
  split; [vm_compute; reflexivity|].
  split; [vm_compute; reflexivity|].
  split; [vm_compute; reflexivity|].
  split; [vm_compute; reflexivity|].
  split; [vm_compute; reflexivity|].
  split; [vm_compute; reflexivity|].
  split; vm_compute; reflexivity.
Qed.

Lemma borrowed_target_change_leaves_cache_stale_witness :
  2 <= 2
  /\ exists s1 s2 s3 s4,
    Impl.set 2 Scenarios.twoNamespaces "ns1" "var" "A" "ru_ru" = Some (s1, true)
    /\ use 2 s1 "ns2" "v" "ns1.var" = Some (s2, true)
    /\ getValue s2 (Some "ns2") "v" = (s3, "A")
    /\ Impl.set 2 s3 "ns1" "var" "B" "ru_ru" = Some (s4, true)
    /\ _published s4
       = _published s3 ++ [EvKey None "ns1.var"; EvKey (Some "ns1") "var";
                           EvKey None "ns2.v"; EvKey (Some "ns2") "v"]
    /\ _cache s4 !! "ns2.v" = Some "A"
    /\ getValue s4 (Some "ns2") "v" = (s4, "A")
    /\ snd (getValue s4 (Some "ns1") "var") = "B".
Proof.
  split; [apply le_n|].
  apply (borrowed_target_change_leaves_cache_stale 2), le_n.
Defined.

End ScenarioFacts.

(** ** The theorems at concrete inputs *)
Section Witnesses.
Import Base Spec.

Lemma reachable_root : reachable Scenarios.root.
Proof. apply (reach_create (parseOptions "ru_ru" None None)). Defined.

Lemma reachable_owning : reachable Scenarios.owning.
Proof.
  eapply (reach_setValue 1 (fst (register Scenarios.root "a.b")) "a.b" "c" "C" "ru_ru"
            Scenarios.owning true).
  - apply reach_register, reachable_root.
  - vm_compute. reflexivity.
Defined.

Lemma reachable_nested : reachable Scenarios.nested.
Proof. apply reach_register, reach_register, reachable_root. Defined.

Lemma reachable_entangled : reachable Scenarios.entangled.
Proof.
  eapply (reach_use 1 _ "z" "k" "a.b.c" _ true).
  - eapply (reach_setValue 1
              (fst (register (fst (register (fst (register Scenarios.root "a")) "a.b")) "z"))
              "a" "b.c" "X" "ru_ru" _ true).
    + apply reach_register, reach_register, reach_register, reachable_root.
    + vm_compute. reflexivity.
  - vm_compute. reflexivity.
Defined.

(** The state after [a.b.use('c', 'z.k')] has returned true, in which two
    keys borrow each other, is one of the reachable states. *)
Lemma reachable_circular : reachable Scenarios.circular.
Proof.
  eapply (reach_use 2 Scenarios.entangled "a.b" "c" "z.k" _ true).
  - apply reachable_entangled.
  - vm_compute. reflexivity.
Defined.

Lemma failed_call_changes_nothing_witness :
  (register Scenarios.root ".foo" = (fst (register Scenarios.root ".foo"), None)
   /\ sameResolverState Scenarios.root (fst (register Scenarios.root ".foo")))
  /\ (exists s',
        _setValue 1 Scenarios.nested "a.b" ".button" "Text" "ru_ru" = Some (s', false)
        /\ sameResolverState Scenarios.nested s')
  /\ (exists s',
        use 1 Scenarios.halfCycle "settings" "autoSave.back_disabled"
          "control.button.back_off" = Some (s', false)
        /\ sameResolverState Scenarios.halfCycle s').
Proof.
  pose proof (@failed_call_changes_nothing string _) as (Hreg & Hset & Huse).
  split; [|split].
  - assert (H : register Scenarios.root ".foo"
                = (fst (register Scenarios.root ".foo"), None))
      by (vm_compute; reflexivity).
    split; [exact H|]. exact (proj1 (Hreg _ _ _ H)).
  - eexists. split; [vm_compute; reflexivity|].
    eapply (fun H => proj1 (Hset 1 Scenarios.nested "a.b" ".button" "Text" "ru_ru" _ H)).
    vm_compute. reflexivity.
  - eexists. split; [vm_compute; reflexivity|].
    eapply (fun H => proj1 (Huse 1 Scenarios.halfCycle "settings" "autoSave.back_disabled"
                              "control.button.back_off" _ H)).
    vm_compute. reflexivity.
Defined.

Lemma findValue_terminates_witness :
  let ctx := mkVisited None "a.x" ∅ false in
  length (borrowedPairs Scenarios.cyclic) < 3
  /\ findValue_fuel 3 Scenarios.cyclic "ru_ru" "a.x" ctx
     = Some (findValue Scenarios.cyclic "ru_ru" "a.x" ctx)
  /\ snd (findValue Scenarios.cyclic "ru_ru" "a.x" ctx) = None
  /\ error (snd (fst (findValue Scenarios.cyclic "ru_ru" "a.x" ctx))) = true.
Proof.
  intros ctx.
  assert (H : length (borrowedPairs Scenarios.cyclic) < 3) by (vm_compute; lia).
  split; [exact H|].
  split; [exact (proj1 (findValue_terminates Scenarios.cyclic "ru_ru" "a.x" None "a.x" 3 H))|].
  split; vm_compute; reflexivity.
Defined.

Lemma locale_fallback_order_witness :
  selectValue [("en", "Hello")] "fr" "en" = Some "Hello"
  /\ exists s,
       Impl.set 1 (fst (register (Impl.createInstance "fr" (Some "en") None) "app"))
         "app" "title" "Hello" "en" = Some (s, true)
       /\ _locale s = "fr" /\ _defaultLocale s = "en"
       /\ snd (getValue s (Some "app") "title") = "Hello".
Proof.
  pose proof locale_fallback_order as (_ & Hb & _ & _ & He).
  split.
  - apply (Hb string [("en", "Hello")] "fr" "en" "Hello"); [reflexivity|done|reflexivity].
  - apply (He 1 "Hello"); [reflexivity|apply le_n].
Defined.

Lemma findValue_first_match_wins_witness :
  let examine := findValue_loop (candidateValue 1 "ru_ru") in
  let c := mkVisited None "a.b.c" ∅ false in
  splitKeyByNamespace "a.b.c" = [("a", "b.c"); ("a.b", "c")]
  /\ exists c2,
       examine [] Scenarios.shadowed c = Some (Scenarios.shadowed, c, None)
       /\ examine [("a", "b.c")] Scenarios.shadowed c
          = Some (Scenarios.shadowed, c2, Some ("X", "a"))
       /\ examine ([] ++ ("a", "b.c") :: [("a.b", "c")]) Scenarios.shadowed c
          = Some (Scenarios.shadowed, c2, Some ("X", "a")).
Proof.
  intros examine c. split; [reflexivity|].
  pose proof (findValue_first_match_wins 1 Scenarios.shadowed "ru_ru" "a.b.c" c)
    as (_ & _ & _ & H4 & _).
  eexists. split; [reflexivity|]. split; [vm_compute; reflexivity|].
  eapply H4; [reflexivity|vm_compute; reflexivity].
Defined.

Lemma changeLocale_effects_witness :
  (_isSupportedLocale Scenarios.restricted "oh_no" = false
   /\ changeLocale Scenarios.restricted "oh_no"
      = (errorHandle (errorMessages.UnregisteredLocaleError "oh_no") Scenarios.restricted,
         "ru_ru"))
  /\ (_isSupportedLocale Scenarios.restricted "en_us" = true
      /\ _locale (fst (changeLocale Scenarios.restricted "en_us")) = "en_us"
      /\ _cache (fst (changeLocale Scenarios.restricted "en_us")) = ∅)
  /\ fst (changeLocale Scenarios.restricted "ru_ru") = Scenarios.restricted.
Proof.
  assert (H1 : _isSupportedLocale Scenarios.restricted "oh_no" = false)
    by (vm_compute; reflexivity).
  assert (H2 : _isSupportedLocale Scenarios.restricted "en_us" = true)
    by (vm_compute; reflexivity).
  assert (H3 : _isSupportedLocale Scenarios.restricted "ru_ru" = true)
    by (vm_compute; reflexivity).
  split; [|split].
  - split; [exact H1|].
    exact (proj1 (proj1 (changeLocale_effects Scenarios.restricted "oh_no") H1)).
  - split; [exact H2|].
    destruct (proj1 (proj2 (changeLocale_effects Scenarios.restricted "en_us")) H2)
      as (Ha & Hb & _); [done|]. by split.
  - exact (proj1 (proj2 (proj2 (changeLocale_effects Scenarios.restricted "ru_ru")))
             H3 eq_refl).
Defined.

Lemma falsy_value_is_not_found_witness :
  exists reg c,
    getRegistry Scenarios.falsy "app" = Some reg
    /\ JsMap.get "title" (_keyValue reg) = Some (Direct [("en", "Hello"); ("fr", EmptyString)])
    /\ truthy EmptyString = false /\ truthy "Hello" = true
    /\ _locale Scenarios.falsy = "fr" /\ _defaultLocale Scenarios.falsy = "en"
    /\ I18nRegistry_getValue (findValue_fuel 0) Scenarios.falsy "app" reg "fr" "title" c
       = Some (Scenarios.falsy, c, None)
    /\ snd (getValue Scenarios.falsy (Some "app") "title") = getDefaultValue.
Proof.
  eexists. exists (mkVisited (Some "app") "title" ∅ false).
  split; [vm_compute; reflexivity|]. split; [reflexivity|].
  split; [reflexivity|]. split; [reflexivity|].
  split; [reflexivity|]. split; [reflexivity|]. split; [|vm_compute; reflexivity].
  eapply (fun H1 H2 H3 => proj2 (falsy_value_is_not_found (findValue_fuel 0)
            Scenarios.falsy "app" _ "fr" "title" _ _ EmptyString H1 H2 H3));
    reflexivity.
Defined.

Lemma intersection_is_rejected_witness :
  reachable Scenarios.owning /\ reachable Scenarios.nested
  /\ reachable Scenarios.circular
  /\ (exists other key,
        register Scenarios.circular "a.b.c"
        = (errorHandle (errorMessages.IntersectionNsError "a.b.c" other key)
             Scenarios.circular, None))
  /\ (exists other key,
        register Scenarios.owning "a.b.c"
        = (errorHandle (errorMessages.IntersectionNsError "a.b.c" other key)
             Scenarios.owning, None))
  /\ _setValue 1 Scenarios.nested "a.b" "c" "Text" "ru_ru"
     = Some (errorHandle (errorMessages.IntersectionError (Some "a.b") "c" "a.b.c")
               Scenarios.nested, false)
  /\ exists e, code e = errorCodes.IntersectionError
               /\ use 1 Scenarios.nested "a.b" "c" "x.y"
                  = Some (errorHandle e Scenarios.nested, false).
Proof.
  split; [apply reachable_owning|]. split; [apply reachable_nested|].
  split; [apply reachable_circular|].
  pose proof (intersection_is_rejected Scenarios.circular reachable_circular) as (H0 & _).
  pose proof (intersection_is_rejected Scenarios.owning reachable_owning) as (H1 & _).
  pose proof (intersection_is_rejected Scenarios.nested reachable_nested) as (_ & H2 & H3).
  split; [|split; [|split]].
  - eapply (H0 "a.b" _ "c"); vm_compute; reflexivity.
  - eapply (H1 "a.b" _ "c"); vm_compute; reflexivity.
  - eapply (H2 1 "a.b" _ "c" "Text" "ru_ru"); [vm_compute; reflexivity|].
    vm_compute. by eexists.
  - eapply (H3 1 "a.b" _ "c" "x.y"); [vm_compute; reflexivity| | | | |].
    + vm_compute. by eexists.
    + reflexivity.
    + vm_compute. by eexists.
    + done.
    + vm_compute. reflexivity.
Defined.

(** The claim C7 as it was stated for [use] does not hold: on the
    registry [a.b], with [a.b.c] a registered namespace, borrowing the key
    [c] from the target ['x'] is rejected for the syntax of the target,
    with InvalidKeySyntax. *)
Lemma borrow_with_invalid_target_reports_key_error :
  ~ (forall fuel (s : SharedSingleton string) this k externalFullKey,
        reachable s ->
        is_Some (getRegistry s this) ->
        is_Some (getRegistry s (this +:+ dotS +:+ k)) ->
        exists e, code e = errorCodes.IntersectionError
                  /\ use fuel s this k externalFullKey = Some (errorHandle e s, false)).
Proof.
  intros H.
  destruct (H 1 Scenarios.nested "a.b" "c" "x" reachable_nested) as (e & He & Hu).
  - vm_compute. by eexists.
  - vm_compute. by eexists.
  - vm_compute in Hu. injection Hu as <-. simpl in He. discriminate He.
Qed.

End Witnesses.

(** ** More on path rules and options *)
Section PathFacts.
Import Base.

Lemma append_assoc (a b c : string) : (a +:+ b) +:+ c = a +:+ (b +:+ c).
Proof.
  induction a as [|x a IH]; [done|].
  change (String x ((a +:+ b) +:+ c) = String x (a +:+ (b +:+ c))). by rewrite IH.
Qed.

Lemma append_nil_r (a : string) : a +:+ EmptyString = a.
Proof.
  induction a as [|x a IH]; [done|].
  change (String x (a +:+ EmptyString) = String x a). by rewrite IH.
Qed.

Lemma append_length (a b : string) :
  String.length (a +:+ b) = String.length a + String.length b.
Proof.
  induction a as [|x a IH]; [done|].
  change (S (String.length (a +:+ b)) = S (String.length a + String.length b)).
  by rewrite IH.
Qed.

Lemma join_cons x (l : list string) : l <> [] -> join (x :: l) = x +:+ dotS +:+ join l.
Proof. by destruct l. Qed.

Lemma join_app (l1 l2 : list string) :
  l1 <> [] -> l2 <> [] -> join (l1 ++ l2) = join l1 +:+ dotS +:+ join l2.
Proof.
  intros H1 H2. induction l1 as [|x l1 IH]; [done|].
  destruct l1 as [|y l1].
  - simpl app. by rewrite join_cons.
  - change ((x :: y :: l1) ++ l2) with (x :: ((y :: l1) ++ l2)).
    rewrite join_cons by done. rewrite IH by done.
    rewrite (join_cons x (y :: l1)) by done. by rewrite !append_assoc.
Qed.

Lemma splitKeyByNamespace_elem fullKey ns k :
  (ns, k) ∈ splitKeyByNamespace fullKey -> fullKey = ns +:+ dotS +:+ k.
Proof.
  unfold splitKeyByNamespace, collectNamespaceKeyPairs.
  change (map ?f ?l) with (f <$> l).
  intros (i & [= -> ->] & Hi)%list_elem_of_fmap. apply elem_of_seq in Hi.
  rewrite <- join_app.
  - by rewrite take_drop, join_split.
  - intros H%(f_equal length). rewrite length_take in H. simpl in *. lia.
  - intros H%(f_equal length). rewrite length_drop in H. simpl in *. lia.
Qed.

(** X1: a path is accepted by [testNamespacePath] exactly when none of its
    dot-separated segments is empty. *)
Theorem testNamespacePath_iff_segments (name : string) :
  testNamespacePath name = true <-> Forall (fun seg => seg <> EmptyString) (split name).
Proof.
  rewrite testNamespacePath_segments, forallb_forall, Forall_forall.
  split; intros H seg Hin.
  - apply list_elem_of_In in Hin. specialize (H seg Hin). by destruct seg.
  - apply list_elem_of_In in Hin. specialize (H seg Hin). by destruct seg.
Qed.

(** X2: the candidate pairs of a full key are exactly the ways of writing
    it as a namespace, a dot and a key. *)
Theorem splitKeyByNamespace_iff (fullKey ns k : string) :
  (ns, k) ∈ splitKeyByNamespace fullKey <-> fullKey = ns +:+ dotS +:+ k.
Proof.
  split; [apply splitKeyByNamespace_elem|]. intros ->. apply splitKeyByNamespace_concat.
Qed.

(** X3: [splitKeyWithNamespace] gives the candidates of the full key that
    lie at or below the given namespace: the first is the namespace with
    the whole key, and there is one per segment of the key. *)
Theorem splitKeyWithNamespace_suffix (ns key : string) :
  isNonemptyString ns = true ->
  splitKeyWithNamespace (Some ns) key
  = drop (length (split ns) - 1) (splitKeyByNamespace (concatNamespaceWithKey (Some ns) key))
  /\ head (splitKeyWithNamespace (Some ns) key) = Some (ns, key)
  /\ length (splitKeyWithNamespace (Some ns) key) = length (split key).
Proof.
  intros Hns. unfold splitKeyWithNamespace. simpl concatNamespaceWithKey. rewrite Hns.
  pose proof (split_length_pos ns) as Hn. pose proof (split_length_pos key) as Hk.
  assert (Heq : collectNamespaceKeyPairs (split ns ++ split key) (length (split ns) - 1)
                = drop (length (split ns) - 1)
                    (splitKeyByNamespace (ns +:+ dotS +:+ key))).
  { unfold splitKeyByNamespace, collectNamespaceKeyPairs. rewrite split_concat.
    change (map ?f ?l) with (f <$> l). rewrite <- fmap_drop, drop_seq.
    f_equal. f_equal; rewrite ?length_app; lia. }
  split; [exact Heq|]. split.
  - rewrite head_lookup, collect_lookup by (rewrite length_app; lia).
    replace (length (split ns) - 1 + 1 + 0) with (length (split ns)) by lia.
    by rewrite take_app_length, drop_app_length, !join_split.
  - rewrite collect_length, length_app. lia.
Qed.

Lemma splitKeyWithNamespace_suffix_witness :
  isNonemptyString "settings.system" = true
  /\ splitKeyWithNamespace (Some "settings.system") "foo.bar.box"
     = drop (length (split "settings.system") - 1)
         (splitKeyByNamespace (concatNamespaceWithKey (Some "settings.system") "foo.bar.box"))
  /\ head (splitKeyWithNamespace (Some "settings.system") "foo.bar.box")
     = Some ("settings.system", "foo.bar.box")
  /\ length (splitKeyWithNamespace (Some "settings.system") "foo.bar.box")
     = length (split "foo.bar.box").
Proof.
  split; [reflexivity|].
  apply (splitKeyWithNamespace_suffix "settings.system" "foo.bar.box"). reflexivity.
Defined.

Lemma splitKeyIntoParts_candidates (fullKey : string) :
  splitKeyIntoParts fullKey = (fst <$> splitKeyByNamespace fullKey) ++ [fullKey].
Proof.
  unfold splitKeyIntoParts, splitKeyByNamespace, collectNamespaceKeyPairs.
  pose proof (split_length_pos fullKey) as Hn.
  destruct (length (split fullKey)) as [|n] eqn:Hlen; [lia|].
  change (map ?f ?l) with (f <$> l).
  rewrite seq_S, fmap_app, <- list_fmap_compose.
  replace (S n - (0 + 1)) with n by lia. f_equal.
  - apply list_eq. intros i. rewrite !list_lookup_fmap.
    destruct (decide (i < n)) as [Hi|Hi].
    + rewrite !lookup_seq_lt by done. simpl. by replace (i + 1) with (S i) by lia.
    + rewrite !lookup_seq_ge by lia. done.
  - simpl. replace (n + 1) with (length (split fullKey)) by lia.
    by rewrite firstn_all, join_split.
Qed.

Lemma splitKeyIntoParts_elem (k fullKey : string) :
  k ∈ splitKeyIntoParts fullKey <-> fullKey = k \/ exists r, fullKey = k +:+ dotS +:+ r.
Proof.
  rewrite splitKeyIntoParts_candidates, elem_of_app, list_elem_of_singleton,
    list_elem_of_fmap.
  split.
  - intros [([n r] & -> & Hin)| ->]; [right|by left].
    exists r. by apply splitKeyByNamespace_elem.
  - intros [-> |[r ->]]; [by right|left]. exists (k, r). split; [done|].
    apply splitKeyByNamespace_concat.
Qed.

(** X4: the parts of a key are the namespaces of its candidate pairs, in
    order, followed by the key itself; so a path is among the parts of a
    key exactly when it is the key or the key continues it after a dot. *)
Theorem splitKeyIntoParts_namespaces (fullKey : string) :
  splitKeyIntoParts fullKey = (fst <$> splitKeyByNamespace fullKey) ++ [fullKey]
  /\ forall k, k ∈ splitKeyIntoParts fullKey
               <-> fullKey = k \/ exists r, fullKey = k +:+ dotS +:+ r.
Proof. split; [apply splitKeyIntoParts_candidates|intros k; apply splitKeyIntoParts_elem]. Qed.

(** X5: under a non-empty namespace a full key is a valid path exactly
    when the namespace and the key are, and then every candidate pair of
    the full key consists of a valid namespace and a valid key. *)
Theorem full_key_valid_iff (ns key : string) :
  isNonemptyString ns = true ->
  (testNamespacePath (concatNamespaceWithKey (Some ns) key) = true
   <-> testNamespacePath ns = true /\ testNamespacePath key = true)
  /\ (testNamespacePath (concatNamespaceWithKey (Some ns) key) = true ->
      forall n k, (n, k) ∈ splitKeyByNamespace (concatNamespaceWithKey (Some ns) key) ->
                  testNamespacePath n = true /\ testNamespacePath k = true).
Proof.
  intros Hns. rewrite concat_Some by done. split.
  - by rewrite testNamespacePath_concat, andb_true_iff.
  - intros Hv n k Hin. apply splitKeyByNamespace_elem in Hin. rewrite Hin in Hv.
    by rewrite testNamespacePath_concat, andb_true_iff in Hv.
Qed.

Lemma full_key_valid_iff_witness :
  isNonemptyString "settings" = true
  /\ (testNamespacePath (concatNamespaceWithKey (Some "settings") "locale.ru") = true
      <-> testNamespacePath "settings" = true /\ testNamespacePath "locale.ru" = true).
Proof.
  split; [reflexivity|].
  apply (full_key_valid_iff "settings" "locale.ru"). reflexivity.
Defined.

(** X6: whatever the options, the default locale is the given non-empty
    one or else the locale; the locale and the default locale are always
    accepted; a non-empty list of locales accepts exactly its members and
    these two, an absent or empty list accepts everything; and a fresh
    instance changes to any accepted locale without reporting an error. *)
Theorem parseOptions_accepts (TValue : Type) (current : string)
    (fallback : option string) (locales : option (list string)) :
  let config := parseOptions current fallback locales in
  locale config = current
  /\ defaultLocale config
     = match fallback with
       | Some d => if isNonemptyString d then d else current
       | None => current
       end
  /\ isSupportedLocale config current = true
  /\ isSupportedLocale config (defaultLocale config) = true
  /\ (forall l, isSupportedLocale config l = true
                <-> match locales with
                    | Some (x :: ls) =>
                        l ∈ x :: ls \/ l = current \/ l = defaultLocale config
                    | _ => True
                    end)
  /\ (forall l, isSupportedLocale config l = true ->
                snd (changeLocale (create TValue config) l) = l
                /\ _errors (fst (changeLocale (create TValue config) l)) = []).
Proof.
  intros config. split; [done|]. split; [done|].
  assert (Hiff : forall l, isSupportedLocale config l = true
                <-> match locales with
                    | Some (x :: ls) =>
                        l ∈ x :: ls \/ l = current \/ l = defaultLocale config
                    | _ => True
                    end).
  { intros l. subst config. unfold parseOptions. cbn [isSupportedLocale defaultLocale].
    destruct locales as [[|x ls]|]; [done| |done].
    rewrite bool_decide_eq_true, !elem_of_union, elem_of_list_to_set, !elem_of_singleton.
    tauto. }
  split; [|split; [|split; [exact Hiff|]]].
  - apply Hiff. destruct locales as [[|x ls]|]; auto.
  - apply Hiff. destruct locales as [[|x ls]|]; auto.
  - intros l Hl. unfold changeLocale, create. cbn [_isSupportedLocale _locale].
    rewrite Hl. cbn [negb]. case_bool_decide; cbn; auto.
Qed.

End PathFacts.

(** ** Templates *)
Section Templates.
Import Spec.

Lemma append_cons c (a b : string) : String c a +:+ b = String c (a +:+ b).
Proof. reflexivity. Qed.

Lemma append_nil_l (a : string) : EmptyString +:+ a = a.
Proof. reflexivity. Qed.

Lemma spanNonBrace_spec s run rest :
  spanNonBrace s = (run, rest) ->
  s = run +:+ rest /\ braceFree run = true
  /\ match rest with String d _ => isBrace d = true | EmptyString => True end.
Proof.
  revert run rest. induction s as [|c s IH]; intros run rest; simpl.
  - by intros [= <- <-].
  - destruct (isBrace c) eqn:Hc.
    + by intros [= <- <-].
    + destruct (spanNonBrace s) as [run' rest']. intros [= <- <-].
      destruct (IH _ _ eq_refl) as (-> & Hrun & Hrest).
      by rewrite append_cons; simpl; rewrite Hc.
Qed.

Lemma spanNonBrace_app g rest :
  braceFree g = true ->
  match rest with String d _ => isBrace d = true | EmptyString => True end ->
  spanNonBrace (g +:+ rest) = (g, rest).
Proof.
  intros Hg Hrest. induction g as [|c g IH].
  - rewrite append_nil_l. destruct rest as [|d rest]; simpl; [done|]. by rewrite Hrest.
  - simpl in Hg. apply andb_true_iff in Hg as [Hc Hg]. rewrite append_cons. simpl.
    apply negb_true_iff in Hc. by rewrite Hc, IH.
Qed.

Lemma matchAt_spec s g rest :
  matchAt s = Some (g, rest) ->
  s = String openBrace (g +:+ String closeBrace rest)
  /\ isNonemptyString g = true /\ braceFree g = true.
Proof.
  destruct s as [|c s]; simpl; [done|].
  destruct (Ascii.eqb c openBrace) eqn:Hc; [|done]. apply Ascii.eqb_eq in Hc as ->.
  destruct (spanNonBrace s) as [run after] eqn:Hspan.
  apply spanNonBrace_spec in Hspan as (-> & Hrun & _).
  destruct run as [|x run]; [done|]. destruct after as [|d after]; [done|].
  destruct (Ascii.eqb d closeBrace) eqn:Hd; [|done]. apply Ascii.eqb_eq in Hd as ->.
  by intros [= <- <-].
Qed.

Lemma matchAt_braceFree s : braceFree s = true -> matchAt s = None.
Proof.
  destruct s as [|c s]; simpl; [done|]. intros [Hc _]%andb_true_iff.
  unfold isBrace in Hc. apply negb_true_iff, orb_false_iff in Hc as [-> _]. done.
Qed.

Lemma matchAt_group g rest :
  isNonemptyString g = true -> braceFree g = true ->
  matchAt (String openBrace (g +:+ String closeBrace rest)) = Some (g, rest).
Proof.
  intros Hne Hg. simpl. rewrite spanNonBrace_app by done.
  destruct g; [done|]. done.
Qed.

Lemma braceFree_app a b : braceFree (a +:+ b) = braceFree a && braceFree b.
Proof.
  induction a as [|c a IH]; [done|]. rewrite append_cons. simpl.
  by rewrite IH, andb_assoc.
Qed.

Lemma trimStart_skip s :
  trimStart s = match skipWhiteSpace s with Some r => trimStart r | None => s end.
Proof.
  destruct s as [|c1 [|c2 [|c3 r]]]; cbn [trimStart skipWhiteSpace]; try done.
  - by destruct (isWhiteSpace1 c1).
  - destruct (isWhiteSpace1 c1); [done|]. by destruct (isWhiteSpace2 c1 c2).
  - destruct (isWhiteSpace1 c1); [done|]. destruct (isWhiteSpace2 c1 c2); [done|].
    by destruct (isWhiteSpace3 c1 c2 c3).
Qed.

Lemma skipWhiteSpace_spec s r :
  skipWhiteSpace s = Some r ->
  exists w, s = w +:+ r /\ String.length r < String.length s.
Proof.
  destruct s as [|c1 [|c2 [|c3 r3]]]; cbn [skipWhiteSpace]; try done.
  - destruct (isWhiteSpace1 c1); [|done]. intros [= <-].
    exists (String c1 EmptyString). split; [done|simpl; lia].
  - destruct (isWhiteSpace1 c1).
    { intros [= <-]. exists (String c1 EmptyString). split; [done|simpl; lia]. }
    destruct (isWhiteSpace2 c1 c2); [|done]. intros [= <-].
    exists (String c1 (String c2 EmptyString)). split; [done|simpl; lia].
  - destruct (isWhiteSpace1 c1).
    { intros [= <-]. exists (String c1 EmptyString). split; [done|simpl; lia]. }
    destruct (isWhiteSpace2 c1 c2).
    { intros [= <-]. exists (String c1 (String c2 EmptyString)). split; [done|simpl; lia]. }
    destruct (isWhiteSpace3 c1 c2 c3); [|done]. intros [= <-].
    exists (String c1 (String c2 (String c3 EmptyString))). split; [done|simpl; lia].
Qed.

(** A white space character at the start of [s] is one at the start of
    [s +:+ t]. *)
Lemma skipWhiteSpace_app s r t :
  skipWhiteSpace s = Some r -> skipWhiteSpace (s +:+ t) = Some (r +:+ t).
Proof.
  destruct s as [|c1 [|c2 [|c3 r3]]]; cbn [skipWhiteSpace]; try done.
  - destruct (isWhiteSpace1 c1) eqn:H1; [|done]. intros [= <-].
    rewrite append_cons. cbn [skipWhiteSpace]. by rewrite H1.
  - destruct (isWhiteSpace1 c1) eqn:H1.
    { intros [= <-]. rewrite append_cons. cbn [skipWhiteSpace]. by rewrite H1. }
    destruct (isWhiteSpace2 c1 c2) eqn:H2; [|done]. intros [= <-].
    rewrite !append_cons. cbn [skipWhiteSpace]. by rewrite H1, H2.
  - destruct (isWhiteSpace1 c1) eqn:H1.
    { intros [= <-]. rewrite append_cons. cbn [skipWhiteSpace]. by rewrite H1. }
    destruct (isWhiteSpace2 c1 c2) eqn:H2.
    { intros [= <-]. rewrite !append_cons. cbn [skipWhiteSpace]. by rewrite H1, H2. }
    destruct (isWhiteSpace3 c1 c2 c3) eqn:H3; [|done]. intros [= <-].
    rewrite !append_cons. cbn [skipWhiteSpace]. by rewrite H1, H2, H3.
Qed.

(** [trimStart] drops a prefix and leaves a string that does not start
    with white space. *)
Lemma trimStart_spec s :
  (exists w, s = w +:+ trimStart s) /\ skipWhiteSpace (trimStart s) = None.
Proof.
  remember (String.length s) as n eqn:Hn. revert s Hn.
  induction n as [n IH] using lt_wf_ind. intros s ->.
  rewrite trimStart_skip. destruct (skipWhiteSpace s) as [r|] eqn:Hskip.
  - destruct (skipWhiteSpace_spec s r Hskip) as (w & -> & Hlen).
    destruct (IH _ Hlen r eq_refl) as [[w' Hw'] Hnone]. split; [|done].
    exists (w +:+ w'). by rewrite append_assoc, <- Hw'.
  - split; [|done]. by exists EmptyString.
Qed.

Lemma trimStart_fixed s : skipWhiteSpace s = None -> trimStart s = s.
Proof. intros H. by rewrite trimStart_skip, H. Qed.

Lemma trimStart_idemp s : trimStart (trimStart s) = trimStart s.
Proof. apply trimStart_fixed, trimStart_spec. Qed.

(** In front of a string, white space only makes no difference to
    [trimStart]. *)
Lemma trimStart_app s t : trimStart s = EmptyString -> trimStart (s +:+ t) = trimStart t.
Proof.
  remember (String.length s) as n eqn:Hn. revert s Hn.
  induction n as [n IH] using lt_wf_ind. intros s -> Hs.
  destruct s as [|c s']; [done|]. rewrite trimStart_skip in Hs.
  destruct (skipWhiteSpace (String c s')) as [r|] eqn:Hskip; [|done].
  rewrite trimStart_skip, (skipWhiteSpace_app _ _ t Hskip).
  destruct (skipWhiteSpace_spec _ _ Hskip) as (_ & _ & Hlen).
  by apply (IH _ Hlen r).
Qed.

(** [trimEnd] drops a suffix, which is white space only. *)
Lemma trimEnd_spec s : exists w, s = trimEnd s +:+ w /\ trimStart w = EmptyString.
Proof.
  induction s as [|c s IH]; [by exists EmptyString|]. cbn [trimEnd].
  destruct (trimStart (String c s)) as [|c' r'] eqn:Hs.
  - by exists (String c s).
  - destruct IH as (w & Hw & Hwhite). exists w. split; [|done].
    by rewrite append_cons, <- Hw.
Qed.

Lemma trimEnd_idemp s : trimEnd (trimEnd s) = trimEnd s.
Proof.
  induction s as [|c s IH]; [done|]. cbn [trimEnd].
  destruct (trimStart (String c s)) as [|c' r'] eqn:Hs; [done|]. cbn [trimEnd].
  destruct (trimStart (String c (trimEnd s))) as [|c2 r2] eqn:Hs'; [|by rewrite IH].
  destruct (trimEnd_spec s) as (w & Hw & Hwhite).
  rewrite Hw, <- append_cons, (trimStart_app _ w Hs'), Hwhite in Hs. done.
Qed.

Lemma trim_idemp s : trim (trim s) = trim s.
Proof.
  unfold trim. destruct (trimStart_spec s) as [_ Hnone].
  destruct (trimEnd_spec (trimStart s)) as (w & Hw & _).
  rewrite trimStart_fixed; [apply trimEnd_idemp|].
  destruct (skipWhiteSpace (trimEnd (trimStart s))) as [r|] eqn:Hskip; [|done].
  apply (skipWhiteSpace_app _ _ w) in Hskip. rewrite <- Hw in Hskip. congruence.
Qed.

(** U+00A0, U+3000 and U+FEFF are stripped around a name, and the byte A0
    that ends the letter U+00E0 (C3 A0) is not. *)
Example trim_white_space :
  trim (bytes [194; 160; 32; 110; 195; 160; 227; 128; 128; 9; 239; 187; 191])
  = bytes [110; 195; 160]
  /\ trim (bytes [195; 160]) = bytes [195; 160]
  /\ trim (bytes [226; 128; 168; 225; 154; 128; 226; 129; 159]) = EmptyString.
Proof. by repeat split. Qed.

Lemma braceFree_trimStart s : braceFree s = true -> braceFree (trimStart s) = true.
Proof.
  destruct (trimStart_spec s) as [[w Hw] _]. rewrite Hw at 1.
  rewrite braceFree_app. by intros [_ ?]%andb_true_iff.
Qed.

Lemma braceFree_trimEnd s : braceFree s = true -> braceFree (trimEnd s) = true.
Proof.
  destruct (trimEnd_spec s) as (w & Hw & _). rewrite Hw at 1.
  rewrite braceFree_app. by intros [? _]%andb_true_iff.
Qed.

Lemma braceFree_trim s : braceFree s = true -> braceFree (trim s) = true.
Proof. intros H. by apply braceFree_trimEnd, braceFree_trimStart. Qed.

Lemma scanTokens_tokenized fuel : forall pending s, tokenized (scanTokens fuel pending s).
Proof.
  induction fuel as [|fuel IH]; intros pending [|c s]; cbn [scanTokens]; try by constructor.
  destruct (matchAt (String c s)) as [[g rest]|] eqn:Hm; [|apply IH].
  destruct (isNonemptyString (trim g)) eqn:Hne; [|apply IH].
  apply matchAt_spec in Hm as (_ & _ & Hg).
  constructor; [done|by apply braceFree_trim|apply trim_idemp|apply IH].
Qed.

Lemma matchAt_length s g rest :
  matchAt s = Some (g, rest) -> String.length rest < String.length s.
Proof.
  intros (-> & _ & _)%matchAt_spec. simpl. rewrite append_length. simpl. lia.
Qed.

Lemma scanTokens_fuel fuel : forall fuel' pending s,
  String.length s <= fuel -> String.length s <= fuel' ->
  scanTokens fuel pending s = scanTokens fuel' pending s.
Proof.
  induction fuel as [|fuel IH]; intros fuel' pending [|c s] H1 H2;
    try (simpl in H1; lia); try by destruct fuel'.
  destruct fuel' as [|fuel']; [simpl in H2; lia|]. simpl in H1, H2.
  cbn [scanTokens].
  destruct (matchAt (String c s)) as [[g rest]|] eqn:Hm.
  - apply matchAt_length in Hm. simpl in Hm.
    destruct (isNonemptyString (trim g)); [do 2 f_equal|]; apply IH; lia.
  - apply IH; lia.
Qed.

Lemma scanTokens_pending fuel : forall pending s,
  scanTokens fuel pending s = prepend pending (scanTokens fuel EmptyString s).
Proof.
  induction fuel as [|fuel IH]; intros pending [|c s]; cbn [scanTokens];
    try (cbn; by rewrite ?append_nil_r).
  destruct (matchAt (String c s)) as [[g rest]|] eqn:Hm.
  - destruct (isNonemptyString (trim g)).
    + cbn. by rewrite append_nil_r.
    + rewrite IH. change (EmptyString +:+ ?x) with x. rewrite (IH (String openBrace _)).
      destruct (scanTokens fuel EmptyString rest) as [|t ts]; [done|].
      cbn. by rewrite append_assoc.
  - rewrite IH. change (EmptyString +:+ ?x) with x. rewrite (IH (String c _)).
    destruct (scanTokens fuel EmptyString s) as [|t ts]; [done|].
    cbn. by rewrite append_assoc.
Qed.

Lemma scanTokens_braceFree fuel : forall pending s,
  braceFree s = true -> scanTokens fuel pending s = [mkToken str (pending +:+ s)].
Proof.
  induction fuel as [|fuel IH]; intros pending [|c s] Hs; cbn [scanTokens];
    rewrite ?append_nil_r; try done.
  rewrite matchAt_braceFree by done. simpl in Hs. apply andb_true_iff in Hs as [_ Hs].
  rewrite IH by done. by rewrite append_assoc.
Qed.

Lemma scanTokens_text a : forall fuel pending s,
  braceFree a = true -> String.length (a +:+ s) <= fuel ->
  scanTokens fuel pending (a +:+ s) = scanTokens fuel (pending +:+ a) s.
Proof.
  induction a as [|c a IH]; intros fuel pending s Ha Hlen.
  - by rewrite append_nil_l, append_nil_r.
  - rewrite append_cons in *. simpl in Hlen.
    destruct fuel as [|fuel]; [lia|].
    simpl in Ha. apply andb_true_iff in Ha as [Hc Ha].
    assert (Hm : matchAt (String c (a +:+ s)) = None).
    { simpl. unfold isBrace in Hc. apply negb_true_iff, orb_false_iff in Hc as [-> _]. done. }
    transitivity (scanTokens fuel (pending +:+ String c a) s).
    + cbn [scanTokens]. rewrite Hm, IH by (done || lia). by rewrite append_assoc.
    + apply scanTokens_fuel; rewrite append_length in Hlen; lia.
Qed.

(** X7: the tokens of any template alternate between text and
    placeholders, start and end with a text token, and every placeholder
    name is non-empty, trimmed and free of braces. *)
Theorem templateToTokens_tokenized (template : string) :
  tokenized (templateToTokens template).
Proof. apply scanTokens_tokenized. Qed.

Lemma templateToTokens_plain (a : string) :
  braceFree a = true -> templateToTokens a = [mkToken str a].
Proof. intros Ha. unfold templateToTokens. by rewrite scanTokens_braceFree. Qed.

Lemma templateToTokens_group (a g b : string) :
  braceFree a = true -> braceFree g = true -> isNonemptyString (trim g) = true ->
  templateToTokens (a +:+ String openBrace (g +:+ String closeBrace b))
  = mkToken str a :: mkToken ph (trim g) :: templateToTokens b.
Proof.
  intros Ha Hg Hne. unfold templateToTokens. rewrite scanTokens_text by done.
  rewrite append_nil_l.
  rewrite append_length. cbn [String.length]. rewrite Nat.add_succ_r. cbn [scanTokens].
  assert (Hg' : isNonemptyString g = true) by (destruct g; done).
  rewrite matchAt_group, Hne by done. do 2 f_equal.
  apply scanTokens_fuel; rewrite ?append_length; simpl; lia.
Qed.

Lemma templateToTokens_blank (a g b : string) :
  braceFree a = true -> braceFree g = true -> isNonemptyString g = true ->
  trim g = EmptyString ->
  templateToTokens (a +:+ String openBrace (g +:+ String closeBrace b))
  = prepend (a +:+ String openBrace (g +:+ String closeBrace EmptyString))
      (templateToTokens b).
Proof.
  intros Ha Hg Hne Hblank. unfold templateToTokens. rewrite scanTokens_text by done.
  rewrite append_nil_l.
  rewrite append_length. cbn [String.length]. rewrite Nat.add_succ_r. cbn [scanTokens].
  rewrite matchAt_group, Hblank by done. cbn [isNonemptyString].
  rewrite scanTokens_pending. f_equal.
  apply scanTokens_fuel; rewrite ?append_length; simpl; lia.
Qed.

(** X8: a text without braces is a single text token; in front of a
    group [{g}] whose name is free of braces and not blank it becomes
    the text token before the placeholder [trim g], and the rest of the
    template is tokenized on its own; a blank group stays in the text. *)
Theorem templateToTokens_compose (a : string) :
  braceFree a = true ->
  templateToTokens a = [mkToken str a]
  /\ (forall g b,
        braceFree g = true -> isNonemptyString (trim g) = true ->
        templateToTokens (a +:+ String openBrace (g +:+ String closeBrace b))
        = mkToken str a :: mkToken ph (trim g) :: templateToTokens b)
  /\ (forall g b,
        braceFree g = true -> isNonemptyString g = true -> trim g = EmptyString ->
        templateToTokens (a +:+ String openBrace (g +:+ String closeBrace b))
        = prepend (a +:+ String openBrace (g +:+ String closeBrace EmptyString))
            (templateToTokens b)).
Proof.
  intros Ha. split; [by apply templateToTokens_plain|]. split.
  - intros g b. by apply templateToTokens_group.
  - intros g b. by apply templateToTokens_blank.
Qed.

Lemma templateToTokens_compose_witness :
  braceFree "Hello, " = true
  /\ templateToTokens "Hello, " = [mkToken str "Hello, "]
  /\ templateToTokens ("Hello, " +:+ String openBrace (" name " +:+ String closeBrace "!"))
     = mkToken str "Hello, " :: mkToken ph (trim " name ") :: templateToTokens "!"
  /\ trim (bytes [194; 160; 110; 195; 160; 227; 128; 128]) = bytes [110; 195; 160]
  /\ templateToTokens
       ("Hello, " +:+ String openBrace
                        (bytes [194; 160; 110; 195; 160; 227; 128; 128]
                         +:+ String closeBrace "!"))
     = mkToken str "Hello, "
         :: mkToken ph (trim (bytes [194; 160; 110; 195; 160; 227; 128; 128]))
         :: templateToTokens "!".
Proof.
  split; [reflexivity|].
  destruct (templateToTokens_compose "Hello, " eq_refl) as (H1 & H2 & _).
  split; [exact H1|]. split; [apply H2; reflexivity|]. split; [reflexivity|].
  apply H2; reflexivity.
Defined.

End Templates.

(** ** The emitter of events.ts *)
Section EmitterFacts.
Import EmitterClass.
Context {L : Type} `{EqDecision L}.
Implicit Types (e : Emitter L) (l : L).

Lemma spliceFirst_elem l xs x :
  NoDup xs -> x ∈ spliceFirst l xs <-> x ∈ xs /\ x <> l.
Proof.
  induction 1 as [|y xs Hy Hnd IH]; simpl.
  - set_solver.
  - destruct (decide (y = l)) as [->|Hne].
    + split; [|set_solver]. intros Hx. split; [set_solver|]. by intros ->.
    + rewrite !elem_of_cons, IH. split; [|tauto].
      intros [->|[? ?]]; auto.
Qed.

Lemma spliceFirst_NoDup l xs : NoDup xs -> NoDup (spliceFirst l xs).
Proof.
  induction 1 as [|y xs Hy Hnd IH]; simpl; [constructor|].
  destruct (decide (y = l)); [done|]. constructor; [|done].
  rewrite spliceFirst_elem by done. tauto.
Qed.

Lemma consistent_empty : consistent (@empty L).
Proof. split; [constructor|done]. Qed.

Lemma consistent_addOnce l e :
  consistent e -> l ∈ _listeners e -> consistent (_emitterAddOnce l e).
Proof.
  intros [Hnd Honce] Hl. unfold _emitterAddOnce.
  destruct (_listenersOnce e) as [once|] eqn:Ho.
  - destruct (Honce once eq_refl) as (Hne & Hndo & Hsub).
    unfold includes. case_bool_decide as Hin.
    + split; [done|]. by rewrite Ho.
    + split; [done|]. intros ? [= <-]. split; [by destruct once|]. split.
      * apply NoDup_app. split; [done|]. split; [|apply NoDup_singleton].
        intros x Hx ->%list_elem_of_singleton. done.
      * intros x [?| ->%list_elem_of_singleton]%elem_of_app; auto.
  - split; [done|]. intros ? [= <-]. split; [done|]. split; [apply NoDup_singleton|].
    by intros x ->%list_elem_of_singleton.
Qed.

Lemma removeOnce_spec l e :
  consistent e ->
  _listeners (_emitterRemoveOnce l e) = _listeners e
  /\ (forall x, x ∈ default [] (_listenersOnce (_emitterRemoveOnce l e))
                <-> x ∈ default [] (_listenersOnce e) /\ x <> l)
  /\ forall once, _listenersOnce (_emitterRemoveOnce l e) = Some once ->
                  once <> [] /\ NoDup once.
Proof.
  intros [Hnd Honce]. unfold _emitterRemoveOnce.
  destruct (_listenersOnce e) as [once|] eqn:Ho.
  - destruct (Honce once eq_refl) as (Hne & Hndo & Hsub).
    pose proof (spliceFirst_elem l once) as Hel.
    pose proof (spliceFirst_NoDup l once Hndo) as Hnd'.
    destruct (spliceFirst l once) as [|y rest]; simpl.
    + split; [done|]. split; [|done]. intros x. rewrite <- Hel by done. done.
    + split; [done|]. split; [intros x; by rewrite <- Hel|]. by intros ? [= <-].
  - rewrite ?Ho; simpl. split; [done|]. split; [set_solver|done].
Qed.

Lemma consistent_removeOnce l e : consistent e -> consistent (_emitterRemoveOnce l e).
Proof.
  intros He. destruct (removeOnce_spec l e He) as (Hl & Hel & Hshape).
  destruct He as [Hnd Honce]. split; [by rewrite Hl|].
  intros once Ho. destruct (Hshape once Ho) as [? ?]. split; [done|]. split; [done|].
  intros x Hx. rewrite Hl. specialize (Hel x). rewrite Ho in Hel. simpl in Hel.
  apply Hel in Hx as [Hx _]. destruct (_listenersOnce e) as [o|] eqn:Ho'; [|set_solver].
  by apply (Honce o eq_refl).
Qed.

Lemma consistent_push l e :
  consistent e -> l ∉ _listeners e ->
  consistent (mkEmitter (_listeners e ++ [l]) (_listenersOnce e)).
Proof.
  intros [Hnd Honce] Hl. split; simpl.
  - apply NoDup_app. split; [done|]. split; [|apply NoDup_singleton].
    by intros x Hx ->%list_elem_of_singleton.
  - intros once Ho. destruct (Honce once Ho) as (? & ? & Hsub).
    split; [done|]. split; [done|]. intros x Hx. apply elem_of_app. auto.
Qed.

Lemma consistent_on l once e : consistent e -> consistent (on l once e).
Proof.
  intros He. unfold on, includes. case_bool_decide as Hin; simpl.
  - destruct once; [apply consistent_addOnce; [done|]|by apply consistent_removeOnce].
    done.
  - pose proof (consistent_push l e He Hin) as He'.
    destruct once; [|done]. apply consistent_addOnce; [done|]. simpl. set_solver.
Qed.

Lemma consistent_splice l e :
  consistent e ->
  consistent (_emitterRemoveOnce l (mkEmitter (spliceFirst l (_listeners e)) (_listenersOnce e))).
Proof.
  intros [Hnd Honce]. unfold _emitterRemoveOnce. simpl.
  pose proof (spliceFirst_NoDup l _ Hnd) as Hnd'.
  destruct (_listenersOnce e) as [once|] eqn:Ho.
  - destruct (Honce once eq_refl) as (Hne & Hndo & Hsub).
    pose proof (spliceFirst_elem l once) as Hel.
    pose proof (spliceFirst_NoDup l once Hndo) as Hndo'.
    destruct (spliceFirst l once) as [|y rest]; simpl.
    + split; [done|]. done.
    + split; [done|]. intros ? [= <-]. split; [done|]. split; [done|].
      intros x Hx. apply Hel in Hx as [Hx Hxl]; [|done].
      apply spliceFirst_elem; auto.
  - split; simpl; done.
Qed.

Lemma consistent_off l e : consistent e -> consistent (off l e).
Proof.
  intros He. unfold off, includes. case_bool_decide; [|done]. by apply consistent_splice.
Qed.

Lemma consistent_emit e : consistent e -> consistent (snd (emit e)).
Proof.
  intros [Hnd Honce]. unfold emit. destruct (_listenersOnce e) as [once|] eqn:Ho; simpl.
  - split; simpl; [|done]. by apply NoDup_ListNoDup, List.NoDup_filter, NoDup_ListNoDup.
  - split; [done|]. by rewrite Ho.
Qed.

Lemma consistent_call e c : consistent e -> consistent (call e c).
Proof.
  destruct c; simpl; auto using consistent_on, consistent_off, consistent_emit.
Qed.

(** X9: whatever sequence of [on], [off] and [emit] is applied to a new
    emitter, no listener is registered twice, and the one-shot list is
    null or a non-empty list, without repetition, of registered
    listeners. *)
Theorem emitter_consistent (calls : list (TCall L)) : consistent (run calls).
Proof.
  unfold run. induction calls as [|c calls IH] using rev_ind.
  - apply consistent_empty.
  - rewrite foldl_app. simpl. by apply consistent_call.
Qed.

Lemma addOnce_spec l e :
  _listeners (_emitterAddOnce l e) = _listeners e
  /\ forall x, x ∈ default [] (_listenersOnce (_emitterAddOnce l e))
               <-> x ∈ default [] (_listenersOnce e) \/ x = l.
Proof.
  unfold _emitterAddOnce. destruct (_listenersOnce e) as [once|] eqn:Ho; simpl.
  - unfold includes. case_bool_decide as Hin; simpl.
    + split; [done|]. rewrite ?Ho; simpl. intros x. split; [auto|]. by intros [?| ->].
    + split; [done|]. intros x. rewrite elem_of_app, list_elem_of_singleton. done.
  - split; [done|]. intros x. rewrite list_elem_of_singleton, elem_of_nil. tauto.
Qed.

Lemma on_spec l once e :
  consistent e ->
  (forall x, x ∈ _listeners (on l once e) <-> x ∈ _listeners e \/ x = l)
  /\ (forall x, x ∈ default [] (_listenersOnce (on l once e))
                <-> (x ∈ default [] (_listenersOnce e) /\ x <> l) \/ (x = l /\ once = true)).
Proof.
  intros He. assert (Hdec : forall x, x = l \/ x <> l) by (intros x; destruct (decide (x = l)); auto).
  assert (Hsub : forall x, x ∈ default [] (_listenersOnce e) -> x ∈ _listeners e).
  { destruct He as [_ Honce]. destruct (_listenersOnce e) as [o|]; simpl; [|by intros x ?%elem_of_nil].
    apply (Honce o eq_refl). }
  unfold on, includes. case_bool_decide as Hin; simpl.
  - destruct once.
    + destruct (addOnce_spec l e) as [-> Hel]. split.
      * intros x. split; [auto|]. by intros [?| ->].
      * intros x. rewrite Hel. destruct (Hdec x); tauto.
    + destruct (removeOnce_spec l e He) as (-> & Hel & _). split.
      * intros x. split; [auto|]. by intros [?| ->].
      * intros x. rewrite Hel. split; [auto|]. by intros [?|[_ ?]].
  - assert (Hnot : l ∉ default [] (_listenersOnce e)) by (intros ?; auto).
    destruct once.
    + destruct (addOnce_spec l (mkEmitter (_listeners e ++ [l]) (_listenersOnce e)))
        as [-> Hel]. simpl in *. split.
      * intros x. by rewrite elem_of_app, list_elem_of_singleton.
      * intros x. rewrite Hel. split.
        -- intros [Hx| ->]; [left|by right]. split; [done|]. by intros ->.
        -- intros [[? _]|[-> _]]; auto.
    + simpl. split.
      * intros x. by rewrite elem_of_app, list_elem_of_singleton.
      * intros x. split.
        -- intros Hx. left. split; [done|]. by intros ->.
        -- by intros [[? _]|[_ ?]].
Qed.

Lemma off_spec l e :
  consistent e ->
  (forall x, x ∈ _listeners (off l e) <-> x ∈ _listeners e /\ x <> l)
  /\ (forall x, x ∈ default [] (_listenersOnce (off l e))
                <-> x ∈ default [] (_listenersOnce e) /\ x <> l).
Proof.
  intros He. pose proof He as [Hnd Honce].
  assert (Hsub : forall x, x ∈ default [] (_listenersOnce e) -> x ∈ _listeners e).
  { destruct (_listenersOnce e) as [o|]; simpl; [|by intros x ?%elem_of_nil].
    apply (Honce o eq_refl). }
  unfold off, includes. case_bool_decide as Hin.
  - unfold _emitterRemoveOnce. simpl.
    destruct (_listenersOnce e) as [once|] eqn:Ho; simpl.
    + destruct (Honce once eq_refl) as (_ & Hndo & _).
      pose proof (spliceFirst_elem l once) as Hel.
      destruct (spliceFirst l once) as [|y rest]; simpl.
      * split; [intros x; by apply spliceFirst_elem|]. intros x. by rewrite <- Hel.
      * split; [intros x; by apply spliceFirst_elem|]. intros x. by rewrite <- Hel.
    + rewrite ?Ho; simpl. split; [intros x; by apply spliceFirst_elem|].
      intros x. rewrite elem_of_nil. tauto.
  - split.
    + intros x. split; [|tauto]. intros Hx. split; [done|]. by intros ->.
    + intros x. split; [|tauto]. intros Hx. split; [done|]. intros ->. auto.
Qed.

Lemma emit_spec e :
  consistent e ->
  fst (emit e) = _listeners e
  /\ NoDup (fst (emit e))
  /\ _listenersOnce (snd (emit e)) = None
  /\ (forall l, l ∈ _listeners (snd (emit e))
                <-> l ∈ _listeners e /\ l ∉ default [] (_listenersOnce e))
  /\ emit (snd (emit e)) = (_listeners (snd (emit e)), snd (emit e)).
Proof.
  intros [Hnd Honce]. unfold emit.
  destruct (_listenersOnce e) as [once|] eqn:Ho; simpl.
  - split; [done|]. split; [done|]. split; [done|]. split; [|done].
    intros l. rewrite (list_elem_of_In (List.filter _ _)), filter_In, <- list_elem_of_In.
    unfold includes.
    rewrite negb_true_iff, bool_decide_eq_false. tauto.
  - rewrite ?Ho. split; [done|]. split; [done|]. split; [done|]. split; [|done].
    intros l. simpl. rewrite elem_of_nil. tauto.
Qed.

(** X10: on a consistent emitter, [emit] calls exactly the registered
    listeners, each once and in the order of registration; afterwards the
    one-shot list is null, a listener stays registered exactly when it was
    not one-shot, and a second [emit] leaves the emitter as it is. *)
Theorem emit_delivers (e : Emitter L) :
  consistent e ->
  fst (emit e) = _listeners e
  /\ NoDup (fst (emit e))
  /\ _listenersOnce (snd (emit e)) = None
  /\ (forall l, l ∈ _listeners (snd (emit e))
                <-> l ∈ _listeners e /\ l ∉ default [] (_listenersOnce e))
  /\ emit (snd (emit e)) = (_listeners (snd (emit e)), snd (emit e)).
Proof. apply emit_spec. Qed.

(** X11: on a consistent emitter, a listener subscribed with [once] is
    called by the next [emit] and is gone after it; subscribed without
    [once] it is called and stays, even when it was one-shot before; and
    after [off] it is neither registered nor one-shot, while every other
    listener is registered as before. *)
Theorem subscription_lifetime (e : Emitter L) (l : L) :
  consistent e ->
  (l ∈ fst (emit (on l true e)) /\ l ∉ _listeners (snd (emit (on l true e))))
  /\ (l ∈ fst (emit (on l false e)) /\ l ∈ _listeners (snd (emit (on l false e))))
  /\ ((l ∉ _listeners (off l e)) /\ (l ∉ default [] (_listenersOnce (off l e)))
      /\ forall l', l' <> l -> (l' ∈ _listeners (off l e) <-> l' ∈ _listeners e)).
Proof.
  intros He. split; [|split].
  - pose proof (consistent_on l true e He) as He'.
    destruct (emit_spec _ He') as (-> & _ & _ & Hstay & _).
    destruct (on_spec l true e He) as [Hreg Honce]. rewrite Hstay, Hreg, Honce.
    split; [by right|]. intros [_ []]. right. done.
  - pose proof (consistent_on l false e He) as He'.
    destruct (emit_spec _ He') as (-> & _ & _ & Hstay & _).
    destruct (on_spec l false e He) as [Hreg Honce]. rewrite Hstay, Hreg, Honce.
    split; [by right|]. split; [by right|]. by intros [[_ ?]|[_ ?]].
  - destruct (off_spec l e He) as [Hreg Honce]. rewrite Hreg, Honce.
    split; [tauto|]. split; [tauto|]. intros l' Hne. rewrite Hreg. tauto.
Qed.

End EmitterFacts.

Lemma emit_delivers_witness :
  EmitterClass.consistent (EmitterClass.run [EmitterClass.CallOn 1 true; EmitterClass.CallOn 2 false])
  /\ fst (EmitterClass.emit
            (EmitterClass.run [EmitterClass.CallOn 1 true; EmitterClass.CallOn 2 false]))
     = [1; 2]
  /\ EmitterClass._listeners
       (snd (EmitterClass.emit
               (EmitterClass.run [EmitterClass.CallOn 1 true; EmitterClass.CallOn 2 false])))
     = [2].
Proof.
  assert (H : EmitterClass.consistent
                (EmitterClass.run [EmitterClass.CallOn 1 true; EmitterClass.CallOn 2 false])).
  { split; [by repeat constructor; set_solver|].
    intros once [= <-]. split; [done|]. split; [apply NoDup_singleton|]. set_solver. }
  split; [exact H|].
  destruct (emit_delivers _ H) as (H1 & _). split; [|reflexivity].
  rewrite H1. reflexivity.
Defined.

Lemma subscription_lifetime_witness :
  EmitterClass.consistent (EmitterClass.run [EmitterClass.CallOn 1 true; EmitterClass.CallOn 2 false])
  /\ 1 ∉ EmitterClass._listeners
           (EmitterClass.off 1
              (EmitterClass.run [EmitterClass.CallOn 1 true; EmitterClass.CallOn 2 false])).
Proof.
  assert (H : EmitterClass.consistent
                (EmitterClass.run [EmitterClass.CallOn 1 true; EmitterClass.CallOn 2 false])).
  { split; [by repeat constructor; set_solver|].
    intros once [= <-]. split; [done|]. split; [apply NoDup_singleton|]. set_solver. }
  split; [exact H|].
  destruct (subscription_lifetime _ 1 H) as (_ & _ & H3 & _). exact H3.
Defined.

(** ** Registration, ownership and notifications *)
Section Ownership.
Import Base Spec.
Context {TValue : Type} `{Ops : TValueOps TValue}.
Implicit Types (s : SharedSingleton TValue) (c : TVisitedI18n).

Lemma getRegistry_with_namespaces s m n :
  getRegistry (with_namespaces m s) n = match m !! n with Some e => registry e | None => None end.
Proof. reflexivity. Qed.

Lemma register_outcome s fullNamespace s' r :
  register s fullNamespace = (s', Some r) ->
  r = fullNamespace
  /\ is_Some (getRegistry s' fullNamespace)
  /\ register s' fullNamespace = (s', Some fullNamespace)
  /\ (forall n, n <> fullNamespace -> getRegistry s' n = getRegistry s n)
  /\ (is_Some (getRegistry s fullNamespace) -> s' = s)
  /\ (getRegistry s fullNamespace = None ->
      testNamespacePath fullNamespace = true
      /\ getRegistry s' fullNamespace = Some (mkRegistry [] ∅)
      /\ _errorKeys s' = _errorKeys s ∖ {[fullNamespace]}
      /\ _cache s' = _cache s /\ _events s' = _events s
      /\ _errors s' = _errors s /\ _published s' = _published s).
Proof.
  unfold register. rewrite getRegistry_bind.
  destruct (getRegistry s fullNamespace) as [reg|] eqn:Hreg.
  - intros [= <- <-]. rewrite getRegistry_bind, Hreg.
    split; [done|]. split; [by eexists|]. split; [done|]. split; [done|]. split; done.
  - destruct (testNamespacePath fullNamespace) eqn:Hpath; simpl; [|done].
    destruct (register_scan s (splitKeyByNamespace fullNamespace)) as [[o k]|]; [done|].
    intros [= <- <-].
    assert (Hnew : getRegistry
                     (with_namespaces
                        (<[fullNamespace :=
                             match _namespaces s !! fullNamespace with
                             | Some e => mkNamespace (Some (mkRegistry [] ∅)) (i18n e)
                             | None => mkNamespace (Some (mkRegistry [] ∅)) false
                             end]> (_namespaces s))
                        (with_errorKeys (_errorKeys s ∖ {[fullNamespace]}) s)) fullNamespace
                   = Some (mkRegistry [] ∅)).
    { rewrite getRegistry_with_namespaces. cbn [_namespaces with_errorKeys].
      rewrite lookup_insert_eq. by destruct (_namespaces s !! fullNamespace). }
    split; [done|]. split; [by rewrite Hnew|]. split; [by rewrite getRegistry_bind, Hnew|].
    split; [|split; [by intros [? ?]|done]].
    intros n Hn. rewrite getRegistry_with_namespaces. cbn [_namespaces with_errorKeys].
    by rewrite lookup_insert_ne.
Qed.

(** X12: a successful [register] returns the namespace it was given and
    leaves a registry there; repeating it changes nothing; no other
    namespace is touched; an existing registry is returned as it is, and a
    new one is empty, on a well-formed path, with the namespace taken out
    of the unresolved keys and nothing else changed. *)
Theorem register_success s fullNamespace s' r :
  register s fullNamespace = (s', Some r) ->
  r = fullNamespace
  /\ is_Some (getRegistry s' fullNamespace)
  /\ register s' fullNamespace = (s', Some fullNamespace)
  /\ (forall n, n <> fullNamespace -> getRegistry s' n = getRegistry s n)
  /\ (is_Some (getRegistry s fullNamespace) -> s' = s)
  /\ (getRegistry s fullNamespace = None ->
      testNamespacePath fullNamespace = true
      /\ getRegistry s' fullNamespace = Some (mkRegistry [] ∅)
      /\ _errorKeys s' = _errorKeys s ∖ {[fullNamespace]}
      /\ _cache s' = _cache s /\ _events s' = _events s
      /\ _errors s' = _errors s /\ _published s' = _published s).
Proof. apply register_outcome. Qed.

Lemma hasFullKey_false s fullKey :
  hasFullKey s fullKey = false <->
  forall n k reg, (n, k) ∈ splitKeyByNamespace fullKey -> getRegistry s n = Some reg ->
                  JsMap.get k (_keyValue reg) = None.
Proof.
  unfold hasFullKey. rewrite <- not_true_iff_false, existsb_exists. split.
  - intros Hno n k reg Hin Hreg. destruct (JsMap.get k (_keyValue reg)) as [e|] eqn:Hget; [|done].
    exfalso. apply Hno. exists (n, k). split; [by apply list_elem_of_In|].
    simpl. rewrite Hreg. unfold hasKey, JsMap.has. by rewrite Hget.
  - intros Hall ([n k] & Hin%list_elem_of_In & Hhas). simpl in Hhas.
    destruct (getRegistry s n) as [reg|] eqn:Hreg; [|done].
    unfold hasKey, JsMap.has in Hhas. by rewrite (Hall n k reg Hin Hreg) in Hhas.
Qed.

(** X13: [hasFullKey] holds exactly when the full key can be written as
    a registered namespace, a dot and a key that the registry of that
    namespace owns, directly or borrowed. *)
Theorem hasFullKey_iff s fullKey :
  hasFullKey s fullKey = true <->
  exists n k reg e, fullKey = n +:+ dotS +:+ k /\ getRegistry s n = Some reg
                    /\ JsMap.get k (_keyValue reg) = Some e.
Proof.
  unfold hasFullKey. rewrite existsb_exists. split.
  - intros ([n k] & Hin%list_elem_of_In & Hhas). simpl in Hhas.
    destruct (getRegistry s n) as [reg|] eqn:Hreg; [|done].
    unfold hasKey, JsMap.has in Hhas.
    destruct (JsMap.get k (_keyValue reg)) as [e|] eqn:Hget; [|done].
    exists n, k, reg, e. split; [|done]. by apply splitKeyByNamespace_elem.
  - intros (n & k & reg & e & -> & Hreg & Hget). exists (n, k).
    split; [apply list_elem_of_In, splitKeyByNamespace_concat|].
    simpl. rewrite Hreg. unfold hasKey, JsMap.has. by rewrite Hget.
Qed.

Lemma findValue_loop_unowned (g : SharedSingleton TValue -> string -> I18nRegistry TValue
                                   -> string -> TVisitedI18n -> option (TSearch TValue)) l :
  forall s c r,
    (forall s n reg k c, JsMap.get k (_keyValue reg) = None -> g s n reg k c = Some (s, c, None)) ->
    (forall n k reg, (n, k) ∈ l -> getRegistry s n = Some reg ->
                     JsMap.get k (_keyValue reg) = None) ->
    findValue_loop g l s c = Some r -> snd r = None.
Proof.
  induction l as [|[n k] l IH]; intros s c r Hg Hall; simpl.
  - by intros [= <-].
  - assert (Hrest : forall s', _namespaces s' = _namespaces s ->
                      forall n k reg, (n, k) ∈ l -> getRegistry s' n = Some reg ->
                                      JsMap.get k (_keyValue reg) = None).
    { intros s' Hs' n' k' reg' Hin Hreg'. apply (Hall n' k' reg'); [by right|].
      unfold getRegistry in *. by rewrite <- Hs'. }
    destruct (getRegistry s n) as [reg|] eqn:Hreg.
    + destruct (visit n k c) as [c'|].
      * rewrite (Hg s n reg k c') by (apply (Hall n k reg); [by left|done]).
        apply IH; [done|]. by apply Hrest.
      * apply IH; [done|]. by apply Hrest.
    + apply IH; [done|]. by apply Hrest.
Qed.

Lemma findValue_unowned s locale fullKey c :
  hasFullKey s fullKey = false -> snd (findValue s locale fullKey c) = None.
Proof.
  intros Hno. rewrite hasFullKey_false in Hno.
  pose proof (findValue_fuel_findValue s locale fullKey c (S (length (borrowedPairs s)))
                ltac:(lia)) as Hrun.
  cbn [findValue_fuel] in Hrun. eapply findValue_loop_unowned; [|exact Hno|exact Hrun].
  intros s0 n reg k c0 Hget. unfold I18nRegistry_getValue. by rewrite Hget.
Qed.

(** X14: a full key that no registry on its path owns, and that is not
    in the cache, resolves to the default value; the call marks it as
    unresolved and leaves the cache and the namespaces as they were. *)
Theorem unowned_key_is_unresolved s namespace key :
  hasFullKey s (concatNamespaceWithKey namespace key) = false ->
  _cache s !! concatNamespaceWithKey namespace key = None ->
  snd (getValue s namespace key) = getDefaultValue
  /\ concatNamespaceWithKey namespace key ∈ _errorKeys (fst (getValue s namespace key))
  /\ _cache (fst (getValue s namespace key)) = _cache s
  /\ _namespaces (fst (getValue s namespace key)) = _namespaces s.
Proof.
  intros Hno Hcache. unfold getValue. rewrite Hcache. unfold _handleKey.
  case_bool_decide as Herr; [done|].
  pose proof (findValue_unowned s (_locale s) (concatNamespaceWithKey namespace key)
                (mkVisited namespace key ∅ false) Hno) as Hval.
  pose proof (findValue_searched s (_locale s) (concatNamespaceWithKey namespace key)
                (mkVisited namespace key ∅ false)) as (errs & Hs & _).
  destruct (findValue s (_locale s) (concatNamespaceWithKey namespace key)
              (mkVisited namespace key ∅ false)) as [[s1 c1] v]. simpl in Hval, Hs. subst v s1.
  destruct (error c1); simpl; (split; [done|]); (split; [set_solver|done]).
Qed.


(** The effect of a notification on the state: unresolved keys are only
    removed and notifications are only appended. *)
Lemma Emitter_emit_rel (R : SharedSingleton TValue -> SharedSingleton TValue -> Prop)
    call listeners value :
  (forall s, R s s) -> (forall s1 s2 s3, R s1 s2 -> R s2 s3 -> R s1 s3) ->
  (forall l v s s', call l v s = Some s' -> R s s') ->
  forall s, R s (Emitter_emit call listeners value s).
Proof.
  intros Hrefl Htrans Hcall. induction listeners as [|l ls IH]; intros s; simpl; [done|].
  destruct (call l value s) as [s1|] eqn:H1; [|apply IH].
  eapply Htrans; [by eapply Hcall|apply IH].
Qed.

Lemma emitKey_scopes_rel (R : SharedSingleton TValue -> SharedSingleton TValue -> Prop)
    call affected :
  (forall s, R s s) -> (forall s1 s2 s3, R s1 s2 -> R s2 s3 -> R s1 s3) ->
  (forall e s, R s (publish e s)) ->
  (forall l v s s', call l v s = Some s' -> R s s') ->
  forall s, R s (emitKey_scopes call affected s).
Proof.
  intros Hrefl Htrans Hpub Hcall. induction affected as [|[n k] l IH]; intros s; simpl; [done|].
  eapply Htrans; [apply (Hpub (EvKey (Some n) k))|].
  eapply Htrans; [|apply IH]. by apply Emitter_emit_rel.
Qed.

Lemma unmarks_refl s : unmarks s s.
Proof. split; [done|]. exists []. by rewrite app_nil_r. Qed.

Lemma unmarks_trans s1 s2 s3 : unmarks s1 s2 -> unmarks s2 s3 -> unmarks s1 s3.
Proof.
  intros [H1 [e1 P1]] [H2 [e2 P2]]. split; [set_solver|].
  exists (e1 ++ e2). by rewrite P2, P1, app_assoc.
Qed.

Lemma unmarks_publish e s : unmarks s (publish e s).
Proof. split; [done|]. by exists [e]. Qed.

Lemma changeKey_unmarks_rel fuel : forall namespace key s s',
  changeKey fuel namespace key s = Some s' -> unmarks s s'.
Proof.
  induction fuel as [|fuel IH]; intros namespace key s s'; [done|].
  cbn [changeKey]. unfold emitKey. intros [= <-].
  eapply unmarks_trans; [|apply (emitKey_scopes_rel unmarks);
    [apply unmarks_refl|apply unmarks_trans|apply unmarks_publish|]].
  - split; [cbn; set_solver|]. by exists [EvKey None (concatNamespaceWithKey (Some namespace) key)].
  - intros l v s0 s1. cbv beta. destruct (decide (v = lsPartKey l)); [apply IH|].
    intros [= <-]. apply unmarks_refl.
Qed.

(** A notification that is entered returns. *)
Lemma changeKey_returns fuel namespace key s :
  1 <= fuel -> is_Some (changeKey fuel namespace key s).
Proof. destruct fuel as [|fuel]; [lia|]. intros _. by eexists. Qed.

(** A notification that settles within [fuel] is what [changeKey] does
    with that much room on the stack, and with any more. *)
Lemma settleListeners_emit
    (call call' : TListenerKey -> string -> SharedSingleton TValue
                  -> option (SharedSingleton TValue)) listeners value :
  (forall l v s s', call l v s = Some s' -> call' l v s = Some s') ->
  forall s s', settleListeners call listeners value s = Some s' ->
               Emitter_emit call' listeners value s = s'.
Proof.
  intros Hcall. induction listeners as [|l ls IH]; intros s s'; simpl; [by intros [= <-]|].
  destruct (call l value s) as [s1|] eqn:H1; [|done].
  rewrite (Hcall _ _ _ _ H1). apply IH.
Qed.

Lemma settleScopes_emit
    (call call' : TListenerKey -> string -> SharedSingleton TValue
                  -> option (SharedSingleton TValue)) affected :
  (forall l v s s', call l v s = Some s' -> call' l v s = Some s') ->
  forall s s', settleScopes call affected s = Some s' ->
               emitKey_scopes call' affected s = s'.
Proof.
  intros Hcall. induction affected as [|[n k] l IH]; intros s s'; simpl; [by intros [= <-]|].
  destruct (settleListeners call _ _ _) as [s1|] eqn:H1; [|done].
  rewrite (settleListeners_emit call call' _ _ Hcall _ _ H1). apply IH.
Qed.

Lemma settled_changeKey fuel : forall namespace key s s',
  settled fuel namespace key s = Some s' -> changeKey fuel namespace key s = Some s'.
Proof.
  induction fuel as [|fuel IH]; intros namespace key s s'; [done|].
  cbn [settled changeKey]. unfold emitKey. intros Hrun. f_equal.
  eapply settleScopes_emit; [|exact Hrun]. intros l v s0 s1. cbv beta.
  destruct (decide (v = lsPartKey l)); [apply IH|done].
Qed.

Lemma settleListeners_mono
    (call call' : TListenerKey -> string -> SharedSingleton TValue
                  -> option (SharedSingleton TValue)) listeners value :
  (forall l v s s', call l v s = Some s' -> call' l v s = Some s') ->
  forall s s', settleListeners call listeners value s = Some s' ->
               settleListeners call' listeners value s = Some s'.
Proof.
  intros Hcall. induction listeners as [|l ls IH]; intros s s'; simpl; [done|].
  destruct (call l value s) as [s1|] eqn:H1; [|done].
  rewrite (Hcall _ _ _ _ H1). apply IH.
Qed.

Lemma settleScopes_mono
    (call call' : TListenerKey -> string -> SharedSingleton TValue
                  -> option (SharedSingleton TValue)) affected :
  (forall l v s s', call l v s = Some s' -> call' l v s = Some s') ->
  forall s s', settleScopes call affected s = Some s' ->
               settleScopes call' affected s = Some s'.
Proof.
  intros Hcall. induction affected as [|[n k] l IH]; intros s s'; simpl; [done|].
  destruct (settleListeners call _ _ _) as [s1|] eqn:H1; [|done].
  rewrite (settleListeners_mono call call' _ _ Hcall _ _ H1). apply IH.
Qed.

Lemma settled_mono fuel : forall fuel' namespace key s s',
  fuel <= fuel' -> settled fuel namespace key s = Some s' ->
  settled fuel' namespace key s = Some s'.
Proof.
  induction fuel as [|fuel IH]; intros fuel' namespace key s s' Hle; [done|].
  destruct fuel' as [|fuel']; [lia|]. cbn [settled].
  apply settleScopes_mono. intros l v s0 s1. cbv beta.
  destruct (decide (v = lsPartKey l)); [|done]. apply IH. lia.
Qed.

Lemma changeKey_unmarked fuel namespace key s s' :
  changeKey fuel namespace key s = Some s' ->
  (concatNamespaceWithKey (Some namespace) key ∉ _errorKeys s')
  /\ exists evs, _published s'
                 = _published s
                   ++ EvKey None (concatNamespaceWithKey (Some namespace) key) :: evs.
Proof.
  intros Hrun. destruct fuel as [|fuel]; [done|].
  cbn [changeKey] in Hrun. unfold emitKey in Hrun. injection Hrun as <-.
  match goal with |- context [emitKey_scopes ?call ?aff ?s0] =>
    assert (Hrel : unmarks s0 (emitKey_scopes call aff s0)) end.
  { apply (emitKey_scopes_rel unmarks);
      [apply unmarks_refl|apply unmarks_trans|apply unmarks_publish|].
    intros l v s0 s1. cbv beta. destruct (decide (v = lsPartKey l));
      [apply changeKey_unmarks_rel|]. intros [= <-]. apply unmarks_refl. }
  destruct Hrel as [Hsub [evs Hpub]]. cbn in Hsub, Hpub. split; [set_solver|].
  exists evs. by rewrite Hpub, <- app_assoc.
Qed.

(** X15: a change notification that is entered returns.  It leaves the
    key it is about unmarked, never marks a key as unresolved, starts by
    publishing the full key on the root scope, and changes nothing but
    the unresolved keys and the published notifications; and when it
    settles within the room the stack has, it ends in the state in which
    it settles, and in the same state with any more room. *)
Theorem changeKey_effects fuel namespace key s :
  1 <= fuel ->
  exists s',
    changeKey fuel namespace key s = Some s'
    /\ (concatNamespaceWithKey (Some namespace) key ∉ _errorKeys s')
    /\ _errorKeys s' ⊆ _errorKeys s
    /\ (exists evs, _published s'
                    = _published s
                      ++ EvKey None (concatNamespaceWithKey (Some namespace) key) :: evs)
    /\ notifiedOnly s s'
    /\ (forall s0, settled fuel namespace key s = Some s0 ->
          s0 = s'
          /\ forall fuel', fuel <= fuel' -> changeKey fuel' namespace key s = Some s').
Proof.
  intros Hfuel. destruct (changeKey_returns fuel namespace key s Hfuel) as [s' Hrun].
  exists s'. split; [done|].
  destruct (changeKey_unmarked _ _ _ _ _ Hrun) as [Hno Hpub].
  split; [done|]. split; [by apply changeKey_unmarks_rel in Hrun as [? _]|].
  split; [done|]. split; [by eapply changeKey_frame|].
  intros s0 Hs0. pose proof (settled_changeKey _ _ _ _ _ Hs0) as Hrun'.
  rewrite Hrun in Hrun'. injection Hrun' as <-. split; [done|].
  intros fuel' Hle. by eapply settled_changeKey, settled_mono.
Qed.

(** X16: [getValue] never touches the namespaces, the subscriptions, the
    locale or the published notifications; the cache, the unresolved keys
    and the errors only grow; and what it returns is the default value or
    the value now cached under the full key. *)
Theorem getValue_frame s namespace key :
  let s' := fst (getValue s namespace key) in
  _namespaces s' = _namespaces s /\ _events s' = _events s /\ _locale s' = _locale s
  /\ _published s' = _published s /\ _nextListener s' = _nextListener s
  /\ _cache s ⊆ _cache s' /\ _errorKeys s ⊆ _errorKeys s'
  /\ (exists errs, _errors s' = _errors s ++ errs)
  /\ (snd (getValue s namespace key) = getDefaultValue
      \/ _cache s' !! concatNamespaceWithKey namespace key
         = Some (snd (getValue s namespace key))).
Proof.
  unfold getValue.
  destruct (_cache s !! concatNamespaceWithKey namespace key) as [v|] eqn:Hcache; simpl.
  { repeat (split; [done|]). split; [by exists []; rewrite app_nil_r|]. by right. }
  unfold _handleKey. case_bool_decide as Herr; simpl.
  { repeat (split; [done|]). split; [by exists []; rewrite app_nil_r|]. by left. }
  pose proof (findValue_searched s (_locale s) (concatNamespaceWithKey namespace key)
                (mkVisited namespace key ∅ false)) as (errs & Hs & _).
  destruct (findValue s (_locale s) (concatNamespaceWithKey namespace key)
              (mkVisited namespace key ∅ false)) as [[s1 c1] [[v ?]|]]; simpl in Hs; subst s1.
  - simpl. repeat (split; [done|]). split; [by apply insert_subseteq|].
    split; [done|]. split; [by exists errs|]. right. by rewrite lookup_insert_eq.
  - destruct (error c1); simpl; repeat (split; [done|]);
      (split; [set_solver|]); (split; [|by left]).
    + by exists errs.
    + exists (errs ++ [errorMessages.UnregisteredKeyError namespace key]).
      by rewrite app_assoc.
Qed.

End Ownership.

Section OwnershipExamples.
Import Base Spec.

Lemma register_success_witness :
  register Scenarios.root "ns1"
  = (fst (register Scenarios.root "ns1"), Some "ns1")
  /\ is_Some (getRegistry (fst (register Scenarios.root "ns1")) "ns1").
Proof.
  assert (H : register Scenarios.root "ns1"
              = (fst (register Scenarios.root "ns1"), Some "ns1")) by (vm_compute; reflexivity).
  split; [exact H|]. apply (register_success _ _ _ _ H).
Defined.

Lemma unowned_key_is_unresolved_witness :
  hasFullKey Scenarios.owning (concatNamespaceWithKey (Some "a.b") "d") = false
  /\ snd (getValue Scenarios.owning (Some "a.b") "d") = getDefaultValue.
Proof.
  split; [reflexivity|].
  apply (unowned_key_is_unresolved Scenarios.owning (Some "a.b") "d"); reflexivity.
Defined.

Lemma changeKey_effects_witness :
  1 <= 1
  /\ changeKey 1 "ns1" "v" Scenarios.twoNamespaces
     = Some (publish (EvKey (Some "ns1") "v")
               (publish (EvKey None "ns1.v")
                  (with_errorKeys (_errorKeys Scenarios.twoNamespaces ∖ {["ns1.v"]})
                     Scenarios.twoNamespaces)))
  /\ changeKey 7 "ns1" "v" Scenarios.twoNamespaces
     = changeKey 1 "ns1" "v" Scenarios.twoNamespaces.
Proof.
  split; [lia|].
  destruct (changeKey_effects 1 "ns1" "v" Scenarios.twoNamespaces (le_n 1))
    as (s' & Hrun & _ & _ & _ & _ & Hsettled).
  assert (H : settled 1 "ns1" "v" Scenarios.twoNamespaces
              = Some (publish (EvKey (Some "ns1") "v")
                        (publish (EvKey None "ns1.v")
                           (with_errorKeys (_errorKeys Scenarios.twoNamespaces ∖ {["ns1.v"]})
                              Scenarios.twoNamespaces)))) by (vm_compute; reflexivity).
  destruct (Hsettled _ H) as [<- Hmore]. split; [exact Hrun|].
  rewrite Hrun. apply Hmore. lia.
Defined.

End OwnershipExamples.

(** ** Setting, borrowing and reading back *)
Section RoundTrips.
Import Base Spec.
Context {TValue : Type} `{Ops : TValueOps TValue}.
Implicit Types (s : SharedSingleton TValue) (c : TVisitedI18n).

Lemma getRegistry_putRegistry s this reg r n :
  getRegistry s this = Some reg ->
  getRegistry (putRegistry this r s) n
  = if decide (n = this) then Some r else getRegistry s n.
Proof.
  unfold getRegistry, putRegistry. destruct (_namespaces s !! this) as [e|] eqn:He; [|done].
  intros _. cbn [_namespaces with_namespaces]. destruct (decide (n = this)) as [->|Hne].
  - by rewrite lookup_insert_eq.
  - by rewrite lookup_insert_ne.
Qed.

Lemma putRegistry_fields s this r :
  _events (putRegistry this r s) = _events s /\ _cache (putRegistry this r s) = _cache s
  /\ _errorKeys (putRegistry this r s) = _errorKeys s
  /\ _defaultLocale (putRegistry this r s) = _defaultLocale s
  /\ _isSupportedLocale (putRegistry this r s) = _isSupportedLocale s
  /\ _locale (putRegistry this r s) = _locale s
  /\ _nextListener (putRegistry this r s) = _nextListener s
  /\ _errors (putRegistry this r s) = _errors s
  /\ _published (putRegistry this r s) = _published s.
Proof. unfold putRegistry. by destruct (_namespaces s !! this). Qed.

Lemma getRegistry_namespaces s s' n :
  _namespaces s' = _namespaces s -> getRegistry s' n = getRegistry s n.
Proof. unfold getRegistry. by intros ->. Qed.

Lemma setValue_success fuel s this key value locale s' :
  _setValue fuel s this key value locale = Some (s', true) ->
  exists reg reg',
    getRegistry s this = Some reg /\ testNamespacePath key = true
    /\ getRegistry s (concatNamespaceWithKey (Some this) key) = None
    /\ (forall n, getRegistry s' n
                  = if decide (n = this) then Some reg' else getRegistry s n)
    /\ _keyValue reg'
       = JsMap.set key
           (Direct match JsMap.get key (_keyValue reg) with
                   | Some (Direct t) => JsMap.set locale value t
                   | _ => [(locale, value)]
                   end) (_keyValue reg)
    /\ _externalListeners reg' = delete key (_externalListeners reg)
    /\ _events s' = match _externalListeners reg !! key with
                    | Some l => offKey (ns l) (ls l) (_events s)
                    | None => _events s
                    end
    /\ _cache s' = delete (concatNamespaceWithKey (Some this) key) (_cache s)
    /\ (concatNamespaceWithKey (Some this) key ∉ _errorKeys s')
    /\ _errorKeys s' ⊆ _errorKeys s
    /\ _locale s' = _locale s /\ _defaultLocale s' = _defaultLocale s
    /\ _isSupportedLocale s' = _isSupportedLocale s
    /\ _nextListener s' = _nextListener s /\ _errors s' = _errors s.
Proof.
  unfold _setValue. destruct (getRegistry s this) as [reg|] eqn:Hthis; [|done].
  destruct (testNamespacePath key) eqn:Hkey; simpl; [|done].
  destruct (checkFullKey (Some this) key true s) as [s1 [|]] eqn:Hc; simpl; [|done].
  apply checkFullKey_passes in Hc as [Hnone ->].
  set (fullKey := concatNamespaceWithKey (Some this) key) in *.
  set (s0 := with_errorKeys (_errorKeys s ∖ {[fullKey]})
               (with_cache (delete fullKey (_cache s)) s)).
  assert (Hthis0 : getRegistry s0 this = Some reg) by done.
  set (kv := match JsMap.get key (_keyValue reg) with
             | Some (Direct t) => _
             | _ => _
             end).
  assert (Hkv : kv = JsMap.set key
                       (Direct match JsMap.get key (_keyValue reg) with
                               | Some (Direct t) => JsMap.set locale value t
                               | _ => [(locale, value)]
                               end) (_keyValue reg)).
  { unfold kv. by destruct (JsMap.get key (_keyValue reg)) as [[t|x]|]. }
  clearbody kv.
  set (pair := match _externalListeners reg !! key with
               | Some listener => _
               | None => _
               end).
  assert (Hpair : pair = (match _externalListeners reg !! key with
                          | Some l => offKey (ns l) (ls l) (_events s)
                          | None => _events s
                          end, delete key (_externalListeners reg))).
  { unfold pair. destruct (_externalListeners reg !! key) as [l|] eqn:Hl; [done|].
    by rewrite delete_id. }
  clearbody pair. destruct pair as [events externalListeners].
  injection Hpair as -> ->.
  destruct (changeKey _ _ _ _) as [s2|] eqn:Hck; [|done]. intros [= <-].
  pose proof (changeKey_frame _ _ _ _ _ Hck) as (Hev & Hns & Hca & Hdl & Hsup & Hlo & Hnl & Her).
  pose proof (changeKey_unmarked _ _ _ _ _ Hck) as [Hno _].
  pose proof (changeKey_unmarks_rel _ _ _ _ _ Hck) as [Hsub _].
  pose proof (putRegistry_fields s0 this (mkRegistry kv (delete key (_externalListeners reg))))
    as (Pev & Pca & Pek & Pdl & Psup & Plo & Pnl & Per & _).
  exists reg, (mkRegistry kv (delete key (_externalListeners reg))).
  split; [done|]. split; [done|]. split; [done|]. split.
  { intros n. rewrite (getRegistry_namespaces _ _ n Hns).
    change (getRegistry (with_events ?e ?x) n) with (getRegistry x n).
    by rewrite (getRegistry_putRegistry s0 this reg). }
  split; [done|]. split; [done|]. split; [by rewrite Hev|].
  split; [rewrite Hca; cbn [_cache with_events]; by rewrite Pca|].
  split; [done|]. split.
  { cbn [_errorKeys with_events] in Hsub. rewrite Pek in Hsub. cbn in Hsub. set_solver. }
  split; [rewrite Hlo; cbn [_locale with_events]; by rewrite Plo|].
  split; [rewrite Hdl; cbn [_defaultLocale with_events]; by rewrite Pdl|].
  split; [rewrite Hsup; cbn [_isSupportedLocale with_events]; by rewrite Psup|].
  split; [rewrite Hnl; cbn [_nextListener with_events]; by rewrite Pnl|].
  rewrite Her. cbn [_errors with_events]. by rewrite Per.
Qed.

Lemma append_inj_l (a b c : string) : a +:+ b = a +:+ c -> b = c.
Proof.
  induction a as [|x a IH]; [done|]. rewrite !append_cons. intros [= H]. auto.
Qed.

Lemma findValue_loop_only (g : SharedSingleton TValue -> string -> I18nRegistry TValue
                                -> string -> TVisitedI18n -> option (TSearch TValue))
    this key reg c' r l :
  forall s c,
    getRegistry s this = Some reg ->
    (forall n k, (n, k) ∈ l -> is_Some (getRegistry s n) -> n = this /\ k = key) ->
    (this, key) ∈ l ->
    visit this key c = Some c' ->
    g s this reg key c' = Some (s, c', Some r) ->
    findValue_loop g l s c = Some (s, c', Some r).
Proof.
  induction l as [|[n k] l IH]; intros s c Hreg Honly Hin Hvisit Hg.
  - by apply elem_of_nil in Hin.
  - simpl. destruct (getRegistry s n) as [reg0|] eqn:Hn.
    + destruct (Honly n k) as [-> ->]; [by left|by eexists|].
      rewrite Hreg in Hn. injection Hn as <-. by rewrite Hvisit, Hg.
    + apply IH; try done.
      * intros n' k' Hin'. apply Honly. by right.
      * apply elem_of_cons in Hin as [[= <- <-]|Hin]; [congruence|done].
Qed.

(** X17: after a successful [set] of a truthy value under the current
    locale, in a namespace that is the only registered one on the path of
    the full key, the key resolves to that value, which is then cached;
    the set itself has emptied the cache entry and the unresolved mark of
    the full key and left every other registry as it was. *)
Theorem set_then_get fuel s this key value s' :
  _setValue fuel s this key value (_locale s) = Some (s', true) ->
  truthy value = true ->
  isNonemptyString this = true ->
  (forall n k, (n, k) ∈ splitKeyByNamespace (this +:+ dotS +:+ key) ->
               is_Some (getRegistry s n) -> n = this) ->
  _cache s' !! (this +:+ dotS +:+ key) = None
  /\ (this +:+ dotS +:+ key ∉ _errorKeys s')
  /\ (forall n, n <> this -> getRegistry s' n = getRegistry s n)
  /\ snd (getValue s' (Some this) key) = value
  /\ _cache (fst (getValue s' (Some this) key)) !! (this +:+ dotS +:+ key) = Some value.
Proof.
  intros Hset Htruthy Hthis Honly.
  apply setValue_success in Hset
    as (reg & reg' & Hreg & Hkey & Hnone & Hget & Hkv & _ & _ & Hcache & Hno & _ & Hlo & Hdl & _).
  rewrite concat_Some in Hcache, Hno by done.
  assert (Hc : _cache s' !! (this +:+ dotS +:+ key) = None)
    by (rewrite Hcache; apply lookup_delete_eq).
  split; [done|]. split; [done|]. split.
  { intros n Hn. rewrite Hget. by destruct (decide (n = this)). }
  unfold getValue. rewrite concat_Some by done. rewrite Hc. unfold _handleKey.
  rewrite bool_decide_eq_false_2 by done.
  set (ctx := mkVisited (Some this) key ∅ false).
  pose proof (findValue_fuel_findValue s' (_locale s') (this +:+ dotS +:+ key) ctx
                (S (length (borrowedPairs s'))) ltac:(lia)) as Hrun.
  cbn [findValue_fuel] in Hrun.
  rewrite (findValue_loop_only _ this key reg'
             (mkVisited (Some this) key {[this := [key]]} false) (value, this)) in Hrun.
  - injection Hrun as <-. simpl. split; [done|]. by rewrite lookup_insert_eq.
  - rewrite Hget. by destruct (decide (this = this)).
  - intros n k Hin Hsome. assert (n = this) as ->.
    { apply (Honly n k Hin). rewrite Hget in Hsome.
      destruct (decide (n = this)) as [->|]; [by eexists|done]. }
    split; [done|]. apply splitKeyByNamespace_elem in Hin.
    apply append_inj_l in Hin. by apply append_inj_l in Hin.
  - apply splitKeyByNamespace_concat.
  - unfold visit, ctx. cbn [visited]. rewrite lookup_empty. cbn. by rewrite insert_empty.
  - unfold I18nRegistry_getValue. rewrite Hkv, JsMap_get_set.
    destruct (decide (key = key)); [|done].
    assert (Hsel : forall t, selectValue (JsMap.set (_locale s) value t) (_locale s')
                               (_defaultLocale s') = Some value).
    { intros t. unfold selectValue. rewrite Hlo, JsMap_get_set.
      by destruct (decide (_locale s = _locale s)). }
    destruct (JsMap.get key (_keyValue reg)) as [[t|x]|].
    + by rewrite Hsel, Htruthy.
    + pose proof (Hsel []) as Hnil. cbn [JsMap.set] in Hnil. by rewrite Hnil, Htruthy.
    + pose proof (Hsel []) as Hnil. cbn [JsMap.set] in Hnil. by rewrite Hnil, Htruthy.
Qed.

End RoundTrips.

Section RoundTripExamples.
Import Base Spec.

Lemma set_then_get_witness :
  Impl.set 1 Scenarios.twoNamespaces "ns1" "var" "A" (_locale Scenarios.twoNamespaces)
  = Some (Scenarios.result
            (Impl.set 1 Scenarios.twoNamespaces "ns1" "var" "A" "ru_ru")
            Scenarios.twoNamespaces, true)
  /\ snd (getValue (Scenarios.result
                      (Impl.set 1 Scenarios.twoNamespaces "ns1" "var" "A" "ru_ru")
                      Scenarios.twoNamespaces) (Some "ns1") "var") = "A".
Proof.
  assert (H : Impl.set 1 Scenarios.twoNamespaces "ns1" "var" "A"
                (_locale Scenarios.twoNamespaces)
              = Some (Scenarios.result
                        (Impl.set 1 Scenarios.twoNamespaces "ns1" "var" "A" "ru_ru")
                        Scenarios.twoNamespaces, true)) by (vm_compute; reflexivity).
  split; [exact H|].
  apply (set_then_get 1 Scenarios.twoNamespaces "ns1" "var" "A" _ H); [reflexivity..|].
  intros n k Hin. vm_compute in Hin.
  apply list_elem_of_singleton in Hin. by injection Hin as -> ->.
Defined.

End RoundTripExamples.

(** ** Borrowing *)
Section Borrowing.
Import Base Spec.
Context {TValue : Type} `{Ops : TValueOps TValue}.
Implicit Types (s : SharedSingleton TValue) (c : TVisitedI18n).

Lemma slices_join (str : string) i :
  indexOfDot str = Some i -> str = sliceTo i str +:+ dotS +:+ sliceFrom (i + 1) str.
Proof.
  revert i. induction str as [|a r IH]; intros i; simpl; [done|].
  destruct (Ascii.eqb a dot) eqn:E.
  - intros [= <-]. apply Ascii.eqb_eq in E as ->. reflexivity.
  - destruct (indexOfDot r) as [j|] eqn:Hj; [|done]. simpl. intros [= <-].
    cbn [sliceTo sliceFrom Nat.add]. rewrite append_cons. f_equal. by apply IH.
Qed.

Lemma Emitter_on_includes l (e : Emitter) : Emitter_includes l (Emitter_on l e) = true.
Proof.
  unfold Emitter_on. destruct (Emitter_includes l e) eqn:Hin; [done|].
  unfold Emitter_includes. rewrite existsb_app. simpl. unfold sameListener.
  by rewrite Nat.eqb_refl, orb_true_r.
Qed.

Lemma onKey_includes n l (ev : gmap string Emitter) :
  Emitter_includes l (default [] (onKey n l ev !! n)) = true.
Proof.
  unfold onKey. destruct (ev !! n); rewrite lookup_insert_eq; apply Emitter_on_includes.
Qed.

Lemma setExternalKey_success fuel s this key ext nsT partKey s' :
  _setExternalKey fuel s this key ext nsT partKey = Some s' ->
  exists reg reg',
    getRegistry s this = Some reg
    /\ (forall n, getRegistry s' n
                  = if decide (n = this) then Some reg' else getRegistry s n)
    /\ _keyValue reg' = JsMap.set key (Borrow ext) (_keyValue reg)
    /\ _externalListeners reg'
       = <[key := mkExternal (mkListener (_nextListener s) this key partKey) nsT]>
           (_externalListeners reg)
    /\ _events s'
       = onKey nsT (mkListener (_nextListener s) this key partKey)
           match _externalListeners reg !! key with
           | Some l => offKey (ns l) (ls l) (_events s)
           | None => _events s
           end
    /\ _nextListener s' = S (_nextListener s)
    /\ _cache s' = _cache s
    /\ (concatNamespaceWithKey (Some this) key ∉ _errorKeys s')
    /\ _errorKeys s' ⊆ _errorKeys s
    /\ _locale s' = _locale s /\ _defaultLocale s' = _defaultLocale s
    /\ _isSupportedLocale s' = _isSupportedLocale s /\ _errors s' = _errors s.
Proof.
  unfold _setExternalKey. destruct (getRegistry s this) as [reg|] eqn:Hthis; [|done].
  intros Hck.
  pose proof (changeKey_frame _ _ _ _ _ Hck) as (Hev & Hns & Hca & Hdl & Hsup & Hlo & Hnl & Her).
  pose proof (changeKey_unmarked _ _ _ _ _ Hck) as [Hno _].
  pose proof (changeKey_unmarks_rel _ _ _ _ _ Hck) as [Hsub _].
  match type of Hns with context [putRegistry this ?r ?s0] =>
    pose proof (putRegistry_fields s0 this r)
      as (Pev & Pca & Pek & Pdl & Psup & Plo & Pnl & Per & _);
    exists reg, r end.
  split; [done|]. split.
  { intros n. rewrite (getRegistry_namespaces _ _ n Hns).
    change (getRegistry (with_nextListener ?x (with_events ?e ?y)) n) with (getRegistry y n).
    by rewrite (getRegistry_putRegistry s this reg). }
  split; [done|]. split; [done|]. split; [by rewrite Hev|].
  split; [by rewrite Hnl|].
  split; [rewrite Hca; cbn [_cache with_events with_nextListener]; by rewrite Pca|].
  split; [done|]. split.
  { cbn [_errorKeys with_events with_nextListener] in Hsub. by rewrite Pek in Hsub. }
  split; [rewrite Hlo; cbn [_locale with_events with_nextListener]; by rewrite Plo|].
  split; [rewrite Hdl; cbn [_defaultLocale with_events with_nextListener]; by rewrite Pdl|].
  split; [rewrite Hsup; cbn [_isSupportedLocale with_events with_nextListener];
          by rewrite Psup|].
  rewrite Her. cbn [_errors with_events with_nextListener]. by rewrite Per.
Qed.

Lemma use_success fuel s this key ext s' :
  use fuel s this key ext = Some (s', true) ->
  exists reg,
    getRegistry s this = Some reg
    /\ ((JsMap.get key (_keyValue reg) = Some (Borrow ext) /\ s' = s)
        \/ (exists index,
              JsMap.get key (_keyValue reg) <> Some (Borrow ext)
              /\ testNamespacePath key = true /\ testNamespacePath ext = true
              /\ indexOfDot ext = Some index
              /\ concatNamespaceWithKey (Some this) key <> ext
              /\ error (snd (fst (findValue s (_locale s) ext
                                    (mkVisited None key {[this := [key]]} false)))) = false
              /\ getRegistry s ext = None
              /\ getRegistry s (concatNamespaceWithKey (Some this) key) = None
              /\ _setExternalKey fuel
                   (with_errorKeys
                      (_errorKeys s ∖ {[concatNamespaceWithKey (Some this) key]})
                      (with_cache
                         (delete (concatNamespaceWithKey (Some this) key) (_cache s)) s))
                   this key ext (sliceTo index ext) (sliceFrom (index + 1) ext)
                 = Some s')).
Proof.
  unfold use. destruct (getRegistry s this) as [reg|] eqn:Hthis; [|done].
  intros Hrun. exists reg. split; [done|]. revert Hrun.
  destruct (match JsMap.get key (_keyValue reg) with
            | Some (Borrow k) => bool_decide (k = ext)
            | _ => false
            end) eqn:Hsame.
  { intros [= <-]. left. split; [|done].
    destruct (JsMap.get key (_keyValue reg)) as [[t|k]|]; try done.
    by apply bool_decide_eq_true in Hsame as ->. }
  destruct (testNamespacePath key) eqn:Hv; simpl; [|done].
  destruct (testNamespacePath ext) eqn:Hve; simpl; [|done].
  destruct (indexOfDot ext) as [index|] eqn:Hidx; [|done].
  destruct (Nat.ltb index 1); [done|].
  destruct (negb _ || negb _); [done|].
  case_bool_decide as Hself; [done|].
  match goal with |- context [findValue s ?l ?k ?c0] =>
    pose proof (findValue_searched s l k c0) as Hs;
    destruct (findValue s l k c0) as [[s1 c1] x] eqn:Hfind end.
  destruct Hs as (errs & Hs1 & _ & Hflag & _). simpl in Hs1, Hflag. subst s1.
  destruct (error c1) eqn:He; [done|].
  destruct Hflag as [[-> _]|[_ ?]]; [|congruence]. rewrite addErrors_nil.
  destruct (checkFullKey None ext false s) as [s2 [|]] eqn:Hc1; simpl; [|done].
  apply checkFullKey_passes in Hc1 as [Hnone1 ->].
  destruct (checkFullKey (Some this) key true s) as [s3 [|]] eqn:Hc2; simpl; [|done].
  apply checkFullKey_passes in Hc2 as [Hnone2 ->].
  destruct (_setExternalKey _ _ _ _ _ _ _) as [s4|] eqn:Hset; [|done].
  intros [= <-]. right. exists index.
  split.
  { intros Hget. rewrite Hget in Hsame. by rewrite bool_decide_eq_true_2 in Hsame. }
  repeat (split; [done|]). done.
Qed.

(** X18: after a successful [use] the registry holds the key as a
    borrow of the target, its other keys and all other registries are as
    before, no error was reported, and repeating the call changes
    nothing; unless the borrow was already there, the call has emptied
    the cache entry and the unresolved mark of the full key, and a
    listener for the part of the target below its top namespace is
    subscribed on that namespace. *)
Theorem use_installs_borrow fuel s this key ext s' :
  use fuel s this key ext = Some (s', true) ->
  exists reg reg',
    getRegistry s this = Some reg /\ getRegistry s' this = Some reg'
    /\ JsMap.get key (_keyValue reg') = Some (Borrow ext)
    /\ (forall k, k <> key -> JsMap.get k (_keyValue reg') = JsMap.get k (_keyValue reg))
    /\ (forall n, n <> this -> getRegistry s' n = getRegistry s n)
    /\ _errors s' = _errors s
    /\ (forall fuel', use fuel' s' this key ext = Some (s', true))
    /\ (s' = s
        \/ (_cache s' = delete (concatNamespaceWithKey (Some this) key) (_cache s)
            /\ (concatNamespaceWithKey (Some this) key ∉ _errorKeys s')
            /\ _nextListener s' = S (_nextListener s)
            /\ exists l nsT,
                 _externalListeners reg' !! key = Some (mkExternal l nsT)
                 /\ ext = nsT +:+ dotS +:+ lsPartKey l
                 /\ lsNamespace l = this /\ lsKey l = key
                 /\ Emitter_includes l (default [] (_events s' !! nsT)) = true)).
Proof.
  intros Huse. destruct (use_success _ _ _ _ _ _ Huse) as (reg & Hreg & [[Hget ->]|Hnew]).
  - exists reg, reg. split; [done|]. split; [done|]. split; [done|]. split; [done|].
    split; [done|]. split; [done|]. split; [|by left].
    intros fuel'. unfold use. rewrite Hreg, Hget. by rewrite bool_decide_eq_true_2.
  - destruct Hnew as (index & _ & _ & _ & Hidx & _ & _ & _ & _ & Hset).
    apply setExternalKey_success in Hset
      as (reg0 & reg' & Hreg0 & Hget & Hkv & Hext & Hev & Hnl & Hca & Hno & _ & _ & _ & _ & Her).
    change (getRegistry (with_errorKeys ?a (with_cache ?b s)) this)
      with (getRegistry s this) in Hreg0.
    rewrite Hreg in Hreg0. injection Hreg0 as <-.
    assert (Hthis' : getRegistry s' this = Some reg').
    { rewrite Hget. by destruct (decide (this = this)). }
    assert (Hborrow : JsMap.get key (_keyValue reg') = Some (Borrow ext)).
    { rewrite Hkv, JsMap_get_set. by destruct (decide (key = key)). }
    exists reg, reg'. split; [done|]. split; [done|]. split; [done|]. split.
    { intros k Hk. rewrite Hkv, JsMap_get_set. by destruct (decide (k = key)). }
    split.
    { intros n Hn. rewrite Hget. by destruct (decide (n = this)). }
    split; [done|]. split.
    { intros fuel'. unfold use. rewrite Hthis', Hborrow. by rewrite bool_decide_eq_true_2. }
    right. split; [done|]. split; [done|]. split; [done|].
    eexists _, _. split; [by rewrite Hext, lookup_insert_eq|].
    split; [by apply slices_join|]. split; [done|]. split; [done|].
    rewrite Hev. apply onKey_includes.
Qed.

End Borrowing.

Section BorrowingExamples.
Import Base Spec.

Lemma use_installs_borrow_witness :
  use 1 Scenarios.twoNamespaces "ns2" "v" "ns1.var"
  = Some (Scenarios.result (use 1 Scenarios.twoNamespaces "ns2" "v" "ns1.var")
            Scenarios.twoNamespaces, true)
  /\ exists reg reg',
       getRegistry Scenarios.twoNamespaces "ns2" = Some reg
       /\ getRegistry (Scenarios.result (use 1 Scenarios.twoNamespaces "ns2" "v" "ns1.var")
                         Scenarios.twoNamespaces) "ns2" = Some reg'
       /\ JsMap.get "v" (_keyValue reg') = Some (Borrow "ns1.var").
Proof.
  assert (H : use 1 Scenarios.twoNamespaces "ns2" "v" "ns1.var"
              = Some (Scenarios.result (use 1 Scenarios.twoNamespaces "ns2" "v" "ns1.var")
                        Scenarios.twoNamespaces, true)) by (vm_compute; reflexivity).
  split; [exact H|].
  destruct (use_installs_borrow _ _ _ _ _ _ H) as (reg & reg' & H1 & H2 & H3 & _).
  by exists reg, reg'.
Defined.

End BorrowingExamples.

(** ** What is resolved and what is cached *)
Section Soundness.
Import Base Spec.
Context {TValue : Type} `{Ops : TValueOps TValue}.
Implicit Types (s : SharedSingleton TValue) (c : TVisitedI18n).

Lemma selectValue_elem (t : list (string * TValue)) locale dl v :
  selectValue t locale dl = Some v -> exists l, (l, v) ∈ t.
Proof.
  unfold selectValue, coalesce.
  destruct (JsMap.get locale t) as [x|] eqn:H1.
  { intros [= <-]. exists locale. by apply JsMap_get_elem_of. }
  destruct (negb (bool_decide (locale = dl))).
  - destruct (JsMap.get dl t) as [x|] eqn:H2.
    + intros [= <-]. exists dl. by apply JsMap_get_elem_of.
    + apply head_values_elem.
  - apply head_values_elem.
Qed.

Lemma selectValue_nonempty (t : list (string * TValue)) locale dl :
  t <> [] -> is_Some (selectValue t locale dl).
Proof.
  destruct t as [|[l v] t]; [done|]. intros _. unfold selectValue, coalesce.
  destruct (JsMap.get locale _); [by eexists|].
  destruct (negb _); [destruct (JsMap.get dl _)|]; by eexists.
Qed.

Lemma findValue_fuel_searched fuel s locale fullKey c r :
  findValue_fuel fuel s locale fullKey c = Some r -> searched s c r.
Proof.
  intros Hrun.
  destruct (findValue_fuel_enough (Nat.max fuel (S (unvisited s c))) s locale fullKey c)
    as (r' & Hrun' & Hs); [lia|].
  apply (findValue_fuel_mono fuel (Nat.max fuel (S (unvisited s c)))) in Hrun; [|lia].
  congruence.
Qed.

Lemma stored_namespaces s s' found :
  _namespaces s' = _namespaces s -> stored s found -> stored s' found.
Proof.
  intros Hns (Ht & reg & k & t & l & Hreg & Hget & Hin). split; [done|].
  exists reg, k, t, l. by rewrite (getRegistry_namespaces _ _ _ Hns).
Qed.

Lemma searched_namespaces s c s1 c1 (x : option (TFound TValue)) :
  searched s c (s1, c1, x) -> _namespaces s1 = _namespaces s.
Proof. intros (errs & Hs & _). simpl in Hs. by subst s1. Qed.

Lemma findValue_fuel_stored fuel : forall s locale fullKey c s1 c1 found,
  findValue_fuel fuel s locale fullKey c = Some (s1, c1, Some found) -> stored s found.
Proof.
  induction fuel as [|fuel IH]; intros s locale fullKey c s1 c1 found; [done|].
  cbn [findValue_fuel]. generalize (splitKeyByNamespace fullKey). intros l. revert s c.
  induction l as [|[n k] l IHl]; intros s c; simpl; [done|].
  destruct (getRegistry s n) as [reg|] eqn:Hreg; [|apply IHl].
  destruct (visit n k c) as [c'|].
  - unfold I18nRegistry_getValue.
    destruct (JsMap.get k (_keyValue reg)) as [[t|e]|] eqn:Hk; [| |apply IHl].
    + destruct (selectValue t locale (_defaultLocale s)) as [v|] eqn:Hsel; [|apply IHl].
      destruct (truthy v) eqn:Htr; [|apply IHl].
      intros [= <- <- <-]. split; [done|].
      destruct (selectValue_elem _ _ _ _ Hsel) as [lo Hin]. by exists reg, k, t, lo.
    + destruct (findValue_fuel fuel s locale e c') as [[[s2 c2] [f|]]|] eqn:Hrec; [| |done].
      * intros [= <- <- <-]. by eapply IH.
      * intros Hrest. apply findValue_fuel_searched, searched_namespaces in Hrec.
        apply IHl in Hrest. by eapply stored_namespaces; [|exact Hrest].
  - intros Hrest. apply IHl in Hrest. by eapply stored_namespaces; [|exact Hrest].
Qed.

Lemma findValue_stored s locale fullKey c found :
  snd (findValue s locale fullKey c) = Some found -> stored s found.
Proof.
  pose proof (findValue_fuel_findValue s locale fullKey c (S (length (borrowedPairs s)))
                ltac:(lia)) as Hrun.
  destruct (findValue s locale fullKey c) as [[s1 c1] x]. simpl. intros ->.
  by eapply findValue_fuel_stored.
Qed.

(** X19: a value that a search finds is truthy and is stored, under
    some locale, in a direct entry of the registry that the result names;
    so what [getValue] returns on a cache miss is the default value or
    such a stored value. *)
Theorem resolved_value_is_stored s namespace key :
  (forall locale fullKey c found,
      snd (findValue s locale fullKey c) = Some found -> stored s found)
  /\ (_cache s !! concatNamespaceWithKey namespace key = None ->
      snd (getValue s namespace key) = getDefaultValue
      \/ exists owner, stored s (snd (getValue s namespace key), owner)).
Proof.
  split; [intros ? ? ? ?; apply findValue_stored|].
  intros Hmiss. unfold getValue. rewrite Hmiss. unfold _handleKey.
  case_bool_decide; [by left|].
  pose proof (findValue_stored s (_locale s) (concatNamespaceWithKey namespace key)
                (mkVisited namespace key ∅ false)) as Hst.
  destruct (findValue s (_locale s) (concatNamespaceWithKey namespace key)
              (mkVisited namespace key ∅ false)) as [[s1 c1] [[v o]|]]; simpl.
  - right. exists o. by apply Hst.
  - by left.
Qed.

Lemma coherent_create config : coherent (create TValue config).
Proof.
  split.
  - intros k v. cbn [_cache create]. by rewrite lookup_empty.
  - intros n reg k t. unfold getRegistry. cbn [_namespaces create]. by rewrite lookup_empty.
Qed.

Lemma coherent_register s fullNamespace :
  coherent s -> coherent (fst (register s fullNamespace)).
Proof.
  intros [Hc He]. unfold register. rewrite getRegistry_bind.
  destruct (getRegistry s fullNamespace) as [r|] eqn:Hr; [done|].
  destruct (negb _); [done|].
  destruct (register_scan _ _) as [[o k]|]; [done|]. simpl. split.
  - intros k v Hk. destruct (Hc k v Hk) as [? ?]. split; [done|]. cbn. set_solver.
  - intros n reg k t. rewrite getRegistry_with_namespaces. cbn [_namespaces with_errorKeys].
    destruct (decide (n = fullNamespace)) as [->|Hn].
    + rewrite lookup_insert_eq.
      destruct (_namespaces s !! fullNamespace); by intros [= <-].
    + rewrite lookup_insert_ne by done. apply He.
Qed.

Lemma coherent_changeLocale s locale : coherent s -> coherent (fst (changeLocale s locale)).
Proof.
  intros [Hc He]. unfold changeLocale. destruct (negb _); [done|].
  destruct (negb _); [|done]. split; [|done].
  intros k v. cbn. by rewrite lookup_empty.
Qed.

Lemma coherent_getValue s namespace key :
  coherent s -> coherent (fst (getValue s namespace key)).
Proof.
  intros [Hc He]. unfold getValue.
  destruct (_cache s !! concatNamespaceWithKey namespace key) as [v|] eqn:Hmiss; [done|].
  unfold _handleKey. case_bool_decide as Herr; [done|].
  pose proof (findValue_stored s (_locale s) (concatNamespaceWithKey namespace key)
                (mkVisited namespace key ∅ false)) as Hst.
  pose proof (findValue_searched s (_locale s) (concatNamespaceWithKey namespace key)
                (mkVisited namespace key ∅ false)) as (errs & Hs & _).
  destruct (findValue s (_locale s) (concatNamespaceWithKey namespace key)
              (mkVisited namespace key ∅ false)) as [[s1 c1] [[v o]|]]; simpl in *; subst s1.
  - split; [|done]. intros k w. cbn. destruct (decide (k = concatNamespaceWithKey namespace key)) as [->|Hk].
    + rewrite lookup_insert_eq. intros [= <-]. split; [|done]. by destruct (Hst _ eq_refl).
    + rewrite lookup_insert_ne by done. apply Hc.
  - split; [|by destruct (error c1)].
    intros k w Hk. assert (_cache s !! k = Some w) as Hk' by (by destruct (error c1)).
    destruct (Hc k w Hk') as [? ?]. split; [done|].
    assert (k <> concatNamespaceWithKey namespace key) by congruence.
    destruct (error c1); cbn; set_solver.
Qed.

Lemma coherent_setValue fuel s this key value locale s' ok :
  coherent s -> _setValue fuel s this key value locale = Some (s', ok) -> coherent s'.
Proof.
  intros [Hc He] Hset. destruct ok.
  - apply setValue_success in Hset
      as (reg & reg' & Hreg & _ & _ & Hget & Hkv & _ & _ & Hcache & _ & Hsub & _).
    split.
    + intros k v. rewrite Hcache. intros [Hk Hv]%lookup_delete_Some.
      destruct (Hc k v Hv). split; [done|]. set_solver.
    + intros n r k t. rewrite Hget. destruct (decide (n = this)) as [->|Hn]; [|apply He].
      intros [= <-]. rewrite Hkv, JsMap_get_set. destruct (decide (k = key)) as [->|Hk].
      * intros [= <-]. destruct (JsMap.get key (_keyValue reg)) as [[t0|x]|]; [|done..].
        by destruct t0 as [|[l0 v0] t0]; simpl; [|destruct (decide _)].
      * by apply (He this reg).
  - apply setValue_fails in Hset as (e & -> & _). done.
Qed.

Lemma coherent_use fuel s this key ext s' ok :
  coherent s -> use fuel s this key ext = Some (s', ok) -> coherent s'.
Proof.
  intros [Hc He] Huse. destruct ok.
  - apply use_success in Huse as (reg & Hreg & [[_ ->]|Hnew]); [done|].
    destruct Hnew as (index & _ & _ & _ & _ & _ & _ & _ & _ & Hset).
    apply setExternalKey_success in Hset
      as (reg0 & reg' & Hreg0 & Hget & Hkv & _ & _ & _ & Hcache & _ & Hsub & _).
    change (getRegistry (with_errorKeys ?a (with_cache ?b s)) this)
      with (getRegistry s this) in Hreg0.
    rewrite Hreg in Hreg0. injection Hreg0 as <-.
    split.
    + intros k v. rewrite Hcache. cbn. intros [Hk Hv]%lookup_delete_Some.
      destruct (Hc k v Hv). split; [done|]. cbn in Hsub. set_solver.
    + intros n r k t. rewrite Hget.
      change (getRegistry (with_errorKeys ?a (with_cache ?b s)) n) with (getRegistry s n).
      destruct (decide (n = this)) as [->|Hn]; [|apply He].
      intros [= <-]. rewrite Hkv, JsMap_get_set. destruct (decide (k = key)); [done|].
      by apply (He this reg).
  - apply use_fails in Huse as (errs & _ & ->). done.
Qed.

(** X20: in every state that the operations produce from a fresh
    instance, cached values are truthy, no cached key is marked as
    unresolved, and every direct entry has a value to offer for every
    requested locale. *)
Theorem reachable_coherent s :
  reachable s ->
  (forall k v, _cache s !! k = Some v -> truthy v = true /\ k ∉ _errorKeys s)
  /\ (forall n reg k t locale,
        getRegistry s n = Some reg -> JsMap.get k (_keyValue reg) = Some (Direct t) ->
        is_Some (selectValue t locale (_defaultLocale s))).
Proof.
  intros Hreach. assert (Hco : coherent s).
  { induction Hreach.
    - apply coherent_create.
    - by apply coherent_register.
    - by apply coherent_changeLocale.
    - by apply coherent_getValue.
    - by eapply coherent_setValue.
    - by eapply coherent_use. }
  destruct Hco as [Hc He]. split; [done|].
  intros n reg k t locale Hreg Hget. apply selectValue_nonempty. by eapply He.
Qed.

End Soundness.

Section SoundnessExamples.
Import Base Spec.

Lemma reachable_coherent_witness :
  reachable (fst (getValue Scenarios.circular (Some "z") "k"))
  /\ _cache (fst (getValue Scenarios.circular (Some "z") "k")) !! "z.k" = Some "X"
  /\ (truthy "X" = true
      /\ "z.k" ∉ _errorKeys (fst (getValue Scenarios.circular (Some "z") "k")))
  /\ is_Some (selectValue [("ru_ru", "X")] "en_us"
                (_defaultLocale (fst (getValue Scenarios.circular (Some "z") "k")))).
Proof.
  assert (H : reachable (fst (getValue Scenarios.circular (Some "z") "k")))
    by apply reach_getValue, reachable_circular.
  assert (Hc : _cache (fst (getValue Scenarios.circular (Some "z") "k")) !! "z.k" = Some "X")
    by (vm_compute; reflexivity).
  destruct (reachable_coherent _ H) as [H1 H2].
  split; [exact H|]. split; [exact Hc|]. split; [exact (H1 "z.k" "X" Hc)|].
  apply (H2 "a" (mkRegistry [("b.c", Direct [("ru_ru", "X")])] ∅) "b.c"); vm_compute; reflexivity.
Defined.

End SoundnessExamples.

(** ** The subscriptions of borrowed keys *)
Section Subscriptions.
Import Base Spec.
Context {TValue : Type} `{Ops : TValueOps TValue}.
Implicit Types (s : SharedSingleton TValue) (c : TVisitedI18n).

Lemma Emitter_off_spec (x : TListenerKey) (e : Emitter) :
  NoDup (lid <$> e) -> x ∈ e ->
  (forall l, l ∈ Emitter_off x e <-> l ∈ e /\ l <> x)
  /\ NoDup (lid <$> Emitter_off x e).
Proof.
  induction e as [|y e IH]; intros Hnd Hx; [by apply elem_of_nil in Hx|].
  rewrite fmap_cons in Hnd. apply NoDup_cons in Hnd as [Hy Hnd].
  cbn [Emitter_off]. unfold sameListener. destruct (Nat.eqb (lid y) (lid x)) eqn:Hid.
  - apply Nat.eqb_eq in Hid.
    assert (x = y) as ->.
    { apply elem_of_cons in Hx as [?|Hx]; [done|]. exfalso. apply Hy. rewrite Hid.
      by apply list_elem_of_fmap_2. }
    split; [|done]. intros l. rewrite elem_of_cons. split.
    + intros Hl. split; [by right|]. intros ->. apply Hy. by apply list_elem_of_fmap_2.
    + by intros [[?|?] ?].
  - apply Nat.eqb_neq in Hid.
    assert (Hx' : x ∈ e).
    { apply elem_of_cons in Hx as [->|?]; [done|done]. }
    destruct (IH Hnd Hx') as [Hel Hnd']. split.
    + intros l. rewrite !elem_of_cons, Hel. split.
      * intros [->|[? ?]]; [|by auto]. split; [by left|]. by intros ->.
      * intros [[->|?] ?]; auto.
    + rewrite fmap_cons. apply NoDup_cons. split; [|done].
      intros (l & Hl & Hin)%list_elem_of_fmap. apply Hel in Hin as [Hin _].
      apply Hy. rewrite Hl. by apply list_elem_of_fmap_2.
Qed.

Lemma Emitter_on_fresh (x : TListenerKey) (e : Emitter) :
  (forall l, l ∈ e -> lid l <> lid x) -> Emitter_on x e = e ++ [x].
Proof.
  intros Hfresh. unfold Emitter_on.
  destruct (Emitter_includes x e) eqn:Hin; [|done]. exfalso.
  unfold Emitter_includes in Hin. apply existsb_exists in Hin as (l & Hl & Hsame).
  unfold sameListener in Hsame. apply Nat.eqb_eq in Hsame.
  apply (Hfresh l); [by apply list_elem_of_In|done].
Qed.

Lemma offKey_lookup n x (ev : gmap string Emitter) m :
  default [] (offKey n x ev !! m)
  = if decide (m = n) then Emitter_off x (default [] (ev !! n)) else default [] (ev !! m).
Proof.
  unfold offKey, Emitter in *. destruct (decide (m = n)) as [->|Hne].
  - destruct (ev !! n) as [e|] eqn:He; [by rewrite lookup_insert_eq|by rewrite ?He].
  - destruct (ev !! n) as [e|] eqn:He; [by rewrite lookup_insert_ne|done].
Qed.

Lemma onKey_lookup n x (ev : gmap string Emitter) m :
  default [] (onKey n x ev !! m)
  = if decide (m = n) then Emitter_on x (default [] (ev !! n)) else default [] (ev !! m).
Proof.
  unfold onKey, Emitter in *. destruct (decide (m = n)) as [->|Hne].
  - destruct (ev !! n) as [e|] eqn:He; by rewrite lookup_insert_eq.
  - destruct (ev !! n) as [e|] eqn:He; by rewrite lookup_insert_ne.
Qed.

(** The step of [_setValue] and the first half of [_setExternalKey]: the
    key stops being a borrow and its subscription, if any, is dropped. *)
Lemma subscribedAt_unsubscribe (regs : string -> option (I18nRegistry TValue)) ev next
    regs' this (reg : I18nRegistry TValue) kv' key :
  subscribedAt regs ev next ->
  regs this = Some reg ->
  (forall n, regs' n = if decide (n = this)
                       then Some (mkRegistry kv' (delete key (_externalListeners reg)))
                       else regs n) ->
  (forall e, JsMap.get key kv' <> Some (Borrow e)) ->
  (forall k, k <> key -> JsMap.get k kv' = JsMap.get k (_keyValue reg)) ->
  subscribedAt regs'
    match _externalListeners reg !! key with
    | Some l => offKey (ns l) (ls l) ev
    | None => ev
    end next.
Proof.
  intros (H1 & H2 & H3 & H4) Hthis Hregs Hkey Hother.
  set (ev' := match _externalListeners reg !! key with
              | Some l => offKey (ns l) (ls l) ev
              | None => ev
              end).
  assert (Hev : forall nsT l,
             l ∈ default [] (ev' !! nsT)
             <-> l ∈ default [] (ev !! nsT)
                 /\ forall x, _externalListeners reg !! key = Some x ->
                              nsT = ns x -> l <> ls x).
  { intros nsT l. unfold ev'. destruct (_externalListeners reg !! key) as [x|] eqn:Hx.
    - destruct (H1 this reg key x Hthis Hx) as (_ & _ & _ & Hin).
      rewrite offKey_lookup. destruct (decide (nsT = ns x)) as [->|Hne].
      + destruct (Emitter_off_spec (ls x) _ (H4 (ns x)) Hin) as [Hel _].
        rewrite Hel. split; [intros [? ?]; split; [done|by intros ? [= <-] _]|].
        intros [? Hno]. split; [done|]. by apply (Hno x).
      + split; [intros ?; split; [done|by intros ? [= <-] ?]|by intros [? _]].
    - split; [by intros ?|by intros [? _]]. }
  assert (Hnd : forall nsT, NoDup (lid <$> default [] (ev' !! nsT))).
  { intros nsT. unfold ev'. destruct (_externalListeners reg !! key) as [x|] eqn:Hx; [|done].
    destruct (H1 this reg key x Hthis Hx) as (_ & _ & _ & Hin).
    rewrite offKey_lookup. destruct (decide (nsT = ns x)) as [->|Hne]; [|done].
    by destruct (Emitter_off_spec (ls x) _ (H4 (ns x)) Hin) as [_ ?]. }
  split; [|split; [|split; [|exact Hnd]]].
  - intros n r k x. rewrite Hregs. destruct (decide (n = this)) as [->|Hn].
    + intros [= <-]. cbn [_externalListeners _keyValue].
      intros [Hk Hx]%lookup_delete_Some.
      destruct (H1 this reg k x Hthis Hx) as (Hn & Hlk & Hget & Hin).
      split; [done|]. split; [done|]. split; [by rewrite Hother|].
      apply Hev. split; [done|]. intros x0 Hx0 _ Heq.
      destruct (H1 this reg key x0 Hthis Hx0) as (_ & Hlk0 & _). congruence.
    + intros Hr Hx. destruct (H1 n r k x Hr Hx) as (Hn' & Hlk & Hget & Hin).
      split; [done|]. split; [done|]. split; [done|].
      apply Hev. split; [done|]. intros x0 Hx0 _ Heq.
      destruct (H1 this reg key x0 Hthis Hx0) as (Hn0 & _). congruence.
  - intros n r k e. rewrite Hregs. destruct (decide (n = this)) as [->|Hn]; [|apply H2].
    intros [= <-]. cbn [_externalListeners _keyValue]. intros Hget.
    destruct (decide (k = key)) as [->|Hk]; [by apply Hkey in Hget|].
    rewrite Hother in Hget by done. rewrite lookup_delete_ne by done. by eapply H2.
  - intros nsT l [Hin Hno]%Hev. destruct (H3 nsT l Hin) as (Hlt & r & Hr & Hx).
    split; [done|]. rewrite Hregs. destruct (decide (lsNamespace l = this)) as [Hn|Hn].
    + rewrite Hn, Hthis in Hr. injection Hr as <-.
      eexists. split; [done|]. cbn [_externalListeners].
      rewrite lookup_delete_ne; [done|]. intros Heq. rewrite <- Heq in Hx.
      by apply (Hno _ Hx).
    + by exists r.
Qed.

(** The second half of [_setExternalKey]: the key becomes a borrow with a
    new listener. *)
Lemma subscribedAt_subscribe (regs : string -> option (I18nRegistry TValue)) ev next
    regs' this (reg : I18nRegistry TValue) key nsT partKey :
  subscribedAt regs ev next ->
  regs this = Some reg ->
  _externalListeners reg !! key = None ->
  (forall n, regs' n
             = if decide (n = this)
               then Some (mkRegistry
                            (JsMap.set key (Borrow (nsT +:+ dotS +:+ partKey)) (_keyValue reg))
                            (<[key := mkExternal (mkListener next this key partKey) nsT]>
                               (_externalListeners reg)))
               else regs n) ->
  subscribedAt regs' (onKey nsT (mkListener next this key partKey) ev) (S next).
Proof.
  intros (H1 & H2 & H3 & H4) Hthis Hnone Hregs.
  set (lnew := mkListener next this key partKey).
  assert (Hfresh : forall l, l ∈ default [] (ev !! nsT) -> lid l <> lid lnew).
  { intros l Hl. destruct (H3 nsT l Hl) as [Hlt _]. simpl. lia. }
  assert (Hev : forall m l,
             l ∈ default [] (onKey nsT lnew ev !! m)
             <-> l ∈ default [] (ev !! m) \/ (m = nsT /\ l = lnew)).
  { intros m l. rewrite onKey_lookup. destruct (decide (m = nsT)) as [->|Hne].
    - rewrite Emitter_on_fresh by done. rewrite elem_of_app, list_elem_of_singleton.
      split; [intros [?| ->]; auto|intros [?|[_ ->]]; auto].
    - split; [auto|]. by intros [?|[? _]]. }
  split; [|split; [|split]].
  - intros n r k x. rewrite Hregs. destruct (decide (n = this)) as [->|Hn].
    + intros [= <-]. cbn [_externalListeners _keyValue].
      destruct (decide (k = key)) as [->|Hk].
      * rewrite lookup_insert_eq. intros [= <-]. cbn.
        split; [done|]. split; [done|]. split.
        -- rewrite JsMap_get_set. by destruct (decide (key = key)).
        -- apply Hev. by right.
      * rewrite lookup_insert_ne by done. intros Hx.
        destruct (H1 this reg k x Hthis Hx) as (? & ? & Hget & Hin).
        split; [done|]. split; [done|]. split.
        -- rewrite JsMap_get_set. by destruct (decide (k = key)).
        -- apply Hev. by left.
    + intros Hr Hx. destruct (H1 n r k x Hr Hx) as (? & ? & Hget & Hin).
      split; [done|]. split; [done|]. split; [done|]. apply Hev. by left.
  - intros n r k e. rewrite Hregs. destruct (decide (n = this)) as [->|Hn]; [|apply H2].
    intros [= <-]. cbn [_externalListeners _keyValue]. rewrite JsMap_get_set.
    destruct (decide (k = key)) as [->|Hk]; [by rewrite lookup_insert_eq|].
    rewrite lookup_insert_ne by done. by apply (H2 this reg k e Hthis).
  - intros m l [Hin|[-> ->]]%Hev.
    + destruct (H3 m l Hin) as (Hlt & r & Hr & Hx). split; [lia|].
      rewrite Hregs. destruct (decide (lsNamespace l = this)) as [Hn|Hn]; [|by exists r].
      rewrite Hn, Hthis in Hr. injection Hr as <-. eexists. split; [done|].
      cbn [_externalListeners]. rewrite lookup_insert_ne; [done|]. intros Heq.
      rewrite <- Heq in Hx. congruence.
    + split; [simpl; lia|]. rewrite Hregs. cbn [lsNamespace lsKey lnew].
      destruct (decide (this = this)); [|done]. eexists. split; [done|].
      cbn [_externalListeners]. by rewrite lookup_insert_eq.
  - intros m. rewrite onKey_lookup. destruct (decide (m = nsT)) as [->|Hne]; [|apply H4].
    rewrite Emitter_on_fresh by done. rewrite fmap_app. apply NoDup_app.
    split; [apply H4|]. split; [|apply NoDup_singleton].
    intros i (l & Hi & Hl)%list_elem_of_fmap Hnew%list_elem_of_singleton.
    apply (Hfresh l Hl). by rewrite <- Hi, Hnew.
Qed.

Lemma subscribedAt_ext (regs regs' : string -> option (I18nRegistry TValue)) ev next :
  (forall n, regs' n = regs n) -> subscribedAt regs ev next -> subscribedAt regs' ev next.
Proof.
  intros Heq (H1 & H2 & H3 & H4). split; [|split; [|split; [|done]]].
  - intros n r k x. rewrite Heq. apply H1.
  - intros n r k e. rewrite Heq. apply H2.
  - intros m l Hl. destruct (H3 m l Hl) as (? & r & ? & ?). split; [done|].
    exists r. by rewrite Heq.
Qed.

Lemma subscribed_same s s' :
  _namespaces s' = _namespaces s -> _events s' = _events s ->
  _nextListener s' = _nextListener s -> subscribed s -> subscribed s'.
Proof.
  unfold subscribed. intros Hns -> ->. apply subscribedAt_ext.
  intros n. by apply getRegistry_namespaces.
Qed.

Lemma subscribed_create config : subscribed (create TValue config).
Proof.
  split; [|split; [|split]].
  - intros n r k x. unfold getRegistry. cbn. by rewrite lookup_empty.
  - intros n r k e. unfold getRegistry. cbn. by rewrite lookup_empty.
  - intros m l. cbn. rewrite lookup_empty. by intros ?%elem_of_nil.
  - intros m. cbn. rewrite lookup_empty. constructor.
Qed.

Lemma subscribed_register s fullNamespace :
  subscribed s -> subscribed (fst (register s fullNamespace)).
Proof.
  intros Hs. destruct (register s fullNamespace) as [s' [r|]] eqn:Hreg.
  - destruct (register_outcome _ _ _ _ Hreg) as (_ & _ & _ & Hother & Hold & Hnew). simpl.
    destruct (getRegistry s fullNamespace) as [reg|] eqn:Hget.
    + by rewrite Hold.
    + destruct (Hnew eq_refl) as (_ & Hget' & _ & _ & Hev & _).
      assert (Hnl : _nextListener s' = _nextListener s).
      { revert Hreg. unfold register. rewrite getRegistry_bind, Hget.
        destruct (negb _); [done|]. destruct (register_scan _ _) as [[? ?]|]; [done|].
        by intros [= <- _]. }
      destruct Hs as (H1 & H2 & H3 & H4). unfold subscribed. rewrite Hev, Hnl.
      split; [|split; [|split; [|done]]].
      * intros n r0 k x. destruct (decide (n = fullNamespace)) as [->|Hn].
        -- rewrite Hget'. intros [= <-]. cbn. by rewrite lookup_empty.
        -- rewrite Hother by done. apply H1.
      * intros n r0 k e. destruct (decide (n = fullNamespace)) as [->|Hn].
        -- rewrite Hget'. by intros [= <-].
        -- rewrite Hother by done. apply H2.
      * intros m l Hl. destruct (H3 m l Hl) as (? & r0 & Hr0 & ?). split; [done|].
        exists r0. split; [|done]. rewrite Hother; [done|]. congruence.
  - apply register_fails in Hreg as (e & -> & _). simpl. by eapply subscribed_same.
Qed.

Lemma subscribed_changeLocale s locale :
  subscribed s -> subscribed (fst (changeLocale s locale)).
Proof.
  unfold changeLocale. destruct (negb _); [by apply subscribed_same|].
  destruct (negb _); [by apply subscribed_same|done].
Qed.

Lemma subscribed_getValue s namespace key :
  subscribed s -> subscribed (fst (getValue s namespace key)).
Proof.
  unfold getValue. destruct (_cache s !! _); [done|]. unfold _handleKey.
  case_bool_decide; [done|].
  match goal with |- context [findValue s ?l ?k ?c0] =>
    pose proof (findValue_searched s l k c0) as Hs;
    destruct (findValue s l k c0) as [[s1 c1] x] end.
  destruct Hs as (errs & Hs1 & _). simpl in Hs1. subst s1.
  destruct x as [[v r]|]; [by apply subscribed_same|].
  destruct (negb (error c1)); by apply subscribed_same.
Qed.

Lemma subscribed_setValue fuel s this key value locale s' ok :
  subscribed s -> _setValue fuel s this key value locale = Some (s', ok) -> subscribed s'.
Proof.
  intros Hs Hset. destruct ok.
  - apply setValue_success in Hset
      as (reg & reg' & Hreg & _ & _ & Hget & Hkv & Hext & Hev & _ & _ & _ & _ & _ & _ & Hnl & _).
    unfold subscribed. rewrite Hev, Hnl.
    eapply (subscribedAt_unsubscribe _ _ _ _ this reg (_keyValue reg') key); [exact Hs|done| | |].
    + intros n. rewrite Hget. destruct (decide (n = this)); [|done].
      destruct reg'. cbn in Hext. by rewrite Hext.
    + intros e. rewrite Hkv, JsMap_get_set. by destruct (decide (key = key)).
    + intros k Hk. rewrite Hkv, JsMap_get_set. by destruct (decide (k = key)).
  - apply setValue_fails in Hset as (e & -> & _). by eapply subscribed_same.
Qed.

Lemma JsMap_set_set {A} k (v w : A) m : JsMap.set k v (JsMap.set k w m) = JsMap.set k v m.
Proof.
  induction m as [|[k' x] m IH]; simpl.
  - by destruct (decide (k = k)).
  - destruct (decide (k = k')) as [->|Hne]; simpl.
    + by destruct (decide (k' = k')).
    + destruct (decide (k = k')); [done|]. by rewrite IH.
Qed.

Lemma subscribed_use fuel s this key ext s' ok :
  subscribed s -> use fuel s this key ext = Some (s', ok) -> subscribed s'.
Proof.
  intros Hs Huse. destruct ok.
  - apply use_success in Huse as (reg & Hreg & [[_ ->]|Hnew]); [done|].
    destruct Hnew as (index & _ & _ & _ & Hidx & _ & _ & _ & _ & Hset).
    apply setExternalKey_success in Hset
      as (reg0 & reg' & Hreg0 & Hget & Hkv & Hext & Hev & Hnl & _).
    change (getRegistry (with_errorKeys ?a (with_cache ?b s)) this)
      with (getRegistry s this) in Hreg0.
    rewrite Hreg in Hreg0. injection Hreg0 as <-.
    cbn [_events _nextListener with_errorKeys with_cache] in Hev, Hnl, Hext.
    set (mid := mkRegistry (JsMap.set key (Direct []) (_keyValue reg))
                  (delete key (_externalListeners reg))).
    pose proof (subscribedAt_unsubscribe (getRegistry s) (_events s) (_nextListener s)
                  (fun n => if decide (n = this) then Some mid else getRegistry s n)
                  this reg (JsMap.set key (Direct []) (_keyValue reg)) key Hs Hreg) as Hoff.
    unfold subscribed. rewrite Hev, Hnl.
    rewrite (slices_join ext index Hidx) in Hkv.
    eapply (subscribedAt_subscribe _ _ _ _ this mid key); [apply Hoff| | |].
    + done.
    + intros e. rewrite JsMap_get_set. by destruct (decide (key = key)).
    + intros k Hk. rewrite JsMap_get_set. by destruct (decide (k = key)).
    + cbn beta. by destruct (decide (this = this)).
    + cbn. apply lookup_delete_eq.
    + intros n. rewrite Hget.
      change (getRegistry (with_errorKeys ?a (with_cache ?b s)) n) with (getRegistry s n).
      destruct (decide (n = this)); [|done]. f_equal. destruct reg'. cbn in Hkv, Hext.
      cbn [mid _keyValue _externalListeners]. rewrite JsMap_set_set, insert_delete_eq.
      by rewrite Hkv, Hext.
  - apply use_fails in Huse as (errs & _ & ->). by eapply subscribed_same.
Qed.

Lemma subscribed_invariant s : reachable s -> subscribed s.
Proof.
  induction 1.
  - apply subscribed_create.
  - by apply subscribed_register.
  - by apply subscribed_changeLocale.
  - by apply subscribed_getValue.
  - by eapply subscribed_setValue.
  - by eapply subscribed_use.
Qed.

(** X21: in every state that the operations produce from a fresh
    instance the borrow subscriptions are in order: a registry records a
    listener for a key exactly when the key is borrowed, the record names
    the top namespace and the rest of the borrowed full key, and its
    listener is subscribed on that namespace; every subscribed listener
    is the one recorded for its key; and no emitter holds a listener
    twice. *)
Theorem reachable_subscribed s : reachable s -> subscribed s.
Proof. apply subscribed_invariant. Qed.

End Subscriptions.

Section SubscriptionExamples.
Import Base Spec.

Lemma reachable_halfCycle : reachable Scenarios.halfCycle.
Proof.
  eapply (reach_use 1 (fst (register (fst (register Scenarios.root "control")) "settings"))
            "control" "button.back_off" "settings.autoSave.back_disabled" _ true).
  - apply reach_register, reach_register, reachable_root.
  - vm_compute. reflexivity.
Qed.

Lemma reachable_subscribed_witness :
  (reachable Scenarios.halfCycle /\ subscribed Scenarios.halfCycle)
  /\ reachable Scenarios.circular
  /\ mkListener 0 "z" "k" "b.c" ∈ default [] (_events Scenarios.circular !! "a")
  /\ mkListener 1 "a.b" "c" "k" ∈ default [] (_events Scenarios.circular !! "z")
  /\ subscribed Scenarios.circular.
Proof.
  split; [split; [apply reachable_halfCycle|
                  apply (reachable_subscribed _ reachable_halfCycle)]|].
  split; [apply reachable_circular|].
  split; [vm_compute; by left|]. split; [vm_compute; by left|].
  apply (reachable_subscribed _ reachable_circular).
Defined.

End SubscriptionExamples.

(** ** Propagation through borrows *)
Section Propagation.
Import Base Spec.
Context {TValue : Type} `{Ops : TValueOps TValue}.
Implicit Types (s : SharedSingleton TValue) (c : TVisitedI18n).

Lemma notified_refl s : unmarks s s /\ notifiedOnly s s.
Proof. split; [apply unmarks_refl|apply notifiedOnly_refl]. Qed.

Lemma notified_trans s1 s2 s3 :
  unmarks s1 s2 /\ notifiedOnly s1 s2 -> unmarks s2 s3 /\ notifiedOnly s2 s3 ->
  unmarks s1 s3 /\ notifiedOnly s1 s3.
Proof.
  intros [? ?] [? ?]. split; [by eapply unmarks_trans|by eapply notifiedOnly_trans].
Qed.

Lemma notified_publish e s : unmarks s (publish e s) /\ notifiedOnly s (publish e s).
Proof. split; [|apply notifiedOnly_publish]. split; [done|]. by exists [e]. Qed.

Lemma Emitter_emit_notified call listeners value :
  (forall l v s s', call l v s = Some s' -> unmarks s s' /\ notifiedOnly s s') ->
  forall s, unmarks s (Emitter_emit call listeners value s)
            /\ notifiedOnly s (Emitter_emit call listeners value s).
Proof.
  intros Hcall s.
  by apply (Emitter_emit_rel (fun a b => unmarks a b /\ notifiedOnly a b) call listeners value
              notified_refl notified_trans Hcall s).
Qed.

Lemma emitKey_scopes_notified call affected :
  (forall l v s s', call l v s = Some s' -> unmarks s s' /\ notifiedOnly s s') ->
  forall s, unmarks s (emitKey_scopes call affected s)
            /\ notifiedOnly s (emitKey_scopes call affected s).
Proof.
  intros Hcall s.
  by apply (emitKey_scopes_rel (fun a b => unmarks a b /\ notifiedOnly a b) call affected
              notified_refl notified_trans notified_publish Hcall s).
Qed.

(** A listener whose call finds room on the stack is run by [emit], and
    what comes before and after it only unmarks and notifies. *)
Lemma Emitter_emit_calls call listeners value (l : TListenerKey) :
  (forall l v s s', call l v s = Some s' -> unmarks s s' /\ notifiedOnly s s') ->
  (forall s, is_Some (call l value s)) ->
  l ∈ listeners ->
  forall s,
    exists s1 s2, (unmarks s s1 /\ notifiedOnly s s1) /\ call l value s1 = Some s2
                  /\ (unmarks s2 (Emitter_emit call listeners value s)
                      /\ notifiedOnly s2 (Emitter_emit call listeners value s)).
Proof.
  intros Hcall Hroom. induction listeners as [|x ls IH]; intros Hin s.
  { by apply elem_of_nil in Hin. }
  simpl. apply elem_of_cons in Hin as [->|Hin].
  - destruct (Hroom s) as [s1 H1]. rewrite H1.
    exists s, s1. split; [apply notified_refl|]. split; [done|].
    by apply Emitter_emit_notified.
  - destruct (call x value s) as [s1|] eqn:H1; [|by apply IH].
    destruct (IH Hin s1) as (s2 & s3 & H12 & Hc & H3).
    exists s2, s3. split; [|done]. eapply notified_trans; [by eapply Hcall|done].
Qed.

Lemma emitKey_scopes_calls call affected n0 k0 (l : TListenerKey) :
  (forall l v s s', call l v s = Some s' -> unmarks s s' /\ notifiedOnly s s') ->
  (forall s, is_Some (call l k0 s)) ->
  (n0, k0) ∈ affected ->
  forall s,
    l ∈ default [] (_events s !! n0) ->
    exists s1 s2, (unmarks s s1 /\ notifiedOnly s s1) /\ call l k0 s1 = Some s2
                  /\ (unmarks s2 (emitKey_scopes call affected s)
                      /\ notifiedOnly s2 (emitKey_scopes call affected s)).
Proof.
  intros Hcall Hroom. induction affected as [|[n k] rest IH]; intros Hin s Hl.
  { by apply elem_of_nil in Hin. }
  simpl. apply elem_of_cons in Hin as [[= <- <-]|Hin].
  - destruct (Emitter_emit_calls call _ k0 l Hcall Hroom Hl
                (publish (EvKey (Some n0) k0) s)) as (s2 & s3 & H12 & Hc & H3).
    exists s2, s3. split; [eapply notified_trans; [apply notified_publish|done]|].
    split; [done|]. eapply notified_trans; [exact H3|].
    by apply emitKey_scopes_notified.
  - set (s1 := Emitter_emit call (default [] (_events s !! n)) k
                 (publish (EvKey (Some n) k) s)).
    assert (H01 : unmarks s s1 /\ notifiedOnly s s1).
    { eapply notified_trans; [apply (notified_publish (EvKey (Some n) k))|].
      by apply Emitter_emit_notified. }
    assert (Hl1 : l ∈ default [] (_events s1 !! n0)).
    { destruct H01 as [_ (Hev & _)]. by rewrite Hev. }
    destruct (IH Hin s1 Hl1) as (s2 & s3 & H12 & Hc & H3).
    exists s2, s3. split; [|done]. by eapply notified_trans.
Qed.

(** X22: in a state whose subscriptions are in order, a change
    notification for the target of a borrowed key, entered with room on
    the stack for the listener of the borrowing key, has also notified
    the borrowing key: the full key of the borrower is published on the
    root scope and is not marked as unresolved afterwards. *)
Theorem borrowers_are_notified fuel s n reg k ext tn tk s' :
  2 <= fuel ->
  subscribed s ->
  getRegistry s n = Some reg ->
  JsMap.get k (_keyValue reg) = Some (Borrow ext) ->
  concatNamespaceWithKey (Some tn) tk = ext ->
  changeKey fuel tn tk s = Some s' ->
  (concatNamespaceWithKey (Some n) k ∉ _errorKeys s')
  /\ exists evs1 evs2,
       _published s'
       = _published s ++ evs1 ++ EvKey None (concatNamespaceWithKey (Some n) k) :: evs2.
Proof.
  intros Hfuel (H1 & H2 & _) Hreg Hget Hext Hrun.
  destruct (H2 n reg k ext Hreg Hget) as [x Hx].
  destruct (H1 n reg k x Hreg Hx) as (Hn & Hk & Hget' & Hin).
  rewrite Hget in Hget'. injection Hget' as Hext'.
  destruct fuel as [|fuel]; [lia|]. cbn [changeKey] in Hrun. unfold emitKey in Hrun.
  rewrite Hext, Hext' in Hrun. injection Hrun as <-.
  match goal with |- context [emitKey_scopes ?call ?aff ?s0] =>
    assert (Hframe : forall l v s s', call l v s = Some s' -> unmarks s s' /\ notifiedOnly s s');
    [|assert (Hroom : forall s, is_Some (call (ls x) (lsPartKey (ls x)) s));
      [|assert (Haff : (ns x, lsPartKey (ls x)) ∈ aff);
        [|destruct (emitKey_scopes_calls call aff (ns x) (lsPartKey (ls x)) (ls x)
                      Hframe Hroom Haff s0 Hin)
            as (s1 & s2 & [[_ [evs1 Hp1]] _] & Hcall & [[Hsub [evs2 Hp2]] _])]]] end.
  - intros l v s0 s1. cbv beta. destruct (decide (v = lsPartKey l)).
    + intros Hc. split; [by eapply changeKey_unmarks_rel|by eapply changeKey_frame].
    + intros [= <-]. apply notified_refl.
  - intros s0. cbv beta. destruct (decide (lsPartKey (ls x) = lsPartKey (ls x))); [|done].
    apply changeKey_returns. lia.
  - apply splitKeyByNamespace_concat.
  - cbv beta in Hcall. destruct (decide (lsPartKey (ls x) = lsPartKey (ls x))); [|done].
    rewrite Hn, Hk in Hcall. apply changeKey_unmarked in Hcall as [Hno [evs Hp]].
    split; [set_solver|]. cbn [_published publish with_errorKeys] in Hp1.
    exists (EvKey None (ns x +:+ dotS +:+ lsPartKey (ls x)) :: evs1), (evs ++ evs2).
    rewrite Hp2, Hp, Hp1. by rewrite <- !app_assoc.
Qed.

Lemma visit_visited n k c : isVisited c (n, k) = true -> visit n k c = None.
Proof.
  unfold isVisited, visit. simpl. destruct (visited c !! n) as [keys|]; [|done].
  by intros ->.
Qed.

Lemma findValue_loop_visited fuel locale n k l :
  forall s c,
    (forall n' k', (n', k') ∈ l -> is_Some (getRegistry s n') -> n' = n /\ k' = k) ->
    isVisited c (n, k) = true ->
    exists s' c', findValue_loop (candidateValue fuel locale) l s c = Some (s', c', None).
Proof.
  induction l as [|[n' k'] l IH]; intros s c Honly Hvis; simpl; [by eauto|].
  destruct (getRegistry s n') as [reg'|] eqn:Hreg.
  - destruct (Honly n' k') as [-> ->]; [by left|by eexists|].
    rewrite (visit_visited _ _ _ Hvis). apply IH; [|done].
    intros n2 k2 Hin. apply Honly. by right.
  - apply IH; [|done]. intros n2 k2 Hin. apply Honly. by right.
Qed.

Lemma findValue_loop_borrow fuel locale n k reg ext c' l :
  forall s c,
    getRegistry s n = Some reg ->
    JsMap.get k (_keyValue reg) = Some (Borrow ext) ->
    (forall n' k', (n', k') ∈ l -> is_Some (getRegistry s n') -> n' = n /\ k' = k) ->
    (n, k) ∈ l ->
    visit n k c = Some c' ->
    forall r, findValue_fuel fuel s locale ext c' = Some r ->
    exists r', findValue_loop (candidateValue fuel locale) l s c = Some r' /\ snd r' = snd r.
Proof.
  induction l as [|[n' k'] l IH]; intros s c Hreg Hget Honly Hin Hvisit r Hrec.
  { by apply elem_of_nil in Hin. }
  simpl. destruct (getRegistry s n') as [reg'|] eqn:Hreg'.
  - destruct (Honly n' k') as [-> ->]; [by left|by eexists|].
    rewrite Hreg in Hreg'. injection Hreg' as <-. rewrite Hvisit.
    unfold candidateValue at 1. unfold I18nRegistry_getValue. rewrite Hget, Hrec.
    destruct r as [[s1 c1] [v|]]; [by eexists|].
    pose proof (findValue_fuel_searched _ _ _ _ _ _ Hrec) as (errs & Hs1 & Hgrow & _).
    simpl in Hs1, Hgrow. subst s1.
    destruct (findValue_loop_visited fuel locale n k l (addErrors errs s) c1)
      as (s2 & c2 & Hrest).
    + intros n2 k2 Hin2 Hsome. apply Honly; [by right|done].
    + apply Hgrow. by apply visit_Some in Hvisit as (_ & ? & _).
    + rewrite Hrest. by eexists.
  - apply IH; try done.
    + intros n2 k2 Hin2. apply Honly. by right.
    + apply elem_of_cons in Hin as [[= <- <-]|Hin]; [congruence|done].
Qed.

(** X23: in a namespace that is the only registered one on the path of
    the full key, a borrowed key resolves to whatever its target resolves
    to when the search for the target starts with the borrowing key
    already visited. *)
Theorem borrowed_key_resolves_to_target s n k reg ext locale ctxNs ctxK :
  getRegistry s n = Some reg ->
  JsMap.get k (_keyValue reg) = Some (Borrow ext) ->
  (forall n' k', (n', k') ∈ splitKeyByNamespace (n +:+ dotS +:+ k) ->
                 is_Some (getRegistry s n') -> n' = n) ->
  snd (findValue s locale (n +:+ dotS +:+ k) (mkVisited ctxNs ctxK ∅ false))
  = snd (findValue s locale ext (mkVisited ctxNs ctxK {[n := [k]]} false)).
Proof.
  intros Hreg Hget Honly.
  set (c0 := mkVisited ctxNs ctxK ∅ false).
  set (c1 := mkVisited ctxNs ctxK {[n := [k]]} false).
  assert (Hvisit : visit n k c0 = Some c1).
  { unfold visit, c0, c1. cbn [visited]. rewrite lookup_empty. cbn. by rewrite insert_empty. }
  assert (Hlt : unvisited s c1 < length (borrowedPairs s)).
  { pose proof (unvisited_bound s c0).
    destruct (visit_Some _ _ _ _ Hvisit) as (H0 & H1 & Hg).
    pose proof (unvisited_lt s c0 c1 (n, k) Hg (borrowedPairs_elem s n reg k ext Hreg Hget)
                  H0 H1). lia. }
  destruct (findValue_fuel_enough _ s locale ext c1 Hlt) as (r & Hrec & _).
  pose proof (findValue_fuel_findValue s locale (n +:+ dotS +:+ k) c0
                (S (length (borrowedPairs s))) ltac:(lia)) as Hrun.
  cbn [findValue_fuel] in Hrun.
  destruct (findValue_loop_borrow (length (borrowedPairs s)) locale n k reg ext c1
              (splitKeyByNamespace (n +:+ dotS +:+ k)) s c0 Hreg Hget) with (r := r)
    as (r' & Hloop & Hsnd); try done.
  - intros n' k' Hin Hsome. assert (n' = n) as -> by (by eapply Honly).
    split; [done|]. apply splitKeyByNamespace_elem in Hin.
    apply append_inj_l in Hin. by apply append_inj_l in Hin.
  - apply splitKeyByNamespace_concat.
  - unfold candidateValue in Hloop. rewrite Hloop in Hrun. injection Hrun as <-.
    rewrite Hsnd.
    apply (findValue_fuel_mono _ (S (length (borrowedPairs s)))) in Hrec; [|lia].
    rewrite (findValue_fuel_findValue s locale ext c1) in Hrec by lia.
    by injection Hrec as <-.
Qed.

Lemma JsMap_keys_set {A} k (v : A) m :
  JsMap.keys (JsMap.set k v m) = JsMap.keys m ++ (if JsMap.has k m then [] else [k]).
Proof.
  unfold JsMap.keys, JsMap.has. induction m as [|[k' x] m IH]; simpl; [done|].
  destruct (decide (k = k')) as [->|Hne]; simpl.
  - by rewrite app_nil_r.
  - by rewrite IH.
Qed.

(** X24: a successful [set] leaves a direct entry under the key with the
    value under the given locale and no subscription; an existing direct
    entry keeps its other locales and their order, with a new locale
    added at the end, while a borrow or an absent key is replaced by the
    single locale; the other keys of the registry are not touched. *)
Theorem set_merges_locales fuel s this key value locale s' :
  _setValue fuel s this key value locale = Some (s', true) ->
  exists reg reg' t',
    getRegistry s this = Some reg /\ getRegistry s' this = Some reg'
    /\ JsMap.get key (_keyValue reg') = Some (Direct t')
    /\ JsMap.get locale t' = Some value
    /\ _externalListeners reg' !! key = None
    /\ (forall k, k <> key ->
          JsMap.get k (_keyValue reg') = JsMap.get k (_keyValue reg)
          /\ _externalListeners reg' !! k = _externalListeners reg !! k)
    /\ match JsMap.get key (_keyValue reg) with
       | Some (Direct t) =>
           (forall l, l <> locale -> JsMap.get l t' = JsMap.get l t)
           /\ JsMap.keys t' = JsMap.keys t ++ (if JsMap.has locale t then [] else [locale])
       | _ => t' = [(locale, value)]
       end.
Proof.
  intros Hset. apply setValue_success in Hset
    as (reg & reg' & Hreg & _ & _ & Hget & Hkv & Hext & _).
  exists reg, reg'. eexists. split; [done|].
  split; [rewrite Hget; by destruct (decide (this = this))|].
  split; [rewrite Hkv, JsMap_get_set; by destruct (decide (key = key))|].
  split.
  { destruct (JsMap.get key (_keyValue reg)) as [[t|x]|]; cbn;
      rewrite ?JsMap_get_set; by destruct (decide (locale = locale)). }
  split; [rewrite Hext; apply lookup_delete_eq|].
  split.
  { intros k Hk. split.
    - rewrite Hkv, JsMap_get_set. by destruct (decide (k = key)).
    - rewrite Hext. by apply lookup_delete_ne. }
  destruct (JsMap.get key (_keyValue reg)) as [[t|x]|]; [|done..].
  split; [|apply JsMap_keys_set].
  intros l Hl. rewrite JsMap_get_set. by destruct (decide (l = locale)).
Qed.

End Propagation.

Section PropagationExamples.
Import Base Spec.

Lemma borrowers_are_notified_witness :
  2 <= 2
  /\ subscribed Scenarios.halfCycle
  /\ concatNamespaceWithKey (Some "control") "button.back_off"
     ∉ _errorKeys
         (Scenarios.result
            (Some (default Scenarios.halfCycle
                     (changeKey 2 "settings" "autoSave.back_disabled" Scenarios.halfCycle),
                   true))
            Scenarios.halfCycle).
Proof.
  assert (Hsub : subscribed Scenarios.halfCycle)
    by (apply subscribed_invariant, reachable_halfCycle).
  split; [lia|]. split; [exact Hsub|].
  assert (Hreg : getRegistry Scenarios.halfCycle "control"
                 = Some (mkRegistry
                           [("button.back_off", Borrow "settings.autoSave.back_disabled")]
                           {["button.back_off" :=
                               mkExternal
                                 (mkListener 0 "control" "button.back_off"
                                    "autoSave.back_disabled") "settings"]}))
    by (vm_compute; reflexivity).
  assert (Hrun : changeKey 2 "settings" "autoSave.back_disabled" Scenarios.halfCycle
                 = Some (default Scenarios.halfCycle
                           (changeKey 2 "settings" "autoSave.back_disabled"
                              Scenarios.halfCycle)))
    by (vm_compute; reflexivity).
  apply (borrowers_are_notified 2 Scenarios.halfCycle "control" _ "button.back_off"
           "settings.autoSave.back_disabled" "settings" "autoSave.back_disabled" _
           (le_n 2) Hsub Hreg eq_refl eq_refl Hrun).
Defined.

Lemma borrowed_key_resolves_to_target_witness :
  getRegistry Scenarios.halfCycle "control"
  = Some (mkRegistry
            [("button.back_off", Borrow "settings.autoSave.back_disabled")]
            {["button.back_off" :=
                mkExternal
                  (mkListener 0 "control" "button.back_off" "autoSave.back_disabled")
                  "settings"]})
  /\ snd (findValue Scenarios.halfCycle "ru_ru" ("control" +:+ dotS +:+ "button.back_off")
            (mkVisited None "k" ∅ false))
     = snd (findValue Scenarios.halfCycle "ru_ru" "settings.autoSave.back_disabled"
              (mkVisited None "k" {["control" := ["button.back_off"]]} false)).
Proof.
  assert (Hreg : getRegistry Scenarios.halfCycle "control"
                 = Some (mkRegistry
                           [("button.back_off", Borrow "settings.autoSave.back_disabled")]
                           {["button.back_off" :=
                               mkExternal
                                 (mkListener 0 "control" "button.back_off"
                                    "autoSave.back_disabled") "settings"]}))
    by (vm_compute; reflexivity).
  split; [exact Hreg|].
  apply (borrowed_key_resolves_to_target Scenarios.halfCycle "control" "button.back_off" _
           "settings.autoSave.back_disabled" "ru_ru" None "k" Hreg eq_refl).
  intros n' k' Hin Hsome. vm_compute in Hin.
  apply elem_of_cons in Hin as [Hin|Hin]; [by injection Hin as -> ->|].
  apply list_elem_of_singleton in Hin. injection Hin as -> ->.
  vm_compute in Hsome. by destruct Hsome.
Defined.

Lemma set_merges_locales_witness :
  Impl.set 1 Scenarios.twoNamespaces "ns1" "var" "A" "ru_ru"
  = Some (Scenarios.result
            (Impl.set 1 Scenarios.twoNamespaces "ns1" "var" "A" "ru_ru")
            Scenarios.twoNamespaces, true)
  /\ exists reg' t',
       getRegistry (Scenarios.result
                      (Impl.set 1 Scenarios.twoNamespaces "ns1" "var" "A" "ru_ru")
                      Scenarios.twoNamespaces) "ns1" = Some reg'
       /\ JsMap.get "var" (_keyValue reg') = Some (Direct t')
       /\ JsMap.get "ru_ru" t' = Some "A".
Proof.
  assert (H : Impl.set 1 Scenarios.twoNamespaces "ns1" "var" "A" "ru_ru"
              = Some (Scenarios.result
                        (Impl.set 1 Scenarios.twoNamespaces "ns1" "var" "A" "ru_ru")
                        Scenarios.twoNamespaces, true)) by (vm_compute; reflexivity).
  split; [exact H|].
  destruct (set_merges_locales 1 Scenarios.twoNamespaces "ns1" "var" "A" "ru_ru" _ H)
    as (reg & reg' & t' & _ & H1 & H2 & H3 & _).
  by exists reg', t'.
Defined.

End PropagationExamples.

(** ** Token records *)
Section TokenRecords.
Import Ex Spec.

Lemma assign_end x (array : list string) : assign (length array) x array = array ++ [x].
Proof. unfold assign. by rewrite Nat.ltb_irrefl, Nat.sub_diag. Qed.

Lemma assign_inside i x (array : list string) :
  i < length array -> assign i x array = <[i := x]> array.
Proof. unfold assign. intros Hi. apply Nat.ltb_lt in Hi. by rewrite Hi. Qed.

Lemma construct_spec tokens : forall i segments positions,
  length segments = i ->
  construct i tokens (mkTokens segments positions)
  = mkTokens (segments ++ (render (fun _ => Some EmptyString) <$> tokens))
      (positions ++ positionsFrom i tokens).
Proof.
  induction tokens as [|item tokens IH]; intros i segments positions Hlen; simpl.
  - by rewrite !app_nil_r.
  - subst i. unfold constructItem.
    destruct item as [text|[[] v]]; simpl; rewrite assign_end, IH, <- ?app_assoc;
      try done; by rewrite length_app, Nat.add_1_r.
Qed.

Lemma new_spec tokens :
  new tokens = mkTokens (render (fun _ => Some EmptyString) <$> tokens) (positionsFrom 0 tokens).
Proof. unfold new. by rewrite construct_spec. Qed.

Lemma fill_spec variables tokens : forall i (segments : list string),
  i + length tokens <= length segments ->
  let filled :=
    foldl (fun segments item =>
             assign (index item) (default (name item) (variables (name item))) segments)
          segments (positionsFrom i tokens) in
  length filled = length segments
  /\ forall j, filled !! j
               = match (if decide (i <= j) then tokens !! (j - i) else None) ≫= placeholder with
                 | Some name => Some (default name (variables name))
                 | None => segments !! j
                 end.
Proof.
  induction tokens as [|item tokens IH]; intros i segments Hlen; simpl.
  - split; [done|]. intros j. by destruct (decide (i <= j)).
  - simpl in Hlen.
    assert (Hrest : forall segments',
               length segments' = length segments ->
               (forall j, j <> i -> segments' !! j = segments !! j) ->
               (segments' !! i = match placeholder item with
                                 | Some name => Some (default name (variables name))
                                 | None => segments !! i
                                 end) ->
               let filled :=
                 foldl (fun segments item =>
                          assign (index item) (default (name item) (variables (name item)))
                            segments) segments' (positionsFrom (S i) tokens) in
               length filled = length segments
               /\ forall j, filled !! j
                            = match (if decide (i <= j)
                                     then (item :: tokens) !! (j - i) else None)
                                    ≫= placeholder with
                              | Some name => Some (default name (variables name))
                              | None => segments !! j
                              end).
    { intros segments' Hlen' Hother Hhere.
      destruct (IH (S i) segments') as [Hl Hlook]; [lia|].
      split; [by rewrite Hl|]. intros j. rewrite Hlook.
      destruct (decide (S i <= j)) as [Hj|Hj].
      - destruct (decide (i <= j)); [|lia].
        replace (j - i) with (S (j - S i)) by lia. simpl.
        destruct (tokens !! (j - S i) ≫= placeholder); [done|]. apply Hother. lia.
      - simpl. destruct (decide (i <= j)) as [Hij|Hij].
        + assert (j = i) as -> by lia. rewrite Nat.sub_diag. simpl. exact Hhere.
        + simpl. apply Hother. lia. }
    destruct (placeholder item) as [nm|] eqn:Hph; simpl.
    + apply Hrest.
      * rewrite assign_inside by lia. by rewrite length_insert.
      * intros j Hj. rewrite assign_inside by lia. by apply list_lookup_insert_ne.
      * rewrite assign_inside by lia. apply list_lookup_insert_eq. lia.
    + by apply Hrest.
Qed.

Lemma joinAll_render variables tokens (segments : list string) :
  length segments = length tokens ->
  (forall j item, tokens !! j = Some item -> placeholder item = None ->
                  segments !! j = Some (render variables item)) ->
  let filled :=
    foldl (fun segments item =>
             assign (index item) (default (name item) (variables (name item))) segments)
          segments (positionsFrom 0 tokens) in
  filled = render variables <$> tokens
  /\ length filled = length tokens
  /\ forall variables' j item,
       tokens !! j = Some item -> placeholder item = None ->
       filled !! j = Some (render variables' item).
Proof.
  intros Hlen Htext.
  destruct (fill_spec variables tokens 0 segments) as [Hl Hlook]; [lia|].
  assert (Hfilled : forall j, foldl
             (fun segments item =>
                assign (index item) (default (name item) (variables (name item))) segments)
             segments (positionsFrom 0 tokens) !! j
           = render variables <$> tokens !! j).
  { intros j. rewrite Hlook. destruct (decide (0 <= j)); [|lia]. rewrite Nat.sub_0_r.
    destruct (tokens !! j) as [item|] eqn:Hitem; simpl.
    - destruct (placeholder item) as [nm|] eqn:Hph.
      + destruct item as [text|[[] v]]; try done. simpl in Hph. by injection Hph as <-.
      + by apply Htext.
    - apply lookup_ge_None. apply lookup_ge_None in Hitem. lia. }
  cbv zeta. split; [|split].
  - apply list_eq. intros j. by rewrite Hfilled, list_lookup_fmap.
  - by rewrite Hl.
  - intros variables' j item Hitem Hph. rewrite Hfilled, Hitem. simpl.
    destruct item as [text|[[] v]]; done.
Qed.

Lemma get_new (tokens : list TItem) (variables variables' : string -> option string) :
  fst (get variables (new tokens)) = joinAll (render variables <$> tokens)
  /\ fst (get variables (snd (get variables' (new tokens))))
     = fst (get variables (new tokens)).
Proof.
  rewrite new_spec. unfold get. cbn [_segments _positions fst snd].
  assert (Hinit : forall j item, tokens !! j = Some item -> placeholder item = None ->
                    forall v, (render (fun _ => Some EmptyString) <$> tokens) !! j
                              = Some (render v item)).
  { intros j item Hitem Hph v. rewrite list_lookup_fmap, Hitem. simpl.
    destruct item as [text|[[] x]]; done. }
  destruct (joinAll_render variables tokens (render (fun _ => Some EmptyString) <$> tokens))
    as (Hfirst & _); [by rewrite length_fmap|by intros; apply Hinit|].
  destruct (joinAll_render variables' tokens (render (fun _ => Some EmptyString) <$> tokens))
    as (_ & Hlen & Hkeep); [by rewrite length_fmap|by intros; apply Hinit|].
  destruct (joinAll_render variables tokens _ Hlen (Hkeep variables)) as (Hsecond & _).
  cbv zeta in *. by rewrite Hsecond, Hfirst.
Qed.

(** X25: [get] on a new token record returns the texts of the items in
    order, with every placeholder replaced by the variable of its name,
    or by the name when there is no such variable; and although [get]
    overwrites the segments of the record, a later [get] returns what it
    would have returned on the new record. *)
Theorem tokens_get_substitutes (tokens : list TItem)
    (variables variables' : string -> option string) :
  fst (get variables (new tokens)) = joinAll (render variables <$> tokens)
  /\ fst (get variables (snd (get variables' (new tokens))))
     = fst (get variables (new tokens)).
Proof. apply get_new. Qed.

(** X26: for a template [a{g}b] whose parts have no other brace and
    whose group is not blank, stored as by [setTemplate], [get] returns
    [a], the variable named by the trimmed group (or that name when there
    is no such variable) and [b]; a template without braces is returned
    as it is. *)
Theorem template_substitution (a g b : string) (variables : string -> option string) :
  braceFree a = true -> braceFree g = true ->
  isNonemptyString (trim g) = true -> braceFree b = true ->
  fst (get variables (ofTemplate (a +:+ String openBrace (g +:+ String closeBrace b))))
  = a +:+ default (trim g) (variables (trim g)) +:+ b
  /\ fst (get variables (ofTemplate a)) = a.
Proof.
  intros Ha Hg Hne Hb. unfold ofTemplate. split.
  - destruct (get_new (ItemToken <$> templateToTokens
                         (a +:+ String openBrace (g +:+ String closeBrace b)))
                variables variables) as [-> _].
    rewrite templateToTokens_group, (templateToTokens_plain b) by done.
    cbn. by rewrite append_nil_r.
  - destruct (get_new (ItemToken <$> templateToTokens a) variables variables) as [-> _].
    rewrite templateToTokens_plain by done. cbn. apply append_nil_r.
Qed.

Lemma template_substitution_witness :
  braceFree "Hello, " = true
  /\ fst (get (fun name => if String.eqb name "name" then Some "World" else None)
            (ofTemplate ("Hello, " +:+ String openBrace (" name " +:+ String closeBrace "!"))))
     = "Hello, " +:+ "World" +:+ "!".
Proof.
  split; [reflexivity|].
  apply (template_substitution "Hello, " " name " "!"
           (fun name => if String.eqb name "name" then Some "World" else None)
           eq_refl eq_refl eq_refl eq_refl).
Defined.

End TokenRecords.

(** ** Registration guard and the emitters of the state *)
Section RegistrationGuard.
Import Base Spec.
Context {TValue : Type} `{Ops : TValueOps TValue}.
Implicit Types (s : SharedSingleton TValue) (c : TVisitedI18n).

Lemma JsMap_keys_get {A} k (m : list (string * A)) :
  In k (JsMap.keys m) -> is_Some (JsMap.get k m).
Proof.
  unfold JsMap.keys. induction m as [|[k' v] m IH]; simpl; [done|].
  destruct (decide (k = k')); [by eexists|]. intros [?|?]; [congruence|auto].
Qed.

Lemma getKeyIfIntersection_Some (reg : I18nRegistry TValue) k key :
  getKeyIfIntersection reg k = Some key ->
  is_Some (JsMap.get key (_keyValue reg)) /\ k ∈ splitKeyIntoParts key.
Proof.
  unfold getKeyIfIntersection. intros [Hin Hp]%find_some. split.
  - by apply JsMap_keys_get.
  - by apply bool_decide_eq_true in Hp.
Qed.

Lemma getKeyIfIntersection_None (reg : I18nRegistry TValue) k key e :
  getKeyIfIntersection reg k = None ->
  JsMap.get key (_keyValue reg) = Some e -> k ∉ splitKeyIntoParts key.
Proof.
  unfold getKeyIfIntersection. intros Hnone Hget.
  pose proof (find_none _ _ Hnone key (JsMap_get_keys _ _ _ Hget)) as Hp.
  simpl in Hp. by apply bool_decide_eq_false in Hp.
Qed.

Lemma register_scan_None s l :
  (forall n k, (n, k) ∈ l -> isNonemptyString k = true) ->
  register_scan s l = None <->
  forall n k reg key e,
    (n, k) ∈ l -> getRegistry s n = Some reg ->
    JsMap.get key (_keyValue reg) = Some e -> k ∉ splitKeyIntoParts key.
Proof.
  induction l as [|[n0 k0] l IH]; intros Hne; simpl.
  { split; [|done]. by intros _ n k reg key e ?%elem_of_nil. }
  assert (Hne' : forall n k, (n, k) ∈ l -> isNonemptyString k = true)
    by (intros n k ?; apply (Hne n k); by right).
  assert (Hk0 : isNonemptyString k0 = true) by (apply (Hne n0 k0); by left).
  destruct (getRegistry s n0) as [reg0|] eqn:Hreg0.
  - destruct (getKeyIfIntersection reg0 k0) as [key0|] eqn:Hint.
    + destruct (getKeyIfIntersection_Some _ _ _ Hint) as [[e0 He0] Hp0].
      assert (Hkey0 : isNonemptyString key0 = true).
      { destruct key0; [|done]. apply splitKeyIntoParts_empty in Hp0. by subst. }
      rewrite Hkey0. split; [done|]. intros Hall. exfalso.
      apply (Hall n0 k0 reg0 key0 e0); [by left|done..].
    + rewrite (IH Hne'). split.
      * intros Hall n k reg key e [[= -> ->]|Hin]%elem_of_cons Hreg Hget.
        -- rewrite Hreg0 in Hreg. injection Hreg as <-.
           by eapply getKeyIfIntersection_None.
        -- by eapply Hall.
      * intros Hall n k reg key e Hin. apply Hall. by right.
  - rewrite (IH Hne'). split.
    + intros Hall n k reg key e [[= -> ->]|Hin]%elem_of_cons Hreg Hget; [congruence|].
      by eapply Hall.
    + intros Hall n k reg key e Hin. apply Hall. by right.
Qed.

(** X27: a namespace that has no registry yet is registered exactly
    when it is a well-formed path and no registered namespace above it
    owns a key that is the rest of the path or continues it after a
    dot. *)
Theorem register_succeeds_iff s fullNamespace :
  getRegistry s fullNamespace = None ->
  snd (register s fullNamespace) = Some fullNamespace <->
  testNamespacePath fullNamespace = true
  /\ forall n k reg key e,
       fullNamespace = n +:+ dotS +:+ k -> getRegistry s n = Some reg ->
       JsMap.get key (_keyValue reg) = Some e ->
       key <> k /\ forall r, key <> k +:+ dotS +:+ r.
Proof.
  intros Hnone. unfold register. rewrite getRegistry_bind, Hnone.
  destruct (testNamespacePath fullNamespace) eqn:Hpath; simpl; [|by split; [|intros []]].
  assert (Hne : forall n k, (n, k) ∈ splitKeyByNamespace fullNamespace ->
                            isNonemptyString k = true).
  { intros n k ->%splitKeyByNamespace_elem.
    rewrite testNamespacePath_concat in Hpath. apply andb_true_iff in Hpath as [_ Hk].
    by apply testNamespacePath_nonempty. }
  pose proof (register_scan_None s _ Hne) as Hscan.
  destruct (register_scan s (splitKeyByNamespace fullNamespace)) as [[o key]|] eqn:Hrs; simpl.
  - split; [done|]. intros [_ Hall]. exfalso.
    assert (Hcontra : Some (o, key) = @None (string * string)); [|done].
    apply Hscan. intros n k reg key' e Hin Hreg Hget.
    apply splitKeyByNamespace_elem in Hin.
    destruct (Hall n k reg key' e Hin Hreg Hget) as [Hne1 Hne2].
    rewrite splitKeyIntoParts_elem. intros [Heq|[r Heq]]; [by apply Hne1|by apply (Hne2 r)].
  - split; [|done]. intros _. split; [done|].
    intros n k reg key e -> Hreg Hget.
    pose proof (proj1 Hscan eq_refl n k reg key e (splitKeyByNamespace_concat n k) Hreg Hget)
      as Hnot.
    rewrite splitKeyIntoParts_elem in Hnot. split.
    + intros ->. apply Hnot. by left.
    + intros r ->. apply Hnot. right. by exists r.
Qed.

End RegistrationGuard.

Section EmitterRefinement.
Import Base Spec.

Lemma Emitter_includes_lid (l : TListenerKey) (e : Emitter) :
  Emitter_includes l e = EmitterClass.includes (lid l) (lid <$> e).
Proof.
  unfold Emitter_includes, EmitterClass.includes.
  induction e as [|x e IH]; simpl; [done|].
  rewrite IH. unfold sameListener. destruct (Nat.eqb (lid l) (lid x)) eqn:Hid; simpl.
  - apply Nat.eqb_eq in Hid. symmetry. apply bool_decide_eq_true. rewrite Hid. by left.
  - apply Nat.eqb_neq in Hid. apply bool_decide_ext. rewrite elem_of_cons. naive_solver.
Qed.

Lemma Emitter_off_lid (l : TListenerKey) (e : Emitter) :
  lid <$> Emitter_off l e = EmitterClass.spliceFirst (lid l) (lid <$> e).
Proof.
  induction e as [|x e IH]; simpl; [done|]. unfold sameListener.
  destruct (Nat.eqb (lid x) (lid l)) eqn:Hid.
  - apply Nat.eqb_eq in Hid. by destruct (decide (lid x = lid l)).
  - apply Nat.eqb_neq in Hid. destruct (decide (lid x = lid l)); [done|].
    by rewrite fmap_cons, IH.
Qed.

Lemma Emitter_off_absent (l : TListenerKey) (e : Emitter) :
  Emitter_includes l e = false -> Emitter_off l e = e.
Proof.
  unfold Emitter_includes. induction e as [|x e IH]; [done|].
  cbn [existsb Emitter_off]. unfold sameListener. intros [Hx Hin]%orb_false_iff.
  rewrite Nat.eqb_sym, Hx. f_equal. by apply IH.
Qed.

(** X28: the emitters kept in the state, lists of listeners that are
    never one-shot, behave as the class [Emitter] does on the identities
    of their listeners: [on] without [once], [off] and [emit] of the class
    give the list that the state's emitter gives, and the one-shot list
    stays null. *)
Theorem state_emitter_refines_class (l : TListenerKey) (e : Emitter) :
  EmitterClass.on (lid l) false (EmitterClass.mkEmitter (lid <$> e) None)
  = EmitterClass.mkEmitter (lid <$> Emitter_on l e) None
  /\ EmitterClass.off (lid l) (EmitterClass.mkEmitter (lid <$> e) None)
     = EmitterClass.mkEmitter (lid <$> Emitter_off l e) None
  /\ EmitterClass.emit (EmitterClass.mkEmitter (lid <$> e) None)
     = (lid <$> e, EmitterClass.mkEmitter (lid <$> e) None).
Proof.
  split; [|split; [|done]].
  - unfold EmitterClass.on, Emitter_on. cbn [EmitterClass._listeners].
    rewrite <- Emitter_includes_lid. destruct (Emitter_includes l e); simpl; [done|].
    by rewrite fmap_app.
  - unfold EmitterClass.off. cbn [EmitterClass._listeners].
    rewrite <- Emitter_includes_lid. destruct (Emitter_includes l e) eqn:Hin.
    + rewrite <- Emitter_off_lid. reflexivity.
    + by rewrite Emitter_off_absent.
Qed.

End EmitterRefinement.

Section RegistrationExamples.
Import Base Spec.

Lemma register_succeeds_iff_witness :
  getRegistry Scenarios.owning "a.b.c" = None
  /\ snd (register Scenarios.owning "a.b.c") <> Some "a.b.c".
Proof.
  split; [reflexivity|].
  intros Hok.
  apply (register_succeeds_iff Scenarios.owning "a.b.c" eq_refl) in Hok as [_ Hall].
  destruct (Hall "a.b" "c" (mkRegistry [("c", Direct [("ru_ru", "C")])] ∅) "c"
              (Direct [("ru_ru", "C")]) eq_refl eq_refl eq_refl) as [Hne _].
  by apply Hne.
Defined.

End RegistrationExamples.
(** ** Notifications that do not settle *)
Section Unsettled.
Import Base Spec.
Context {TValue : Type} `{Ops : TValueOps TValue}.
Implicit Types (s : SharedSingleton TValue) (c : TVisitedI18n).

Lemma settled_frame fuel namespace key s s' :
  settled fuel namespace key s = Some s' -> notifiedOnly s s'.
Proof. intros H. by eapply changeKey_frame, settled_changeKey. Qed.

Lemma settleListeners_stuck call listeners value (l : TListenerKey) ev :
  (forall l v s s', call l v s = Some s' -> _events s' = _events s) ->
  (forall s, _events s = ev -> call l value s = None) ->
  l ∈ listeners ->
  forall s, _events s = ev -> settleListeners call listeners value s = None.
Proof.
  intros Hframe Hstuck. induction listeners as [|x ls IH]; intros Hin s Hev.
  { by apply elem_of_nil in Hin. }
  simpl. destruct (call x value s) as [s1|] eqn:H1; [|done].
  apply elem_of_cons in Hin as [->|Hin]; [by rewrite Hstuck in H1|].
  apply IH; [done|]. by rewrite (Hframe _ _ _ _ H1).
Qed.

Lemma settleListeners_events call listeners value :
  (forall l v s s', call l v s = Some s' -> _events s' = _events s) ->
  forall s s', settleListeners call listeners value s = Some s' -> _events s' = _events s.
Proof.
  intros Hframe. induction listeners as [|x ls IH]; intros s s'; simpl.
  - by intros [= <-].
  - destruct (call x value s) as [s1|] eqn:H1; [|done]. intros H2.
    by rewrite (IH _ _ H2), (Hframe _ _ _ _ H1).
Qed.

Lemma settleScopes_stuck call affected p value (l : TListenerKey) ev :
  (forall l v s s', call l v s = Some s' -> _events s' = _events s) ->
  (forall s, _events s = ev -> call l value s = None) ->
  (p, value) ∈ affected ->
  l ∈ default [] (ev !! p) ->
  forall s, _events s = ev -> settleScopes call affected s = None.
Proof.
  intros Hframe Hstuck Hin Hl. induction affected as [|[n k] rest IH]; intros s Hev.
  { by apply elem_of_nil in Hin. }
  simpl. destruct (settleListeners _ _ _ _) as [s1|] eqn:H1; [|done].
  apply elem_of_cons in Hin as [[= <- <-]|Hin].
  - rewrite (settleListeners_stuck call _ value l ev Hframe Hstuck) in H1; [done| |done].
    by rewrite Hev.
  - apply IH; [done|]. by rewrite (settleListeners_events _ _ _ Hframe _ _ H1).
Qed.

(** Two listeners that notify each other's key: no notification of
    either key settles. *)
Lemma settled_stuck (ev : gmap string Emitter) n1 k1 n2 k2 p1 p2 (l1 l2 : TListenerKey) :
  l1 ∈ default [] (ev !! p1) ->
  (p1, lsPartKey l1) ∈ splitKeyByNamespace (concatNamespaceWithKey (Some n1) k1) ->
  lsNamespace l1 = n2 -> lsKey l1 = k2 ->
  l2 ∈ default [] (ev !! p2) ->
  (p2, lsPartKey l2) ∈ splitKeyByNamespace (concatNamespaceWithKey (Some n2) k2) ->
  lsNamespace l2 = n1 -> lsKey l2 = k1 ->
  forall fuel s, _events s = ev ->
    settled fuel n1 k1 s = None /\ settled fuel n2 k2 s = None.
Proof.
  intros Hl1 Hp1 Hn1 Hk1 Hl2 Hp2 Hn2 Hk2.
  induction fuel as [|fuel IH]; intros s Hev; [done|].
  assert (Hframe : forall l v s0 s1,
             (if decide (v = lsPartKey l)
              then settled fuel (lsNamespace l) (lsKey l) s0 else Some s0) = Some s1 ->
             _events s1 = _events s0).
  { intros l v s0 s1. destruct (decide (v = lsPartKey l)); [|by intros [= <-]].
    intros Hc. by apply settled_frame in Hc as (? & _). }
  cbn [settled]. split.
  - eapply (settleScopes_stuck _ _ p1 (lsPartKey l1) l1 ev); [exact Hframe| |done|done|done].
    intros s0 Hs0. cbv beta. destruct (decide (lsPartKey l1 = lsPartKey l1)); [|done].
    rewrite Hn1, Hk1. by apply IH.
  - eapply (settleScopes_stuck _ _ p2 (lsPartKey l2) l2 ev); [exact Hframe| |done|done|done].
    intros s0 Hs0. cbv beta. destruct (decide (lsPartKey l2 = lsPartKey l2)); [|done].
    rewrite Hn2, Hk2. by apply IH.
Qed.

Lemma unmarks_published s s' : unmarks s s' -> length (_published s) <= length (_published s').
Proof. intros [_ [evs ->]]. rewrite length_app. lia. Qed.

(** Two listeners that notify each other's key: a notification of either
    key nests as deep as the stack has room, and every level publishes. *)
Lemma changeKey_nests (ev : gmap string Emitter) n1 k1 n2 k2 p1 p2 (l1 l2 : TListenerKey) :
  l1 ∈ default [] (ev !! p1) ->
  (p1, lsPartKey l1) ∈ splitKeyByNamespace (concatNamespaceWithKey (Some n1) k1) ->
  lsNamespace l1 = n2 -> lsKey l1 = k2 ->
  l2 ∈ default [] (ev !! p2) ->
  (p2, lsPartKey l2) ∈ splitKeyByNamespace (concatNamespaceWithKey (Some n2) k2) ->
  lsNamespace l2 = n1 -> lsKey l2 = k1 ->
  forall fuel s s', _events s = ev ->
    (changeKey fuel n1 k1 s = Some s' -> length (_published s) + fuel <= length (_published s'))
    /\ (changeKey fuel n2 k2 s = Some s' ->
        length (_published s) + fuel <= length (_published s')).
Proof.
  intros Hl1 Hp1 Hn1 Hk1 Hl2 Hp2 Hn2 Hk2.
  assert (Hstep : forall fuel,
    (forall s s', _events s = ev ->
       (changeKey fuel n1 k1 s = Some s' ->
        length (_published s) + fuel <= length (_published s'))
       /\ (changeKey fuel n2 k2 s = Some s' ->
           length (_published s) + fuel <= length (_published s'))) ->
    forall na ka nb kb p (l : TListenerKey),
      l ∈ default [] (ev !! p) ->
      (p, lsPartKey l) ∈ splitKeyByNamespace (concatNamespaceWithKey (Some na) ka) ->
      lsNamespace l = nb -> lsKey l = kb ->
      (forall s s', _events s = ev -> changeKey fuel nb kb s = Some s' ->
                    length (_published s) + fuel <= length (_published s')) ->
      forall s s', _events s = ev -> changeKey (S fuel) na ka s = Some s' ->
                   length (_published s) + S fuel <= length (_published s')).
  { intros fuel _ na ka nb kb p l Hl Hp Hn Hk Hrec s s' Hev Hrun.
    destruct (decide (fuel = 0)) as [->|Hpos].
    { apply changeKey_unmarked in Hrun as [_ [evs ->]]. rewrite length_app. simpl. lia. }
    cbn [changeKey] in Hrun. unfold emitKey in Hrun. injection Hrun as <-.
    match goal with |- context [emitKey_scopes ?call ?aff ?s0] =>
      assert (Hframe : forall l v s s',
                 call l v s = Some s' -> unmarks s s' /\ notifiedOnly s s');
      [|assert (Hroom : forall s, is_Some (call l (lsPartKey l) s));
        [|destruct (emitKey_scopes_calls call aff p (lsPartKey l) l Hframe Hroom Hp s0)
            as (s1 & s2 & [H01 N01] & Hcall & [H2 _])]] end.
    - intros x v s0 s1. cbv beta. destruct (decide (v = lsPartKey x)).
      + intros Hc. split; [by eapply changeKey_unmarks_rel|by eapply changeKey_frame].
      + intros [= <-]. apply notified_refl.
    - intros s0. cbv beta. destruct (decide (lsPartKey l = lsPartKey l)); [|done].
      apply changeKey_returns. lia.
    - cbn. by rewrite Hev.
    - cbv beta in Hcall. destruct (decide (lsPartKey l = lsPartKey l)); [|done].
      rewrite Hn, Hk in Hcall. apply Hrec in Hcall.
      + apply unmarks_published in H01, H2. cbn in H01. rewrite length_app in H01.
        simpl in H01. lia.
      + destruct N01 as (-> & _). cbn. exact Hev. }
  induction fuel as [|fuel IH]; intros s s' Hev; [done|]. split.
  - apply (Hstep fuel IH n1 k1 n2 k2 p1 l1); try done.
    intros s0 s1 Hev0. by apply IH.
  - apply (Hstep fuel IH n2 k2 n1 k1 p2 l2); try done.
    intros s0 s1 Hev0. by apply IH.
Qed.

(** X29: when the listener of one borrowed key is subscribed where the
    notifications of a second key pass, and the listener of the second
    where those of the first pass, a change notification for either key
    never settles, whatever room the stack has: the two notifications
    call each other until a call finds no room, which [emit] catches.
    The notification then returns, having published at least once for
    every level of nesting the stack had room for. *)
Theorem mutual_subscriptions_never_settle s n1 k1 n2 k2 p1 p2 (l1 l2 : TListenerKey) :
  l1 ∈ default [] (_events s !! p1) ->
  (p1, lsPartKey l1) ∈ splitKeyByNamespace (concatNamespaceWithKey (Some n1) k1) ->
  lsNamespace l1 = n2 -> lsKey l1 = k2 ->
  l2 ∈ default [] (_events s !! p2) ->
  (p2, lsPartKey l2) ∈ splitKeyByNamespace (concatNamespaceWithKey (Some n2) k2) ->
  lsNamespace l2 = n1 -> lsKey l2 = k1 ->
  forall fuel,
    settled fuel n1 k1 s = None /\ settled fuel n2 k2 s = None
    /\ (exists s', changeKey (S fuel) n1 k1 s = Some s'
                   /\ length (_published s) + S fuel <= length (_published s'))
    /\ (exists s', changeKey (S fuel) n2 k2 s = Some s'
                   /\ length (_published s) + S fuel <= length (_published s')).
Proof.
  intros Hl1 Hp1 Hn1 Hk1 Hl2 Hp2 Hn2 Hk2 fuel.
  destruct (settled_stuck (_events s) n1 k1 n2 k2 p1 p2 l1 l2 Hl1 Hp1 Hn1 Hk1 Hl2 Hp2 Hn2 Hk2
              fuel s eq_refl) as [H1 H2].
  split; [done|]. split; [done|]. split.
  - destruct (changeKey_returns (S fuel) n1 k1 s) as [s' Hrun]; [lia|]. exists s'.
    split; [done|].
    by apply (proj1 (changeKey_nests (_events s) n1 k1 n2 k2 p1 p2 l1 l2 Hl1 Hp1 Hn1 Hk1
                       Hl2 Hp2 Hn2 Hk2 (S fuel) s s' eq_refl)).
  - destruct (changeKey_returns (S fuel) n2 k2 s) as [s' Hrun]; [lia|]. exists s'.
    split; [done|].
    by apply (proj2 (changeKey_nests (_events s) n1 k1 n2 k2 p1 p2 l1 l2 Hl1 Hp1 Hn1 Hk1
                       Hl2 Hp2 Hn2 Hk2 (S fuel) s s' eq_refl)).
Qed.

Lemma use_passes fuel s this reg key ext index :
  getRegistry s this = Some reg ->
  JsMap.get key (_keyValue reg) = None ->
  testNamespacePath key = true -> testNamespacePath ext = true ->
  indexOfDot ext = Some index ->
  concatNamespaceWithKey (Some this) key <> ext ->
  error (snd (fst (findValue s (_locale s) ext
                     (mkVisited None key {[this := [key]]} false)))) = false ->
  getRegistry s ext = None ->
  getRegistry s (concatNamespaceWithKey (Some this) key) = None ->
  use fuel s this key ext
  = match _setExternalKey fuel
            (with_errorKeys (_errorKeys s ∖ {[concatNamespaceWithKey (Some this) key]})
               (with_cache (delete (concatNamespaceWithKey (Some this) key) (_cache s)) s))
            this key ext (sliceTo index ext) (sliceFrom (index + 1) ext) with
    | Some s => Some (s, true)
    | None => None
    end.
Proof.
  intros Hreg Hget Hkey Hext Hidx Hself Herr Hnone1 Hnone2.
  unfold use. rewrite Hreg, Hget, Hkey, Hext, Hidx. cbn [negb].
  destruct (indexOfDot_valid ext index Hext Hidx) as (-> & -> & ->). cbn [negb orb].
  rewrite bool_decide_eq_false_2 by done.
  pose proof (findValue_searched s (_locale s) ext
                (mkVisited None key {[this := [key]]} false)) as (errs & Hs & _ & Hflag & _).
  destruct (findValue s (_locale s) ext (mkVisited None key {[this := [key]]} false))
    as [[s1 c1] x]. simpl in Herr, Hs, Hflag. subst s1. rewrite Herr.
  destruct Hflag as [[-> _]|[_ ?]]; [|congruence]. rewrite addErrors_nil.
  unfold checkFullKey at 1. cbn [concatNamespaceWithKey]. rewrite Hnone1.
  unfold checkFullKey. rewrite Hnone2. reflexivity.
Qed.

End Unsettled.

Section UnsettledExamples.
Import Base Spec.

(** X30: in the state reached by [register('a'); register('a.b');
    register('z'); a.set('b.c', 'X', 'ru_ru'); z.use('k', 'a.b.c')], the
    call [a.b.use('c', 'z.k')] passes every check, because the search for
    [z.k] is answered by the key [b.c] of the registry [a] before it
    comes back to [a.b].  The call returns true and reports no error, and
    in the state it leaves, [a.b.c] borrows [z.k] while [z.k] borrows
    [a.b.c]; its notification was cut short by the end of the stack
    only, and from then on no notification of [a.b.c] settles. *)
Theorem shadowed_borrow_never_settles (fuel : nat) :
  reachable Scenarios.entangled
  /\ snd (getValue Scenarios.entangled (Some "z") "k") = "X"
  /\ exists s',
       use (S fuel) Scenarios.entangled "a.b" "c" "z.k" = Some (s', true)
       /\ reachable s'
       /\ _errors s' = _errors Scenarios.entangled
       /\ (exists reg, getRegistry s' "a.b" = Some reg
                       /\ JsMap.get "c" (_keyValue reg) = Some (Borrow "z.k"))
       /\ (exists reg, getRegistry s' "z" = Some reg
                       /\ JsMap.get "k" (_keyValue reg) = Some (Borrow "a.b.c"))
       /\ length (_published Scenarios.entangled) + S fuel <= length (_published s')
       /\ forall fuel', settled fuel' "a.b" "c" s' = None.
Proof.
  split; [apply reachable_entangled|]. split; [vm_compute; reflexivity|].
  assert (Huse : exists s',
             use (S fuel) Scenarios.entangled "a.b" "c" "z.k" = Some (s', true)
             /\ exists sx, changeKey (S fuel) "a.b" "c" sx = Some s'
                  /\ _events sx
                     = <["a" := [mkListener 0 "z" "k" "b.c"]]>
                         (<["z" := [mkListener 1 "a.b" "c" "k"]]> ∅)
                  /\ _namespaces sx = _namespaces Scenarios.circular
                  /\ _errors sx = _errors Scenarios.entangled
                  /\ _published sx = _published Scenarios.entangled).
  { rewrite (use_passes (S fuel) Scenarios.entangled "a.b" (mkRegistry [] ∅) "c" "z.k" 1);
      [|first [vm_compute; reflexivity|by vm_compute] ..].
    unfold _setExternalKey.
    replace (getRegistry _ "a.b") with (Some (mkRegistry (TValue:=string) [] ∅))
      by (vm_compute; reflexivity).
    match goal with |- context [changeKey (S fuel) "a.b" "c" ?sx] =>
      destruct (changeKey_returns (S fuel) "a.b" "c" sx) as [s' Hrun]; [lia|];
      rewrite Hrun; exists s'; split; [done|]; exists sx; split; [exact Hrun|] end.
    split; [vm_compute; reflexivity|]. split; [vm_compute; reflexivity|].
    split; vm_compute; reflexivity. }
  destruct Huse as (s' & Huse & sx & Hrun & Hev & Hns & Herr & Hpub).
  pose proof (changeKey_frame _ _ _ _ _ Hrun) as (Hev' & Hns' & _ & _ & _ & _ & _ & Herr').
  assert (Hreg : forall n, getRegistry s' n = getRegistry Scenarios.circular n).
  { intros n. unfold getRegistry. by rewrite Hns', Hns. }
  exists s'. split; [done|].
  split; [exact (reach_use (S fuel) _ _ _ _ _ _ reachable_entangled Huse)|].
  split; [by rewrite Herr'|].
  split; [rewrite Hreg; eexists; split; vm_compute; reflexivity|].
  split; [rewrite Hreg; eexists; split; vm_compute; reflexivity|].
  split.
  - rewrite <- Hpub.
    refine (proj1 (changeKey_nests (TValue := string) (_events sx) "a.b" "c" "z" "k" "a" "z"
                     (mkListener 0 "z" "k" "b.c") (mkListener 1 "a.b" "c" "k")
                     _ _ eq_refl eq_refl _ _ eq_refl eq_refl (S fuel) sx s' eq_refl) Hrun);
      rewrite ?Hev; vm_compute; by left.
  - intros fuel'.
    refine (proj1 (settled_stuck (TValue := string) (_events s') "a.b" "c" "z" "k" "a" "z"
                     (mkListener 0 "z" "k" "b.c") (mkListener 1 "a.b" "c" "k")
                     _ _ eq_refl eq_refl _ _ eq_refl eq_refl fuel' s' eq_refl));
      rewrite ?Hev', ?Hev; vm_compute; by left.
Qed.

Lemma mutual_subscriptions_never_settle_witness :
  reachable Scenarios.circular
  /\ mkListener 0 "z" "k" "b.c" ∈ default [] (_events Scenarios.circular !! "a")
  /\ mkListener 1 "a.b" "c" "k" ∈ default [] (_events Scenarios.circular !! "z")
  /\ settled 7 "a.b" "c" Scenarios.circular = None
  /\ exists s', changeKey 8 "a.b" "c" Scenarios.circular = Some s'
                /\ length (_published Scenarios.circular) + 8 <= length (_published s').
Proof.
  assert (H1 : mkListener 0 "z" "k" "b.c" ∈ default [] (_events Scenarios.circular !! "a"))
    by (vm_compute; by left).
  assert (H2 : mkListener 1 "a.b" "c" "k" ∈ default [] (_events Scenarios.circular !! "z"))
    by (vm_compute; by left).
  assert (P1 : ("a", "b.c") ∈ splitKeyByNamespace (concatNamespaceWithKey (Some "a.b") "c"))
    by (vm_compute; by left).
  assert (P2 : ("z", "k") ∈ splitKeyByNamespace (concatNamespaceWithKey (Some "z") "k"))
    by (vm_compute; by left).
  split; [apply reachable_circular|]. split; [exact H1|]. split; [exact H2|].
  destruct (mutual_subscriptions_never_settle Scenarios.circular "a.b" "c" "z" "k" "a" "z"
              (mkListener 0 "z" "k" "b.c") (mkListener 1 "a.b" "c" "k")
              H1 P1 eq_refl eq_refl H2 P2 eq_refl eq_refl 7) as (Hs & _ & Hc & _).
  split; [exact Hs|exact Hc].
Defined.

End UnsettledExamples.
